(** * Real-time media session manager of the video-conferencing client

    A shallow embedding of the [useWebRTC] hook and of the in-memory
    signaling relay it sits on.  The repository carries three copies of the
    hook:

    - the JavaScript hook [src/hooks/useWebRTC.js] (simulated participants,
      queueing relay), modules [Relay], [Media] and [HookJS] below;
    - the TypeScript hook that follows it in the same file (plain relay,
      peers), module [HookTS];
    - the enhanced JavaScript hook (queueing relay, peers, state-change
      signals), module [Enhanced].

    JavaScript values are embedded as follows: [undefined] is [None], a
    [Map] is a [gmap] (the order in which it was filled is not kept, so
    what a [forEach] over it does is known up to the order of the visits),
    an object literal used as a table is the [gmap] of its own properties
    (module [RelayObject] adds what such an object inherits), a [Set] is a
    duplicate-free list in insertion order, [Date.now()] is a [Z] handed in
    by the caller, an awaited promise is an outcome handed in by the caller,
    and a callback invocation is an entry of a delivery log. *)

From Stdlib Require Import ZArith List Bool Lia.
From stdpp Require Import base option list gmap strings.
Import ListNotations.

Local Open Scope string_scope.
Local Open Scope Z_scope.
Local Open Scope list_scope.

(** ** Signal messages *)

(** The fields a message may carry besides its routing header.  Every
    sender in the hooks builds one of these shapes. *)
Inductive Payload :=
| NoPayload
| InRoom (roomId : string)
| SignalData (signal_type : string) (blob : string)
| AudioEnabled (audioEnabled : bool)
| VideoEnabled (videoEnabled : bool)
| ScreenSharing (isScreenSharing : bool)
| NewName (name : string)
| RemovedId (removedId : string)
| Timestamp (timestamp : Z).

Record Message := {
  type : string;
  senderId : option string;
  receiverId : option string;
  payload : Payload
}.

#[global] Instance Payload_eq_dec : EqDecision Payload.
Proof. solve_decision. Defined.
#[global] Instance Message_eq_dec : EqDecision Message.
Proof. solve_decision. Defined.

(** JavaScript truthiness of an optional string: [undefined] and the empty
    string are falsy. *)
Definition truthy (o : option string) : bool :=
  match o with
  | Some s => negb (String.eqb s "")
  | None => false
  end.

(** ** The signaling relay: [joinSignalingChannel] and [sendSignal]

    This module reads [SIGNALING_CHANNELS] and [PENDING_MESSAGES] by their
    own properties.  That is all there is to read for a room id that is not
    the name of a member of [Object.prototype]; module [RelayObject] below
    has the lookups as the object literals perform them, for every room
    id. *)

Module Relay.

(** A registered callback: the function object (its identity) and the
    [senderId] property the hooks attach to it. *)
Record Callback := { fn : nat; cb_senderId : option string }.

(** [pendingMessage]: the message spread into a fresh object together with
    [timestamp] and [expires].  A [timestamp] the message carries itself is
    overwritten by the spread; here it stays inside [queued], and nothing
    below reads it. *)
Record Queued := { queued : Message; timestamp : Z; expires : Z }.

(** What a callback is invoked with. *)
Inductive Packet := Live (m : Message) | Held (q : Queued).

Record Delivery := { in_room : string; to_cb : Callback; packet : Packet }.

#[global] Instance Callback_eq_dec : EqDecision Callback.
Proof. solve_decision. Defined.
#[global] Instance Queued_eq_dec : EqDecision Queued.
Proof. solve_decision. Defined.
#[global] Instance Packet_eq_dec : EqDecision Packet.
Proof. solve_decision. Defined.
#[global] Instance Delivery_eq_dec : EqDecision Delivery.
Proof. solve_decision. Defined.

(** The two process-wide objects. *)
Record State := {
  SIGNALING_CHANNELS : gmap string (list Callback);
  PENDING_MESSAGES : gmap string (list Queued)
}.

Definition empty : State :=
  {| SIGNALING_CHANNELS := ∅; PENDING_MESSAGES := ∅ |}.

(** [Set.prototype.add] and [Set.prototype.delete]. *)
Definition set_add (c : Callback) (s : list Callback) : list Callback :=
  if bool_decide (c ∈ s) then s else s ++ [c].

Definition set_delete (c : Callback) (s : list Callback) : list Callback :=
  List.filter (fun c' => negb (bool_decide (c' = c))) s.

(** [msg.receiverId === callback.senderId || !msg.receiverId] *)
Definition pendingFor (callback : Callback) (msg : Queued) : bool :=
  bool_decide (receiverId (queued msg) = cb_senderId callback)
  || negb (truthy (receiverId (queued msg))).

Definition joinSignalingChannel (roomId : string) (callback : Callback)
    (st : State) : State * list Delivery :=
  let channels :=
    match SIGNALING_CHANNELS st !! roomId with
    | None => <[roomId := [callback]]> (SIGNALING_CHANNELS st)
    | Some s => <[roomId := set_add callback s]> (SIGNALING_CHANNELS st)
    end in
  match PENDING_MESSAGES st !! roomId with
  | Some pending =>
      if truthy (cb_senderId callback) then
        let pendingForPeer := List.filter (pendingFor callback) pending in
        if (0 <? length pendingForPeer)%nat then
          ({| SIGNALING_CHANNELS := channels;
              PENDING_MESSAGES :=
                <[roomId := List.filter (fun msg => negb (pendingFor callback msg))
                              pending]> (PENDING_MESSAGES st) |},
           map (fun msg => {| in_room := roomId; to_cb := callback;
                              packet := Held msg |}) pendingForPeer)
        else
          ({| SIGNALING_CHANNELS := channels;
              PENDING_MESSAGES := PENDING_MESSAGES st |}, [])
      else
        ({| SIGNALING_CHANNELS := channels;
            PENDING_MESSAGES := PENDING_MESSAGES st |}, [])
  | None =>
      ({| SIGNALING_CHANNELS := channels;
          PENDING_MESSAGES := PENDING_MESSAGES st |}, [])
  end.

(** The closure returned by [joinSignalingChannel]; the hooks bind it to
    [leaveSignaling]. *)
Definition leaveSignaling (roomId : string) (callback : Callback)
    (st : State) : State :=
  match SIGNALING_CHANNELS st !! roomId with
  | None => st
  | Some s =>
      let s' := set_delete callback s in
      if (length s' =? 0)%nat then
        {| SIGNALING_CHANNELS := delete roomId (SIGNALING_CHANNELS st);
           PENDING_MESSAGES := delete roomId (PENDING_MESSAGES st) |}
      else
        {| SIGNALING_CHANNELS := <[roomId := s']> (SIGNALING_CHANNELS st);
           PENDING_MESSAGES := PENDING_MESSAGES st |}
  end.

(** The three readings of [Date.now()] made by one [sendSignal] call. *)
Record Clock := { at_stamp : Z; at_expiry : Z; at_sweep : Z }.

Definition tick (now : Z) : Clock :=
  {| at_stamp := now; at_expiry := now; at_sweep := now |}.

(** The guard of the [forEach] body in [sendSignal]. *)
Definition hears (message : Message) (callback : Callback) : bool :=
  negb (bool_decide (senderId message = cb_senderId callback))
  && (negb (truthy (receiverId message))
      || bool_decide (receiverId message = cb_senderId callback)).

Definition pendingMessage (message : Message) (now : Clock) : Queued :=
  {| queued := message; timestamp := at_stamp now;
     expires := at_expiry now + 60000 |}.

Definition sendSignal (roomId : string) (message : Message) (now : Clock)
    (st : State) : State * list Delivery :=
  let targets :=
    match SIGNALING_CHANNELS st !! roomId with
    | Some s => List.filter (hears message) s
    | None => []
    end in
  let delivered := (0 <? length targets)%nat in
  if negb delivered && truthy (receiverId message) then
    let pending := default [] (PENDING_MESSAGES st !! roomId) in
    let pushed := pending ++ [pendingMessage message now] in
    ({| SIGNALING_CHANNELS := SIGNALING_CHANNELS st;
        PENDING_MESSAGES :=
          <[roomId := List.filter (fun msg => at_sweep now <? expires msg) pushed]>
            (PENDING_MESSAGES st) |},
     [])
  else
    (st, map (fun callback => {| in_room := roomId; to_cb := callback;
                                 packet := Live message |}) targets).

(** Relay operations as data, to talk about what happens between a send and
    a registration. *)
Inductive Op :=
| Send (roomId : string) (message : Message) (now : Clock)
| Join (roomId : string) (callback : Callback)
| Leave (roomId : string) (callback : Callback).

Definition step (op : Op) (st : State) : State * list Delivery :=
  match op with
  | Send r m now => sendSignal r m now st
  | Join r c => joinSignalingChannel r c st
  | Leave r c => (leaveSignaling r c st, [])
  end.

Fixpoint run (ops : list Op) (st : State) : State * list Delivery :=
  match ops with
  | [] => (st, [])
  | op :: rest =>
      let '(st1, d1) := step op st in
      let '(st2, d2) := run rest st1 in
      (st2, d1 ++ d2)
  end.

(** Callbacks registered in a room, and the queue of a room. *)
Definition registered (roomId : string) (st : State) : list Callback :=
  default [] (SIGNALING_CHANNELS st !! roomId).

Definition queue (roomId : string) (st : State) : list Queued :=
  default [] (PENDING_MESSAGES st !! roomId).

(** Number of times a queued message was handed to a callback in a room. *)
Definition handed (roomId : string) (callback : Callback) (q : Queued)
    (log : list Delivery) : nat :=
  length (List.filter
            (fun d => bool_decide (d = {| in_room := roomId; to_cb := callback;
                                          packet := Held q |})) log).

(** Number of copies of a queued message in a queue. *)
Definition copies (q : Queued) (l : list Queued) : nat :=
  length (List.filter (fun q' => bool_decide (q' = q)) l).

(** Whether unsubscribing [callback] leaves the room without callbacks. *)
Definition empties (roomId : string) (callback : Callback) (st : State) : bool :=
  match SIGNALING_CHANNELS st !! roomId with
  | Some s => (length (set_delete callback s) =? 0)%nat
  | None => false
  end.

(** The last reading of the clock an operation makes, if it makes one. *)
Definition before (t : Z) (op : Op) : Prop :=
  match op with
  | Send _ _ now => at_sweep now <= t
  | _ => True
  end.

(** An operation that is no obstacle to a message [q] queued in [roomId]
    for the receiver [r]: in that room it does not register a callback of
    [r], does not unsubscribe the last callback, and does not queue the very
    same object again. *)
Definition spares (roomId r : string) (q : Queued) (op : Op) (st : State)
    : Prop :=
  match op with
  | Send room m now => room = roomId -> pendingMessage m now <> q
  | Join room c => room = roomId -> cb_senderId c <> Some r
  | Leave room c => room = roomId -> empties roomId c st = false
  end.

(** The message [q] sits once in the queue of [roomId] and no callback of
    its receiver [r] is registered there. *)
Definition waiting (roomId r : string) (q : Queued) (st : State) : Prop :=
  (forall c, c ∈ registered roomId st -> cb_senderId c <> Some r) /\
  (exists l, PENDING_MESSAGES st !! roomId = Some l /\ copies q l = 1%nat).

Fixpoint quiet (roomId r : string) (q : Queued) (ops : list Op) (st : State)
    : Prop :=
  match ops with
  | [] => True
  | op :: rest =>
      spares roomId r q op st /\ quiet roomId r q rest (fst (step op st))
  end.

(** Two clients and two messages used in the examples. *)
Definition alice : Callback := {| fn := 1; cb_senderId := Some "alice" |}.
Definition bob : Callback := {| fn := 2; cb_senderId := Some "bob" |}.

Definition offer : Message :=
  {| type := "signal"; senderId := Some "alice"; receiverId := Some "bob";
     payload := SignalData "offer" "sdp" |}.

Definition hello : Message :=
  {| type := "new-peer"; senderId := Some "alice"; receiverId := None;
     payload := InRoom "room" |}.

End Relay.

(** ** The relay on the two object literals

    [SIGNALING_CHANNELS] and [PENDING_MESSAGES] are object literals.  A
    lookup [obj[roomId]] that finds no own property goes on to
    [Object.prototype]: for a room id that is the name of one of its members
    it yields that member, which is truthy and has none of the methods the
    relay calls, and the call ends in a [TypeError].  Module [Relay] reads
    the two objects by their own properties, which is all there is to read
    for any other room id; this module has the lookups as the code performs
    them. *)

Module RelayObject.
Import Relay.

(** The names every object literal inherits from [Object.prototype]. *)
Definition inherited (key : string) : bool :=
  bool_decide (key ∈ ["constructor"; "hasOwnProperty"; "isPrototypeOf";
                       "propertyIsEnumerable"; "toLocaleString"; "toString";
                       "valueOf"; "__defineGetter__"; "__defineSetter__";
                       "__lookupGetter__"; "__lookupSetter__"; "__proto__"]).

(** What [obj[key]] evaluates to: an own property, a member of
    [Object.prototype], or [undefined]. *)
Inductive Slot (A : Type) := Own (a : A) | Member | Missing.
Arguments Own {A} a.
Arguments Member {A}.
Arguments Missing {A}.

Definition get {A} (obj : gmap string A) (key : string) : Slot A :=
  match obj !! key with
  | Some a => Own a
  | None => if inherited key then Member else Missing
  end.

(** How a call ends: the state it leaves behind, what it handed to
    callbacks, and whether it threw. *)
Record Outcome := { leaves : State; hands : list Delivery; threw : bool }.

Definition returned (st : State) (log : list Delivery) : Outcome :=
  {| leaves := st; hands := log; threw := false |}.

Definition typeError (st : State) : Outcome :=
  {| leaves := st; hands := []; threw := true |}.

Definition joinSignalingChannel (roomId : string) (callback : Callback)
    (st : State) : Outcome :=
  match get (SIGNALING_CHANNELS st) roomId with
  | Member => (* [.add] is not a function *) typeError st
  | slot =>
      let channels :=
        match slot with
        | Own s => <[roomId := set_add callback s]> (SIGNALING_CHANNELS st)
        | _ => <[roomId := [callback]]> (SIGNALING_CHANNELS st)
        end in
      let added :=
        {| SIGNALING_CHANNELS := channels;
           PENDING_MESSAGES := PENDING_MESSAGES st |} in
      match get (PENDING_MESSAGES st) roomId with
      | Own pending =>
          if truthy (cb_senderId callback) then
            let pendingForPeer := List.filter (pendingFor callback) pending in
            if (0 <? length pendingForPeer)%nat then
              returned
                {| SIGNALING_CHANNELS := channels;
                   PENDING_MESSAGES :=
                     <[roomId := List.filter
                                   (fun msg => negb (pendingFor callback msg))
                                   pending]> (PENDING_MESSAGES st) |}
                (map (fun msg => {| in_room := roomId; to_cb := callback;
                                    packet := Held msg |}) pendingForPeer)
            else returned added []
          else returned added []
      | Member =>
          if truthy (cb_senderId callback)
          then (* [.filter] is not a function *) typeError added
          else returned added []
      | Missing => returned added []
      end
  end.

(** The closure returned by [joinSignalingChannel]:
    [SIGNALING_CHANNELS[roomId]?.delete(callback)] guards against
    [undefined] only. *)
Definition leaveSignaling (roomId : string) (callback : Callback)
    (st : State) : Outcome :=
  match get (SIGNALING_CHANNELS st) roomId with
  | Member => (* [.delete] is not a function *) typeError st
  | Missing => returned st []
  | Own s =>
      let s' := set_delete callback s in
      if (length s' =? 0)%nat then
        returned
          {| SIGNALING_CHANNELS := delete roomId (SIGNALING_CHANNELS st);
             PENDING_MESSAGES := delete roomId (PENDING_MESSAGES st) |} []
      else
        returned
          {| SIGNALING_CHANNELS := <[roomId := s']> (SIGNALING_CHANNELS st);
             PENDING_MESSAGES := PENDING_MESSAGES st |} []
  end.

Definition sendSignal (roomId : string) (message : Message) (now : Clock)
    (st : State) : Outcome :=
  match get (SIGNALING_CHANNELS st) roomId with
  | Member => (* [.forEach] is not a function *) typeError st
  | slot =>
      let targets :=
        match slot with
        | Own s => List.filter (hears message) s
        | _ => []
        end in
      let delivered := (0 <? length targets)%nat in
      if negb delivered && truthy (receiverId message) then
        match get (PENDING_MESSAGES st) roomId with
        | Member => (* [.push] is not a function *) typeError st
        | slot =>
            let pending :=
              match slot with
              | Own pending => pending
              | _ => []
              end in
            let pushed := pending ++ [pendingMessage message now] in
            returned
              {| SIGNALING_CHANNELS := SIGNALING_CHANNELS st;
                 PENDING_MESSAGES :=
                   <[roomId := List.filter
                                 (fun msg => at_sweep now <? expires msg)
                                 pushed]> (PENDING_MESSAGES st) |} []
        end
      else
        returned st
          (map (fun callback => {| in_room := roomId; to_cb := callback;
                                   packet := Live message |}) targets)
  end.

(** A call that throws leaves the relay as it is at the throw; the callers
    that come next find it so. *)
Definition step (op : Op) (st : State) : Outcome :=
  match op with
  | Send r m now => sendSignal r m now st
  | Join r c => joinSignalingChannel r c st
  | Leave r c => leaveSignaling r c st
  end.

Fixpoint run (ops : list Op) (st : State) : State * list Delivery :=
  match ops with
  | [] => (st, [])
  | op :: rest =>
      let out := step op st in
      let '(st2, d2) := run rest (leaves out) in
      (st2, hands out ++ d2)
  end.

Definition room (op : Op) : string :=
  match op with
  | Send r _ _ => r
  | Join r _ => r
  | Leave r _ => r
  end.

(** [Relay.quiet] along the calls as the code makes them. *)
Fixpoint quiet (roomId r : string) (q : Queued) (ops : list Op) (st : State)
    : Prop :=
  match ops with
  | [] => True
  | op :: rest =>
      spares roomId r q op st /\ quiet roomId r q rest (leaves (step op st))
  end.

End RelayObject.

(** ** Media acquisition: [getMediaStream] of the JavaScript hook *)

(** [track.kind] *)
Inductive Kind := AudioKind | VideoKind.

#[global] Instance Kind_eq_dec : EqDecision Kind.
Proof. solve_decision. Defined.

(** What a successful capture call hands back: the kinds of the fresh
    tracks of the new [MediaStream]. *)
Definition Capture := list Kind.

(** A thrown value: [err.name] and [err.message]. *)
Record JsError := { err_name : string; err_message : string }.

#[global] Instance JsError_eq_dec : EqDecision JsError.
Proof. solve_decision. Defined.

(** [new Error(message)] *)
Definition Error (message : string) : JsError :=
  {| err_name := "Error"; err_message := message |}.

Module Media.

(** [{ ideal, max }] and [{ ideal }] and [{ exact }]. *)
Record Range := { ideal : Z; max : option Z }.

Inductive AudioConstraint :=
| AudioOff
| AudioOn
| AudioProcessing (echoCancellation noiseSuppression autoGainControl : bool).

Inductive VideoConstraint :=
| VideoOff
| VideoOn
| VideoBox (width height frameRate : Range).

(** The argument of [navigator.mediaDevices.getUserMedia]. *)
Record Constraints := { audio : AudioConstraint; video : VideoConstraint }.

#[global] Instance Range_eq_dec : EqDecision Range.
Proof. solve_decision. Defined.
#[global] Instance AudioConstraint_eq_dec : EqDecision AudioConstraint.
Proof. solve_decision. Defined.
#[global] Instance VideoConstraint_eq_dec : EqDecision VideoConstraint.
Proof. solve_decision. Defined.
#[global] Instance Constraints_eq_dec : EqDecision Constraints.
Proof. solve_decision. Defined.

Definition upto (i m : Z) : Range := {| ideal := i; max := Some m |}.

(** The five constraint objects [getMediaStream] asks for. *)
Definition basicConstraints : Constraints :=
  {| audio := AudioOn; video := VideoOn |}.

Definition detailedConstraints : Constraints :=
  {| audio := AudioProcessing true true true;
     video := VideoBox (upto 640 1280) (upto 480 720) (upto 24 30) |}.

Definition audioOnlyConstraints : Constraints :=
  {| audio := AudioOn; video := VideoOff |}.

Definition videoOnlyConstraints : Constraints :=
  {| audio := AudioOff; video := VideoOn |}.

Definition lowerQualityConstraints : Constraints :=
  {| audio := AudioOn;
     video := VideoBox (upto 320 640) (upto 240 480) (upto 15 24) |}.

Inductive Outcome := Resolved (tracks : Capture) | Rejected (err : JsError).

(** The capture device: the outcome of the [n]-th request of a run (counting
    from 0) for the constraints asked. *)
Definition Device := nat -> Constraints -> Outcome.

(** The browser a run executes in: whether [navigator.mediaDevices] and its
    [getUserMedia] exist, whether the code runs as strict code (module code
    always does), and the device behind [getUserMedia]. *)
Record Browser := { supported : bool; strict : bool; device : Device }.

Record Options := {
  tryAudioOnly : bool;
  tryVideoOnly : bool;
  retryAttempt : Z
}.

(** [options = {}] *)
Definition defaults : Options :=
  {| tryAudioOnly := false; tryVideoOnly := false; retryAttempt := 0 |}.

(** [{ tryAudioOnly: true }] and [{ tryVideoOnly: true }] *)
Definition audioOnly : Options :=
  {| tryAudioOnly := true; tryVideoOnly := false; retryAttempt := 0 |}.

Definition videoOnly : Options :=
  {| tryAudioOnly := false; tryVideoOnly := true; retryAttempt := 0 |}.

Inductive Event :=
| Entered (options : Options)
| Requested (constraints : Constraints).

Definition requests (log : list Event) : list Constraints :=
  omap (fun e => match e with Requested c => Some c | Entered _ => None end) log.

Definition entries (log : list Event) : list Options :=
  omap (fun e => match e with Entered o => Some o | Requested _ => None end) log.

(** How the promise returned by [getMediaStream] settles.  [Diverged] is the
    answer of the model when its recursion budget runs out; the theorems
    show it is never produced. *)
Inductive Completion :=
| Fulfilled (stream : Capture)
| Thrown (err : JsError)
| Diverged.

(** [await navigator.mediaDevices.getUserMedia(constraints)] *)
Definition getUserMedia (env : Browser) (constraints : Constraints)
    (log : list Event) : Outcome * list Event :=
  (device env (length (requests log)) constraints,
   log ++ [Requested constraints]).

(** How the [try] block ends: it falls through to [return stream], throws
    into the [catch], or leaves the function with [return getMediaStream(..)]
    (a returned promise is not awaited, so its rejection bypasses the
    [catch]). *)
Inductive Flow :=
| Normal (stream : Capture)
| Throw (err : JsError)
| Return (c : Completion).

Definition name_is (err : JsError) (n : string) : bool :=
  String.eqb (err_name err) n.

(** In the [OverconstrainedError] handler the result of the lower-quality
    request is assigned to [stream], a name declared by [let] inside the
    [try] block and so out of scope in the [catch] clause: in strict code
    the assignment throws a [ReferenceError] once the request has resolved,
    and the handler's own [catch] takes it like a rejection; in sloppy code
    the assignment succeeds and the stream is returned. *)
Fixpoint getMediaStream_fuel (fuel : nat) (env : Browser)
    (options : Options) (log : list Event) : Completion * list Event :=
  match fuel with
  | O => (Diverged, log)
  | S fuel' =>
    let log := log ++ [Entered options] in
    let again o l := getMediaStream_fuel fuel' env o l in
    let audioNext :=
      {| tryAudioOnly := true; tryVideoOnly := false;
         retryAttempt := retryAttempt options + 1 |} in
    let videoNext :=
      {| tryAudioOnly := false; tryVideoOnly := true;
         retryAttempt := retryAttempt options + 1 |} in
    if negb (supported env) then
      (Thrown (Error "Your browser doesn't support video calls. Please try a different browser like Chrome or Firefox."), log)
    else if 3 <? retryAttempt options then
      (Thrown (Error "Maximum retry attempts reached. Please check your device permissions."), log)
    else
      let '(flow, log) :=
        if tryAudioOnly options then
          let '(r, log) := getUserMedia env audioOnlyConstraints log in
          (match r with Resolved s => Normal s | Rejected e => Throw e end, log)
        else if tryVideoOnly options then
          let '(r, log) := getUserMedia env videoOnlyConstraints log in
          (match r with Resolved s => Normal s | Rejected e => Throw e end, log)
        else
          let '(r, log) := getUserMedia env basicConstraints log in
          match r with
          | Resolved s => (Normal s, log)
          | Rejected basicErr =>
              let '(r, log) := getUserMedia env detailedConstraints log in
              match r with
              | Resolved s => (Normal s, log)
              | Rejected detailedErr =>
                  let '(c, log) := again audioNext log in (Return c, log)
              end
          end in
      match flow with
      | Normal stream => (Fulfilled stream, log)
      | Return c => (c, log)
      | Throw err =>
          if name_is err "NotAllowedError" || name_is err "PermissionDeniedError" then
            (Thrown (Error "Camera or microphone access was denied. Please allow access in your browser settings."), log)
          else if name_is err "NotFoundError" || name_is err "DevicesNotFoundError" then
            (Thrown (Error "No camera or microphone found. Please connect a device and try again."), log)
          else if name_is err "NotReadableError" || name_is err "TrackStartError" then
            if negb (tryAudioOnly options) && negb (tryVideoOnly options) then
              again audioNext log
            else
              (Thrown (Error "Your camera or microphone is already in use by another application."), log)
          else if name_is err "OverconstrainedError" then
            let '(r, log) := getUserMedia env lowerQualityConstraints log in
            match r with
            | Resolved s =>
                if strict env then again audioNext log else (Fulfilled s, log)
            | Rejected lowQualityErr => again audioNext log
            end
          else if negb (tryAudioOnly options) && negb (tryVideoOnly options) then
            again audioNext log
          else if tryAudioOnly options then
            again videoNext log
          else
            (Thrown err, log)
      end
  end.

(** Recursion budget that always suffices: one call per value of
    [retryAttempt] up to 3, and the call that trips the limit. *)
Definition budget (options : Options) : nat :=
  S (Z.to_nat (4 - retryAttempt options)).

Definition getMediaStream (env : Browser) (options : Options)
    : Completion * list Event :=
  getMediaStream_fuel (budget options) env options [].

(** Calls that passed the retry limit, that is the numbered attempts of the
    log line [Media acquisition failed (attempt N)]. *)
Definition attempts (log : list Event) : list Options :=
  List.filter (fun o => retryAttempt o <=? 3) (entries log).

(** [z; z+1; ...] of length [n]. *)
Fixpoint countFrom (z : Z) (n : nat) : list Z :=
  match n with
  | O => []
  | S n' => z :: countFrom (z + 1) n'
  end.

(** Device failures the fallback chain is meant to absorb. *)
Definition deviceBusy (err : JsError) : bool :=
  name_is err "NotReadableError" || name_is err "TrackStartError".

Definition overConstrained (err : JsError) : bool :=
  name_is err "OverconstrainedError".

(** The failures of kind [DeviceBusy] or [OverConstrained]. *)
Definition recoverable (err : JsError) : bool :=
  deviceBusy err || overConstrained err.

Definition alwaysFails (env : Browser) (p : JsError -> bool) : Prop :=
  forall n c, exists err, device env n c = Rejected err /\ p err = true.

(** Two devices used in the examples: one that is always busy, one that
    never satisfies the constraints. *)
Definition busyDevice : Device :=
  fun _ _ => Rejected {| err_name := "NotReadableError"; err_message := "" |}.

Definition pickyDevice : Device :=
  fun _ _ => Rejected {| err_name := "OverconstrainedError"; err_message := "" |}.

Definition browserWith (dev : Device) : Browser :=
  {| supported := true; strict := true; device := dev |}.

End Media.

(** ** Session state shared by the hooks *)

Module Participant.

(** An entry of the [participants] array.  [isVideoOff] and [isMuted] are
    only written by the JavaScript hook and are absent otherwise. *)
Record t := {
  id : string;
  name : string;
  videoEnabled : bool;
  audioEnabled : bool;
  isScreenSharing : bool;
  isCurrentUser : bool;
  stream : option nat;
  isVideoOff : option bool;
  isMuted : option bool
}.

#[global] Instance t_eq_dec : EqDecision t.
Proof. solve_decision. Defined.

End Participant.

Module Session.

(** A [MediaStreamTrack]: [ended] is [readyState === "ended"], [onended]
    tells whether a handler is installed. *)
Record Track := {
  kind : Kind;
  enabled : bool;
  ended : bool;
  onended : bool
}.

(** The media objects the browser has handed out: tracks and streams by
    reference, a stream being the list of its tracks. *)
Record Heap := {
  tracks : gmap nat Track;
  streams : gmap nat (list nat);
  nextTrack : nat;
  nextStream : nat
}.

Definition noMedia : Heap :=
  {| tracks := ∅; streams := ∅; nextTrack := 0; nextStream := 0 |}.

Definition freshTrack (k : Kind) : Track :=
  {| kind := k; enabled := true; ended := false; onended := false |}.

Fixpoint allocTracks (ks : list Kind) (n : nat) (ts : gmap nat Track)
    : list nat * gmap nat Track :=
  match ks with
  | [] => ([], ts)
  | k :: ks' =>
      let '(ids, ts') := allocTracks ks' (S n) (<[n := freshTrack k]> ts) in
      (n :: ids, ts')
  end.

(** A capture call resolving with a new stream made of new tracks. *)
Definition newStream (capture : Capture) (hp : Heap) : nat * Heap :=
  let '(ids, ts) := allocTracks capture (nextTrack hp) (tracks hp) in
  (nextStream hp,
   {| tracks := ts;
      streams := <[nextStream hp := ids]> (streams hp);
      nextTrack := (nextTrack hp + length capture)%nat;
      nextStream := S (nextStream hp) |}).

Definition getTracks (stream : nat) (hp : Heap) : list nat :=
  default [] (streams hp !! stream).

Definition hasKind (hp : Heap) (k : Kind) (t : nat) : bool :=
  bool_decide (kind <$> tracks hp !! t = Some k).

Definition getAudioTracks (stream : nat) (hp : Heap) : list nat :=
  List.filter (hasKind hp AudioKind) (getTracks stream hp).

Definition getVideoTracks (stream : nat) (hp : Heap) : list nat :=
  List.filter (hasKind hp VideoKind) (getTracks stream hp).

(** [ids.forEach((track) => ...)] for a body that only writes the track. *)
Definition forEachTrack (f : Track -> Track) (ids : list nat) (hp : Heap)
    : Heap :=
  {| tracks := foldr (fun t ts => alter f t ts) (tracks hp) ids;
     streams := streams hp;
     nextTrack := nextTrack hp;
     nextStream := nextStream hp |}.

Definition setEnabled (b : bool) (t : Track) : Track :=
  {| kind := kind t; enabled := b; ended := ended t; onended := onended t |}.

(** [track.stop()] *)
Definition stop (t : Track) : Track :=
  {| kind := kind t; enabled := enabled t; ended := true; onended := onended t |}.

Definition setOnended (t : Track) : Track :=
  {| kind := kind t; enabled := enabled t; ended := ended t; onended := true |}.

(** [stream.addTrack(track)]: a track already in the stream is not added
    again. *)
Definition addTrack (stream track : nat) (hp : Heap) : Heap :=
  {| tracks := tracks hp;
     streams :=
       alter (fun ts => if bool_decide (track ∈ ts) then ts else ts ++ [track])
             stream (streams hp);
     nextTrack := nextTrack hp;
     nextStream := nextStream hp |}.

(** The properties the hook is called with. *)
Record Props := {
  roomId : string;
  userId : string;
  initialAudioEnabled : bool;
  initialVideoEnabled : bool;
  userName : string
}.

(** An entry of the [peerConnections] map. *)
Record PeerConnection := { peerId : string; peer : nat }.

(** A [Peer] object as far as the hook looks into it: the options it was
    built with, the kinds of the tracks of its [_senders] ([None] when the
    object has no such field, an inner [None] for a sender without track),
    and whether it has an [addTrack] method. *)
Record PeerObject := {
  remote : string;
  initiator : bool;
  outgoing : option nat;
  _senders : option (list (option Kind));
  hasAddTrack : bool
}.

(** Method calls the hook makes on peers and their senders. *)
Inductive PeerCall :=
| Destroy (peer : nat)
| Signal (peer : nat) (signal_type blob : string)
| ReplaceTrack (peer : nat) (sender : nat) (track : option nat)
| AddTrack (peer : nat) (track : nat) (stream : option nat).

Record Hook := {
  localStream : option nat;
  participants : list Participant.t;
  isMicOn : bool;
  isCameraOn : bool;
  isScreenSharing : bool;
  error : option string;
  isInitializing : bool;
  peerConnections : gmap string PeerConnection;
  screenStream : option nat;
  streamInitAttempts : Z;
  localStreamRef : option nat;
  mounted : bool;
  retryTimeout : option Z;
  healthCheck : bool;
  heap : Heap;
  peers : list PeerObject;
  signalled : list Message;
  peerCalls : list PeerCall
}.

(** Field updates ([{ ...h, field: v }]). *)
Definition set_localStream (v : option nat) (h : Hook) : Hook :=
  Build_Hook v (participants h) (isMicOn h) (isCameraOn h)
    (isScreenSharing h) (error h) (isInitializing h) (peerConnections h)
    (screenStream h) (streamInitAttempts h) (localStreamRef h) (mounted h)
    (retryTimeout h) (healthCheck h) (heap h) (peers h) (signalled h)
    (peerCalls h).
Definition set_participants (v : list Participant.t) (h : Hook) : Hook :=
  Build_Hook (localStream h) v (isMicOn h) (isCameraOn h)
    (isScreenSharing h) (error h) (isInitializing h) (peerConnections h)
    (screenStream h) (streamInitAttempts h) (localStreamRef h) (mounted h)
    (retryTimeout h) (healthCheck h) (heap h) (peers h) (signalled h)
    (peerCalls h).
Definition set_isMicOn (v : bool) (h : Hook) : Hook :=
  Build_Hook (localStream h) (participants h) v (isCameraOn h)
    (isScreenSharing h) (error h) (isInitializing h) (peerConnections h)
    (screenStream h) (streamInitAttempts h) (localStreamRef h) (mounted h)
    (retryTimeout h) (healthCheck h) (heap h) (peers h) (signalled h)
    (peerCalls h).
Definition set_isCameraOn (v : bool) (h : Hook) : Hook :=
  Build_Hook (localStream h) (participants h) (isMicOn h) v
    (isScreenSharing h) (error h) (isInitializing h) (peerConnections h)
    (screenStream h) (streamInitAttempts h) (localStreamRef h) (mounted h)
    (retryTimeout h) (healthCheck h) (heap h) (peers h) (signalled h)
    (peerCalls h).
Definition set_isScreenSharing (v : bool) (h : Hook) : Hook :=
  Build_Hook (localStream h) (participants h) (isMicOn h) (isCameraOn h) v
    (error h) (isInitializing h) (peerConnections h) (screenStream h)
    (streamInitAttempts h) (localStreamRef h) (mounted h) (retryTimeout h)
    (healthCheck h) (heap h) (peers h) (signalled h) (peerCalls h).
Definition set_error (v : option string) (h : Hook) : Hook :=
  Build_Hook (localStream h) (participants h) (isMicOn h) (isCameraOn h)
    (isScreenSharing h) v (isInitializing h) (peerConnections h)
    (screenStream h) (streamInitAttempts h) (localStreamRef h) (mounted h)
    (retryTimeout h) (healthCheck h) (heap h) (peers h) (signalled h)
    (peerCalls h).
Definition set_isInitializing (v : bool) (h : Hook) : Hook :=
  Build_Hook (localStream h) (participants h) (isMicOn h) (isCameraOn h)
    (isScreenSharing h) (error h) v (peerConnections h) (screenStream h)
    (streamInitAttempts h) (localStreamRef h) (mounted h) (retryTimeout h)
    (healthCheck h) (heap h) (peers h) (signalled h) (peerCalls h).
Definition set_peerConnections (v : gmap string PeerConnection) (h : Hook) : Hook :=
  Build_Hook (localStream h) (participants h) (isMicOn h) (isCameraOn h)
    (isScreenSharing h) (error h) (isInitializing h) v (screenStream h)
    (streamInitAttempts h) (localStreamRef h) (mounted h) (retryTimeout h)
    (healthCheck h) (heap h) (peers h) (signalled h) (peerCalls h).
Definition set_screenStream (v : option nat) (h : Hook) : Hook :=
  Build_Hook (localStream h) (participants h) (isMicOn h) (isCameraOn h)
    (isScreenSharing h) (error h) (isInitializing h) (peerConnections h) v
    (streamInitAttempts h) (localStreamRef h) (mounted h) (retryTimeout h)
    (healthCheck h) (heap h) (peers h) (signalled h) (peerCalls h).
Definition set_streamInitAttempts (v : Z) (h : Hook) : Hook :=
  Build_Hook (localStream h) (participants h) (isMicOn h) (isCameraOn h)
    (isScreenSharing h) (error h) (isInitializing h) (peerConnections h)
    (screenStream h) v (localStreamRef h) (mounted h) (retryTimeout h)
    (healthCheck h) (heap h) (peers h) (signalled h) (peerCalls h).
Definition set_localStreamRef (v : option nat) (h : Hook) : Hook :=
  Build_Hook (localStream h) (participants h) (isMicOn h) (isCameraOn h)
    (isScreenSharing h) (error h) (isInitializing h) (peerConnections h)
    (screenStream h) (streamInitAttempts h) v (mounted h) (retryTimeout h)
    (healthCheck h) (heap h) (peers h) (signalled h) (peerCalls h).
Definition set_mounted (v : bool) (h : Hook) : Hook :=
  Build_Hook (localStream h) (participants h) (isMicOn h) (isCameraOn h)
    (isScreenSharing h) (error h) (isInitializing h) (peerConnections h)
    (screenStream h) (streamInitAttempts h) (localStreamRef h) v
    (retryTimeout h) (healthCheck h) (heap h) (peers h) (signalled h)
    (peerCalls h).
Definition set_retryTimeout (v : option Z) (h : Hook) : Hook :=
  Build_Hook (localStream h) (participants h) (isMicOn h) (isCameraOn h)
    (isScreenSharing h) (error h) (isInitializing h) (peerConnections h)
    (screenStream h) (streamInitAttempts h) (localStreamRef h) (mounted h)
    v (healthCheck h) (heap h) (peers h) (signalled h) (peerCalls h).
Definition set_healthCheck (v : bool) (h : Hook) : Hook :=
  Build_Hook (localStream h) (participants h) (isMicOn h) (isCameraOn h)
    (isScreenSharing h) (error h) (isInitializing h) (peerConnections h)
    (screenStream h) (streamInitAttempts h) (localStreamRef h) (mounted h)
    (retryTimeout h) v (heap h) (peers h) (signalled h) (peerCalls h).
Definition set_heap (v : Heap) (h : Hook) : Hook :=
  Build_Hook (localStream h) (participants h) (isMicOn h) (isCameraOn h)
    (isScreenSharing h) (error h) (isInitializing h) (peerConnections h)
    (screenStream h) (streamInitAttempts h) (localStreamRef h) (mounted h)
    (retryTimeout h) (healthCheck h) v (peers h) (signalled h)
    (peerCalls h).
Definition set_peers (v : list PeerObject) (h : Hook) : Hook :=
  Build_Hook (localStream h) (participants h) (isMicOn h) (isCameraOn h)
    (isScreenSharing h) (error h) (isInitializing h) (peerConnections h)
    (screenStream h) (streamInitAttempts h) (localStreamRef h) (mounted h)
    (retryTimeout h) (healthCheck h) (heap h) v (signalled h) (peerCalls h).
Definition set_signalled (v : list Message) (h : Hook) : Hook :=
  Build_Hook (localStream h) (participants h) (isMicOn h) (isCameraOn h)
    (isScreenSharing h) (error h) (isInitializing h) (peerConnections h)
    (screenStream h) (streamInitAttempts h) (localStreamRef h) (mounted h)
    (retryTimeout h) (healthCheck h) (heap h) (peers h) v (peerCalls h).
Definition set_peerCalls (v : list PeerCall) (h : Hook) : Hook :=
  Build_Hook (localStream h) (participants h) (isMicOn h) (isCameraOn h)
    (isScreenSharing h) (error h) (isInitializing h) (peerConnections h)
    (screenStream h) (streamInitAttempts h) (localStreamRef h) (mounted h)
    (retryTimeout h) (healthCheck h) (heap h) (peers h) (signalled h) v.

(** [useState] and [useRef] initial values of a first render. *)
Definition mount (props : Props) : Hook :=
  {| localStream := None; participants := [];
     isMicOn := initialAudioEnabled props;
     isCameraOn := initialVideoEnabled props;
     isScreenSharing := false; error := None; isInitializing := true;
     peerConnections := ∅; screenStream := None; streamInitAttempts := 0;
     localStreamRef := None; mounted := true; retryTimeout := None;
     healthCheck := false; heap := noMedia; peers := [];
     signalled := []; peerCalls := [] |}.

(** A call [sendSignal(roomId, message)] made by the hook; the relay is a
    separate object, so the call is recorded. *)
Definition signal (message : Message) (h : Hook) : Hook :=
  set_signalled (signalled h ++ [message]) h.

Definition call (c : PeerCall) (h : Hook) : Hook :=
  set_peerCalls (peerCalls h ++ [c]) h.

(** [setParticipants((prev) => prev.map((p) => test(p) ? change(p) : p))] *)
Definition mapWhere (test : Participant.t -> bool)
    (change : Participant.t -> Participant.t) (h : Hook) : Hook :=
  set_participants
    (map (fun p => if test p then change p else p) (participants h)) h.

(** [setParticipants((prev) => prev.filter((p) => p.id !== participantId))] *)
Definition dropId (participantId : string) (h : Hook) : Hook :=
  set_participants
    (List.filter
       (fun p => negb (String.eqb (Participant.id p) participantId))
       (participants h)) h.

(** Entries of the local user. *)
Definition currentUsers (h : Hook) : list Participant.t :=
  List.filter Participant.isCurrentUser (participants h).

(** [cleanupStream(stream)] *)
Definition cleanupStream (stream : option nat) (hp : Heap) : Heap :=
  match stream with
  | Some s => forEachTrack stop (getTracks s hp) hp
  | None => hp
  end.

(** [peerConnections.current.forEach(({ peer }) => peer.destroy())]: one
    call for every connection; the [Map] visits them in insertion order,
    the list here has them in the order of their keys. *)
Definition destroyAll (h : Hook) : Hook :=
  set_peerCalls
    (peerCalls h ++
     map (fun kv => Destroy (peer (snd kv))) (map_to_list (peerConnections h)))
    h.

(** What [getDisplayMedia] answers. *)
Inductive DisplayOutcome := Shared (tracks : Capture) | Refused (err : JsError).

(** References handed out so far are below the allocation counters. *)
Definition wfHeap (hp : Heap) : Prop :=
  (forall t, is_Some (tracks hp !! t) -> (t < nextTrack hp)%nat)
  /\ (forall s ids, streams hp !! s = Some ids ->
         (s < nextStream hp)%nat /\ forall t, t ∈ ids -> (t < nextTrack hp)%nat).

(** The audio tracks of stream [s] and their [enabled] flags are the same
    in two heaps. *)
Definition sameAudio (s : nat) (hp hp' : Heap) : Prop :=
  getAudioTracks s hp' = getAudioTracks s hp
  /\ forall t, t ∈ getAudioTracks s hp ->
       enabled <$> tracks hp' !! t = enabled <$> tracks hp !! t.

(** The microphone state is the same wherever it is kept: in the [enabled]
    flag of every audio track of the local stream, in [isMicOn], and in the
    [audioEnabled] of the local entry. *)
Definition micConsistent (h : Hook) : Prop :=
  (forall s t, localStreamRef h = Some s -> t ∈ getAudioTracks s (heap h) ->
     enabled <$> tracks (heap h) !! t = Some (isMicOn h))
  /\ (forall p, p ∈ participants h -> Participant.isCurrentUser p = true ->
        Participant.audioEnabled p = isMicOn h).

(** The local entries of an array all carry [audioEnabled = b]. *)
Definition localAudio (b : bool) (l : list Participant.t) : Prop :=
  forall p, p ∈ l -> Participant.isCurrentUser p = true ->
            Participant.audioEnabled p = b.

Definition wfHook (h : Hook) : Prop :=
  wfHeap (heap h)
  /\ forall s, localStreamRef h = Some s -> (s < nextStream (heap h))%nat.

(** The array has exactly one entry of the local user, and it carries the
    id [uid]. *)
Definition soleLocal (uid : string) (l : list Participant.t) : Prop :=
  length (List.filter Participant.isCurrentUser l) = 1%nat
  /\ forall p, p ∈ l -> Participant.isCurrentUser p = true ->
               Participant.id p = uid.

(** Properties used in the examples. *)
Definition me : Props :=
  {| roomId := "room"; userId := "me"; initialAudioEnabled := true;
     initialVideoEnabled := true; userName := "Me" |}.

End Session.

(** ** The JavaScript hook ([src/hooks/useWebRTC.js]) *)

Module HookJS.
Import Session.

Definition only (i : Z) : Media.Range := {| Media.ideal := i; Media.max := None |}.

(** The second request of [initLocalStream]. *)
Definition lessStrictConstraints : Media.Constraints :=
  {| Media.audio := Media.AudioOn;
     Media.video := Media.VideoBox (only 640) (only 480) (only 30) |}.

(** The acquisition part of [initLocalStream]: two direct requests, then
    [getMediaStream] with options derived from [streamInitAttempts]. *)
Definition acquire (env : Media.Browser) (attempt : Z)
    : Media.Completion * list Media.Event :=
  let '(r, log) := Media.getUserMedia env Media.basicConstraints [] in
  match r with
  | Media.Resolved s => (Media.Fulfilled s, log)
  | Media.Rejected basicErr =>
      let '(r, log) := Media.getUserMedia env lessStrictConstraints log in
      match r with
      | Media.Resolved s => (Media.Fulfilled s, log)
      | Media.Rejected exactErr =>
          let options :=
            {| Media.tryAudioOnly := 1 <? attempt;
               Media.tryVideoOnly := 2 <? attempt;
               Media.retryAttempt := attempt - 1 |} in
          Media.getMediaStream_fuel (Media.budget options) env options log
      end
  end.

(** [initLocalStream] up to its first [await]. *)
Definition initBegin (h : Hook) : Hook :=
  set_streamInitAttempts (streamInitAttempts h + 1) (set_isInitializing true h).

(** The entry built by [setParticipants([...])] in [initLocalStream]. *)
Definition localEntry (props : Props) (stream : nat)
    (hasVideoTracks hasAudioTracks : bool) : Participant.t :=
  {| Participant.id := userId props;
     Participant.name := userName props;
     Participant.videoEnabled := hasVideoTracks && initialVideoEnabled props;
     Participant.audioEnabled := hasAudioTracks && initialAudioEnabled props;
     Participant.isScreenSharing := false;
     Participant.isCurrentUser := true;
     Participant.stream := Some stream;
     Participant.isVideoOff :=
       Some (negb (hasVideoTracks && initialVideoEnabled props));
     Participant.isMuted :=
       Some (negb (hasAudioTracks && initialAudioEnabled props)) |}.

(** [initLocalStream] after the acquisition resolved with a stream. *)
Definition initResolved (props : Props) (capture : Capture) (h : Hook) : Hook :=
  let '(stream, hp) := newStream capture (heap h) in
  let h := set_heap hp h in
  if negb (mounted h) then h
  else
    let h := set_localStreamRef (Some stream) h in
    let h := set_localStream (Some stream) h in
    let h := set_error None h in
    let hasVideoTracks := (0 <? length (getVideoTracks stream (heap h)))%nat in
    let hasAudioTracks := (0 <? length (getAudioTracks stream (heap h)))%nat in
    let h :=
      set_heap (forEachTrack (setEnabled (initialAudioEnabled props))
                  (getAudioTracks stream (heap h)) (heap h)) h in
    let h :=
      set_heap (forEachTrack (setEnabled (initialVideoEnabled props))
                  (getVideoTracks stream (heap h)) (heap h)) h in
    let h :=
      set_participants [localEntry props stream hasVideoTracks hasAudioTracks] h in
    let h := set_isCameraOn (hasVideoTracks && initialVideoEnabled props) h in
    let h := set_isMicOn (hasAudioTracks && initialAudioEnabled props) h in
    set_isInitializing false h.

(** [initLocalStream] after the acquisition threw. *)
Definition initRejected (err : JsError) (h : Hook) : Hook :=
  if negb (mounted h) then h
  else
    let errorMessage :=
      if String.eqb (err_message err) ""
      then "Could not access camera or microphone. Please check permissions."
      else err_message err in
    let h := set_error (Some errorMessage) h in
    let h :=
      if streamInitAttempts h <? 3
      then set_retryTimeout (Some (2 ^ streamInitAttempts h * 1000)) h
      else h in
    set_isInitializing false h.

Definition initLocalStream (props : Props) (env : Media.Browser) (h : Hook)
    : Hook :=
  let h := initBegin h in
  match fst (acquire env (streamInitAttempts h)) with
  | Media.Fulfilled capture => initResolved props capture h
  | Media.Thrown err => initRejected err h
  | Media.Diverged => h
  end.

(** The cleanup function of the initialisation effect. *)
Definition cleanup (h : Hook) : Hook :=
  let h := set_mounted false h in
  let h := set_retryTimeout None h in
  let h :=
    match localStreamRef h with
    | Some s =>
        set_localStreamRef None
          (set_heap (cleanupStream (Some s) (heap h)) h)
    | None => h
    end in
  let h :=
    match screenStream h with
    | Some s =>
        set_screenStream None
          (set_heap (cleanupStream (Some s) (heap h)) h)
    | None => h
    end in
  destroyAll h.

(** A new run of the initialisation effect (first mount, or a changed
    dependency after [cleanup]): fresh [mounted] and [retryTimeout].  Both
    are variables of one run of the effect; the state keeps those of the
    latest run, so what a capture of an earlier run does when it resolves
    after a new run has started is not read off this model. *)
Definition effectStart (h : Hook) : Hook :=
  set_retryTimeout None (set_mounted true h).

Definition muteEntry (newState : bool) (p : Participant.t) : Participant.t :=
  {| Participant.id := Participant.id p;
     Participant.name := Participant.name p;
     Participant.videoEnabled := Participant.videoEnabled p;
     Participant.audioEnabled := newState;
     Participant.isScreenSharing := Participant.isScreenSharing p;
     Participant.isCurrentUser := Participant.isCurrentUser p;
     Participant.stream := Participant.stream p;
     Participant.isVideoOff := Participant.isVideoOff p;
     Participant.isMuted := Some (negb newState) |}.

Definition videoEntry (newState : bool) (p : Participant.t) : Participant.t :=
  {| Participant.id := Participant.id p;
     Participant.name := Participant.name p;
     Participant.videoEnabled := newState;
     Participant.audioEnabled := Participant.audioEnabled p;
     Participant.isScreenSharing := Participant.isScreenSharing p;
     Participant.isCurrentUser := Participant.isCurrentUser p;
     Participant.stream := Participant.stream p;
     Participant.isVideoOff := Some (negb newState);
     Participant.isMuted := Participant.isMuted p |}.

Definition shareEntry (sharing : bool) (stream : option nat)
    (p : Participant.t) : Participant.t :=
  {| Participant.id := Participant.id p;
     Participant.name := Participant.name p;
     Participant.videoEnabled := Participant.videoEnabled p;
     Participant.audioEnabled := Participant.audioEnabled p;
     Participant.isScreenSharing := sharing;
     Participant.isCurrentUser := Participant.isCurrentUser p;
     Participant.stream := stream;
     Participant.isVideoOff := Participant.isVideoOff p;
     Participant.isMuted := Participant.isMuted p |}.

(** [toggleMic] as built by a render that saw [isMicOn = seen]
    ([useCallback] with [isMicOn] among its dependencies). *)
Definition toggleMic_of (seen : bool) (props : Props) (h : Hook) : Hook :=
  match localStreamRef h with
  | Some s =>
      let audioTracks := getAudioTracks s (heap h) in
      if (0 <? length audioTracks)%nat then
        let newState := negb seen in
        let h := set_heap (forEachTrack (setEnabled newState) audioTracks (heap h)) h in
        let h := set_isMicOn newState h in
        let h := mapWhere Participant.isCurrentUser (muteEntry newState) h in
        signal {| type := "audio-state"; senderId := Some (userId props);
                  receiverId := None; payload := AudioEnabled newState |} h
      else h
  | None => h
  end.

(** A call of [toggleMic] through the callback of the latest render. *)
Definition toggleMic (props : Props) (h : Hook) : Hook :=
  toggleMic_of (isMicOn h) props h.

Definition toggleCamera_of (seen : bool) (props : Props) (h : Hook) : Hook :=
  match localStreamRef h with
  | Some s =>
      let videoTracks := getVideoTracks s (heap h) in
      if (0 <? length videoTracks)%nat then
        let newState := negb seen in
        let h := set_heap (forEachTrack (setEnabled newState) videoTracks (heap h)) h in
        let h := set_isCameraOn newState h in
        let h := mapWhere Participant.isCurrentUser (videoEntry newState) h in
        signal {| type := "video-state"; senderId := Some (userId props);
                  receiverId := None; payload := VideoEnabled newState |} h
      else h
  | None => h
  end.

Definition toggleCamera (props : Props) (h : Hook) : Hook :=
  toggleCamera_of (isCameraOn h) props h.

Definition shareFailed : string :=
  "Could not start screen sharing. Please try again.".

(** [toggleScreenShare] as built by a render that saw
    [isScreenSharing = seen]; [display] is what [getDisplayMedia] answers
    when it is asked. *)
Definition toggleScreenShare_of (seen : bool) (display : DisplayOutcome)
    (h : Hook) : Hook :=
  if negb seen then
    match display with
    | Refused err => set_error (Some shareFailed) h
    | Shared capture =>
        let '(stream, hp) := newStream capture (heap h) in
        let h := set_heap hp h in
        let h := set_screenStream (Some stream) h in
        let h :=
          set_heap (forEachTrack (fun t => stop (setEnabled false t))
                      (getAudioTracks stream (heap h)) (heap h)) h in
        let h :=
          mapWhere Participant.isCurrentUser (shareEntry true (Some stream)) h in
        let h := set_isScreenSharing true h in
        match getVideoTracks stream (heap h) with
        | first :: _ => set_heap (forEachTrack setOnended [first] (heap h)) h
        | [] => set_error (Some shareFailed) h
        end
    end
  else
    let h :=
      match screenStream h with
      | Some s =>
          set_screenStream None
            (set_heap (forEachTrack stop (getTracks s (heap h)) (heap h)) h)
      | None => h
      end in
    let h :=
      match localStreamRef h with
      | Some s =>
          mapWhere Participant.isCurrentUser (shareEntry false (localStreamRef h)) h
      | None => h
      end in
    set_isScreenSharing false h.

Definition toggleScreenShare (display : DisplayOutcome) (h : Hook) : Hook :=
  toggleScreenShare_of (isScreenSharing h) display h.

Definition fakeParticipants (fakeStream : option nat) : list Participant.t :=
  [ {| Participant.id := "user1"; Participant.name := "John Doe";
       Participant.videoEnabled := true; Participant.audioEnabled := true;
       Participant.isScreenSharing := false; Participant.isCurrentUser := false;
       Participant.stream := fakeStream;
       Participant.isVideoOff := Some false; Participant.isMuted := Some false |};
    {| Participant.id := "user2"; Participant.name := "Jane Smith";
       Participant.videoEnabled := true; Participant.audioEnabled := false;
       Participant.isScreenSharing := false; Participant.isCurrentUser := false;
       Participant.stream := fakeStream;
       Participant.isVideoOff := Some false; Participant.isMuted := Some true |} ].

(** [simulateOtherParticipants]; [fake] is what its own capture request
    resolved with, [None] when it was rejected. *)
Definition simulateOtherParticipants (fake : option Capture) (h : Hook) : Hook :=
  let '(fakeStream, hp) :=
    match fake with
    | Some capture =>
        let '(s, hp) := newStream capture (heap h) in (Some s, hp)
    | None => (None, heap h)
    end in
  let h := set_heap hp h in
  set_participants
    (match List.find Participant.isCurrentUser (participants h) with
     | Some currentUser => currentUser :: fakeParticipants fakeStream
     | None => fakeParticipants fakeStream
     end) h.

Definition removeParticipant (participantId : string) (h : Hook) : Hook :=
  let h := dropId participantId h in
  match peerConnections h !! participantId with
  | Some peerConnection =>
      set_peerConnections (delete participantId (peerConnections h))
        (call (Destroy (peer peerConnection)) h)
  | None => h
  end.

(** Everything that can happen to a mounted hook, one event at a time.
    Continuations of awaited calls are events of their own, with the
    awaited outcome as argument.  A callback is invoked with the state its
    render saw, which need not be the latest ([seen]): the [onended] handler
    of a screen track keeps the [toggleScreenShare] of the render that
    installed it, and a handler may call the same callback twice. *)
Inductive Event :=
| EffectStart
| InitBegin
| InitResolved (props : Props) (capture : Capture)
| InitRejected (err : JsError)
| Cleanup
| ToggleMic (seen : bool) (props : Props)
| ToggleCamera (seen : bool) (props : Props)
| ToggleScreenShare (seen : bool) (display : DisplayOutcome)
| Simulate (fake : option Capture)
| RemoveParticipant (participantId : string).

Definition react (e : Event) (h : Hook) : Hook :=
  match e with
  | EffectStart => effectStart h
  | InitBegin => initBegin h
  | InitResolved props capture => initResolved props capture h
  | InitRejected err => initRejected err h
  | Cleanup => cleanup h
  | ToggleMic seen props => toggleMic_of seen props h
  | ToggleCamera seen props => toggleCamera_of seen props h
  | ToggleScreenShare seen display => toggleScreenShare_of seen display h
  | Simulate fake => simulateOtherParticipants fake h
  | RemoveParticipant participantId => removeParticipant participantId h
  end.

(** States of a hook mounted with some properties. *)
Inductive Reachable : Hook -> Prop :=
| reach_mount props : Reachable (mount props)
| reach_react e h : Reachable h -> Reachable (react e h).

Fixpoint play (es : list Event) (h : Hook) : Hook :=
  match es with
  | [] => h
  | e :: rest => play rest (react e h)
  end.

(** An event that neither removes the id [uid] nor re-initialises the hook
    for another user. *)
Definition keeps (uid : string) (e : Event) : Prop :=
  match e with
  | RemoveParticipant participantId => participantId <> uid
  | InitResolved props _ => userId props = uid
  | _ => True
  end.

End HookJS.

(** ** The TypeScript hook: the two toggles *)

Module HookTS.
Import Session.

Definition audioEntry (newState : bool) (p : Participant.t) : Participant.t :=
  {| Participant.id := Participant.id p;
     Participant.name := Participant.name p;
     Participant.videoEnabled := Participant.videoEnabled p;
     Participant.audioEnabled := newState;
     Participant.isScreenSharing := Participant.isScreenSharing p;
     Participant.isCurrentUser := Participant.isCurrentUser p;
     Participant.stream := Participant.stream p;
     Participant.isVideoOff := Participant.isVideoOff p;
     Participant.isMuted := Participant.isMuted p |}.

Definition videoEntry (newState : bool) (p : Participant.t) : Participant.t :=
  {| Participant.id := Participant.id p;
     Participant.name := Participant.name p;
     Participant.videoEnabled := newState;
     Participant.audioEnabled := Participant.audioEnabled p;
     Participant.isScreenSharing := Participant.isScreenSharing p;
     Participant.isCurrentUser := Participant.isCurrentUser p;
     Participant.stream := Participant.stream p;
     Participant.isVideoOff := Participant.isVideoOff p;
     Participant.isMuted := Participant.isMuted p |}.

Definition streamEntry (s : option nat) (p : Participant.t) : Participant.t :=
  {| Participant.id := Participant.id p;
     Participant.name := Participant.name p;
     Participant.videoEnabled := Participant.videoEnabled p;
     Participant.audioEnabled := Participant.audioEnabled p;
     Participant.isScreenSharing := Participant.isScreenSharing p;
     Participant.isCurrentUser := Participant.isCurrentUser p;
     Participant.stream := s;
     Participant.isVideoOff := Participant.isVideoOff p;
     Participant.isMuted := Participant.isMuted p |}.

(** The synchronous part of [toggleMic].  The second component is the
    argument of the [getMediaStream] call it starts, if it starts one. *)
Definition toggleMic_of (seen : bool) (h : Hook)
    : Hook * option Media.Options :=
  match localStreamRef h with
  | Some s =>
      let audioTracks := getAudioTracks s (heap h) in
      if (0 <? length audioTracks)%nat then
        let newState := negb seen in
        let h := set_heap (forEachTrack (setEnabled newState) audioTracks (heap h)) h in
        let h := set_isMicOn newState h in
        (mapWhere Participant.isCurrentUser (audioEntry newState) h, None)
      else if negb seen then (h, Some Media.audioOnly)
      else (h, None)
  | None => (h, None)
  end.

Definition toggleMic (h : Hook) : Hook * option Media.Options :=
  toggleMic_of (isMicOn h) h.

(** The [then] continuation of that call. *)
Definition micAcquired (capture : Capture) (h : Hook) : Hook :=
  let '(audioStream, hp) := newStream capture (heap h) in
  let h := set_heap hp h in
  match localStreamRef h with
  | None => h
  | Some local =>
      match getAudioTracks audioStream (heap h) with
      | [] => h
      | audioTrack :: _ =>
          let h := set_heap (addTrack local audioTrack (heap h)) h in
          let h := set_isMicOn true h in
          mapWhere Participant.isCurrentUser
            (fun p => streamEntry (localStreamRef h) (audioEntry true p)) h
      end
  end.

Definition toggleCamera_of (seen : bool) (h : Hook)
    : Hook * option Media.Options :=
  match localStreamRef h with
  | Some s =>
      let videoTracks := getVideoTracks s (heap h) in
      if (0 <? length videoTracks)%nat then
        let newState := negb seen in
        let h := set_heap (forEachTrack (setEnabled newState) videoTracks (heap h)) h in
        let h := set_isCameraOn newState h in
        (mapWhere Participant.isCurrentUser (videoEntry newState) h, None)
      else if negb seen then (h, Some Media.videoOnly)
      else (h, None)
  | None => (h, None)
  end.

Definition toggleCamera (h : Hook) : Hook * option Media.Options :=
  toggleCamera_of (isCameraOn h) h.

Definition cameraAcquired (capture : Capture) (h : Hook) : Hook :=
  let '(videoStream, hp) := newStream capture (heap h) in
  let h := set_heap hp h in
  match localStreamRef h with
  | None => h
  | Some local =>
      match getVideoTracks videoStream (heap h) with
      | [] => h
      | videoTrack :: _ =>
          let h := set_heap (addTrack local videoTrack (heap h)) h in
          let h := set_isCameraOn true h in
          mapWhere Participant.isCurrentUser
            (fun p => streamEntry (localStreamRef h) (videoEntry true p)) h
      end
  end.

End HookTS.

(** ** The enhanced hook (peers, relay callbacks, state-change signals) *)

Module Enhanced.
Import Session.

Definition withAudio (b : bool) (p : Participant.t) : Participant.t :=
  {| Participant.id := Participant.id p;
     Participant.name := Participant.name p;
     Participant.videoEnabled := Participant.videoEnabled p;
     Participant.audioEnabled := b;
     Participant.isScreenSharing := Participant.isScreenSharing p;
     Participant.isCurrentUser := Participant.isCurrentUser p;
     Participant.stream := Participant.stream p;
     Participant.isVideoOff := Participant.isVideoOff p;
     Participant.isMuted := Participant.isMuted p |}.

Definition withVideo (b : bool) (p : Participant.t) : Participant.t :=
  {| Participant.id := Participant.id p;
     Participant.name := Participant.name p;
     Participant.videoEnabled := b;
     Participant.audioEnabled := Participant.audioEnabled p;
     Participant.isScreenSharing := Participant.isScreenSharing p;
     Participant.isCurrentUser := Participant.isCurrentUser p;
     Participant.stream := Participant.stream p;
     Participant.isVideoOff := Participant.isVideoOff p;
     Participant.isMuted := Participant.isMuted p |}.

Definition withSharing (b : bool) (p : Participant.t) : Participant.t :=
  {| Participant.id := Participant.id p;
     Participant.name := Participant.name p;
     Participant.videoEnabled := Participant.videoEnabled p;
     Participant.audioEnabled := Participant.audioEnabled p;
     Participant.isScreenSharing := b;
     Participant.isCurrentUser := Participant.isCurrentUser p;
     Participant.stream := Participant.stream p;
     Participant.isVideoOff := Participant.isVideoOff p;
     Participant.isMuted := Participant.isMuted p |}.

Definition withStream (s : option nat) (p : Participant.t) : Participant.t :=
  {| Participant.id := Participant.id p;
     Participant.name := Participant.name p;
     Participant.videoEnabled := Participant.videoEnabled p;
     Participant.audioEnabled := Participant.audioEnabled p;
     Participant.isScreenSharing := Participant.isScreenSharing p;
     Participant.isCurrentUser := Participant.isCurrentUser p;
     Participant.stream := s;
     Participant.isVideoOff := Participant.isVideoOff p;
     Participant.isMuted := Participant.isMuted p |}.

Definition withName (n : string) (p : Participant.t) : Participant.t :=
  {| Participant.id := Participant.id p;
     Participant.name := n;
     Participant.videoEnabled := Participant.videoEnabled p;
     Participant.audioEnabled := Participant.audioEnabled p;
     Participant.isScreenSharing := Participant.isScreenSharing p;
     Participant.isCurrentUser := Participant.isCurrentUser p;
     Participant.stream := Participant.stream p;
     Participant.isVideoOff := Participant.isVideoOff p;
     Participant.isMuted := Participant.isMuted p |}.

Definition hasId (i : string) (p : Participant.t) : bool :=
  String.eqb (Participant.id p) i.

Definition initBegin (h : Hook) : Hook :=
  set_streamInitAttempts (streamInitAttempts h + 1) (set_isInitializing true h).

Definition localEntry (props : Props) (stream : nat)
    (hasVideoTracks hasAudioTracks : bool) : Participant.t :=
  {| Participant.id := userId props;
     Participant.name := userName props;
     Participant.videoEnabled := hasVideoTracks && initialVideoEnabled props;
     Participant.audioEnabled := hasAudioTracks && initialAudioEnabled props;
     Participant.isScreenSharing := false;
     Participant.isCurrentUser := true;
     Participant.stream := Some stream;
     Participant.isVideoOff := None;
     Participant.isMuted := None |}.

(** [initLocalStream] after the acquisition resolved; it also starts the
    ten-second health check. *)
Definition initResolved (props : Props) (capture : Capture) (h : Hook) : Hook :=
  let '(stream, hp) := newStream capture (heap h) in
  let h := set_heap hp h in
  if negb (mounted h) then h
  else
    let h := set_localStreamRef (Some stream) h in
    let h := set_localStream (Some stream) h in
    let h := set_error None h in
    let hasVideoTracks := (0 <? length (getVideoTracks stream (heap h)))%nat in
    let hasAudioTracks := (0 <? length (getAudioTracks stream (heap h)))%nat in
    let h :=
      set_participants [localEntry props stream hasVideoTracks hasAudioTracks] h in
    let h := set_isCameraOn hasVideoTracks h in
    let h := set_isMicOn hasAudioTracks h in
    let h := set_healthCheck true h in
    set_isInitializing false h.

Definition initRejected (err : JsError) (h : Hook) : Hook :=
  if negb (mounted h) then h
  else
    let errorMessage :=
      if String.eqb (err_message err) ""
      then "Could not access camera or microphone. Please check permissions."
      else err_message err in
    let h := set_error (Some errorMessage) h in
    let h :=
      if streamInitAttempts h <? 3
      then set_retryTimeout (Some (2 ^ streamInitAttempts h * 1000)) h
      else h in
    set_isInitializing false h.

Definition isEnded (hp : Heap) (t : nat) : bool :=
  bool_decide (ended <$> tracks hp !! t = Some true).

(** One tick of the health check; it sees the [isCameraOn] and [isMicOn] of
    the render whose effect started it.  The re-initialisation it schedules
    is a later [initBegin]. *)
Definition healthCheck_of (seenCamera seenMic : bool) (h : Hook) : Hook :=
  match localStreamRef h with
  | Some s =>
      let needsReinitialization :=
        (existsb (isEnded (heap h)) (getVideoTracks s (heap h)) && seenCamera)
        || (existsb (isEnded (heap h)) (getAudioTracks s (heap h)) && seenMic) in
      if needsReinitialization then
        set_localStreamRef None
          (set_heap (cleanupStream (Some s) (heap h)) h)
      else h
  | None => h
  end.

Definition cleanup (h : Hook) : Hook :=
  let h := set_mounted false h in
  let h := set_retryTimeout None h in
  let h :=
    match localStreamRef h with
    | Some s =>
        set_localStreamRef None
          (set_heap (cleanupStream (Some s) (heap h)) h)
    | None => h
    end in
  let h :=
    match screenStream h with
    | Some s =>
        set_screenStream None
          (set_heap (cleanupStream (Some s) (heap h)) h)
    | None => h
    end in
  destroyAll h.

Definition effectStart (h : Hook) : Hook :=
  set_retryTimeout None (set_mounted true h).

(** The connections of the map, each once.  [forEach] visits them in
    insertion order, which the map of the model does not keep: the list has
    them in the order of their keys, and what is stated about the calls of
    a loop over the connections is stated up to the order of the visits. *)
Definition connections (h : Hook) : list PeerConnection :=
  map snd (map_to_list (peerConnections h)).

(** [peer._senders?.find((s) => s.track?.kind === k)]: the index of the
    sender found. *)
Fixpoint findSender (k : Kind) (senders : list (option Kind)) (i : nat)
    : option nat :=
  match senders with
  | [] => None
  | s :: rest =>
      if bool_decide (s = Some k) then Some i else findSender k rest (S i)
  end.

Definition senderOf (k : Kind) (h : Hook) (c : PeerConnection) : option nat :=
  match peers h !! peer c with
  | Some o =>
      match _senders o with
      | Some senders => findSender k senders 0
      | None => None
      end
  | None => None
  end.

(** The calls of the loop that hands a newly acquired track to every peer:
    replace the track of the matching sender, else [peer.addTrack] when the
    method exists. *)
Definition offerTrack (k : Kind) (track : nat) (h : Hook)
    (c : PeerConnection) : list PeerCall :=
  match senderOf k h c with
  | Some i => [ReplaceTrack (peer c) i (Some track)]
  | None =>
      match peers h !! peer c with
      | Some o =>
          if hasAddTrack o then [AddTrack (peer c) track (localStreamRef h)]
          else []
      | None => []
      end
  end.

(** The calls of the loops that swap the outgoing video track. *)
Definition swapVideo (track : option nat) (needTrack : bool) (h : Hook)
    (c : PeerConnection) : list PeerCall :=
  match senderOf VideoKind h c with
  | Some i =>
      if needTrack && negb (bool_decide (is_Some track)) then []
      else [ReplaceTrack (peer c) i track]
  | None => []
  end.

Definition calls (cs : list PeerCall) (h : Hook) : Hook :=
  set_peerCalls (peerCalls h ++ cs) h.

(** Where the [try] block of an acquire-and-add continuation throws, if it
    does: at [addTrack] on the local stream, or at the call made on the
    [n]-th connection visited. *)
Inductive Fault := NoFault | StreamFault | PeerFault (n : nat).

(** The synchronous part of [toggleMic].  The second component is the
    argument of the [getMediaStream] call it starts, if it starts one. *)
Definition toggleMic_of (seen : bool) (props : Props) (h : Hook)
    : Hook * option Media.Options :=
  match localStreamRef h with
  | Some s =>
      let audioTracks := getAudioTracks s (heap h) in
      if (0 <? length audioTracks)%nat then
        let newState := negb seen in
        let h := set_heap (forEachTrack (setEnabled newState) audioTracks (heap h)) h in
        let h := set_isMicOn newState h in
        let h := mapWhere Participant.isCurrentUser (withAudio newState) h in
        (signal {| type := "audio-state"; senderId := Some (userId props);
                   receiverId := None; payload := AudioEnabled newState |} h,
         None)
      else if negb seen then (h, Some Media.audioOnly)
      else (h, None)
  | None => (h, None)
  end.

Definition toggleMic (props : Props) (h : Hook) : Hook * option Media.Options :=
  toggleMic_of (isMicOn h) props h.

(** The [then] continuation of the acquisition started by [toggleMic]. *)
Definition micAcquired (props : Props) (capture : Capture) (fault : Fault)
    (h : Hook) : Hook :=
  let '(audioStream, hp) := newStream capture (heap h) in
  let h := set_heap hp h in
  match localStreamRef h with
  | None => h
  | Some local =>
      match getAudioTracks audioStream (heap h) with
      | [] => h
      | audioTrack :: _ =>
          let announce :=
            signal {| type := "audio-state"; senderId := Some (userId props);
                      receiverId := None; payload := AudioEnabled true |} in
          let fallback h :=
            let h :=
              set_heap (forEachTrack stop (getVideoTracks audioStream (heap h))
                          (heap h)) h in
            let h :=
              match localStreamRef h with
              | Some cur =>
                  set_heap
                    (foldl (fun hp videoTrack => addTrack audioStream videoTrack hp)
                           (heap h) (getVideoTracks cur (heap h))) h
              | None => h
              end in
            let h := set_localStreamRef (Some audioStream) h in
            let h := set_localStream (Some audioStream) h in
            let h := set_isMicOn true h in
            let h :=
              mapWhere Participant.isCurrentUser
                (fun p => withStream (Some audioStream) (withAudio true p)) h in
            announce h in
          match fault with
          | StreamFault => fallback h
          | PeerFault n =>
              let h := set_heap (addTrack local audioTrack (heap h)) h in
              let h :=
                calls (concat (map (offerTrack AudioKind audioTrack h)
                                 (take (S n) (connections h)))) h in
              fallback h
          | NoFault =>
              let h := set_heap (addTrack local audioTrack (heap h)) h in
              let h :=
                calls (concat (map (offerTrack AudioKind audioTrack h)
                                 (connections h))) h in
              let h := set_isMicOn true h in
              let h :=
                mapWhere Participant.isCurrentUser
                  (fun p => withStream (localStreamRef h) (withAudio true p)) h in
              announce h
          end
      end
  end.

Definition toggleCamera_of (seen : bool) (props : Props) (h : Hook)
    : Hook * option Media.Options :=
  match localStreamRef h with
  | Some s =>
      let videoTracks := getVideoTracks s (heap h) in
      if (0 <? length videoTracks)%nat then
        let newState := negb seen in
        let h := set_heap (forEachTrack (setEnabled newState) videoTracks (heap h)) h in
        let h := set_isCameraOn newState h in
        let h := mapWhere Participant.isCurrentUser (withVideo newState) h in
        (signal {| type := "video-state"; senderId := Some (userId props);
                   receiverId := None; payload := VideoEnabled newState |} h,
         None)
      else if negb seen then (h, Some Media.videoOnly)
      else (h, None)
  | None => (h, None)
  end.

Definition toggleCamera (props : Props) (h : Hook) : Hook * option Media.Options :=
  toggleCamera_of (isCameraOn h) props h.

Definition cameraAcquired (props : Props) (capture : Capture) (fault : Fault)
    (h : Hook) : Hook :=
  let '(videoStream, hp) := newStream capture (heap h) in
  let h := set_heap hp h in
  match localStreamRef h with
  | None => h
  | Some local =>
      match getVideoTracks videoStream (heap h) with
      | [] => h
      | videoTrack :: _ =>
          let announce :=
            signal {| type := "video-state"; senderId := Some (userId props);
                      receiverId := None; payload := VideoEnabled true |} in
          let fallback h :=
            let h :=
              set_heap (forEachTrack stop (getAudioTracks videoStream (heap h))
                          (heap h)) h in
            let h :=
              match localStreamRef h with
              | Some cur =>
                  set_heap
                    (foldl (fun hp audioTrack => addTrack videoStream audioTrack hp)
                           (heap h) (getAudioTracks cur (heap h))) h
              | None => h
              end in
            let h := set_localStreamRef (Some videoStream) h in
            let h := set_localStream (Some videoStream) h in
            let h := set_isCameraOn true h in
            let h :=
              mapWhere Participant.isCurrentUser
                (fun p => withStream (Some videoStream) (withVideo true p)) h in
            announce h in
          match fault with
          | StreamFault => fallback h
          | PeerFault n =>
              let h := set_heap (addTrack local videoTrack (heap h)) h in
              let h :=
                calls (concat (map (offerTrack VideoKind videoTrack h)
                                 (take (S n) (connections h)))) h in
              fallback h
          | NoFault =>
              let h := set_heap (addTrack local videoTrack (heap h)) h in
              let h :=
                calls (concat (map (offerTrack VideoKind videoTrack h)
                                 (connections h))) h in
              let h := set_isCameraOn true h in
              let h :=
                mapWhere Participant.isCurrentUser
                  (fun p => withStream (localStreamRef h) (withVideo true p)) h in
              announce h
          end
      end
  end.

Definition shareFailed : string :=
  "Could not start screen sharing. Please try again.".

Definition toggleScreenShare_of (seen : bool) (props : Props)
    (display : DisplayOutcome) (h : Hook) : Hook :=
  if negb seen then
    match display with
    | Refused err => set_error (Some shareFailed) h
    | Shared capture =>
        let '(stream, hp) := newStream capture (heap h) in
        let h := set_heap hp h in
        let h := set_screenStream (Some stream) h in
        let videoTrack := head (getVideoTracks stream (heap h)) in
        let h :=
          set_heap (forEachTrack (fun t => stop (setEnabled false t))
                      (getAudioTracks stream (heap h)) (heap h)) h in
        let h :=
          calls (concat (map (swapVideo videoTrack false h) (connections h))) h in
        let h :=
          signal {| type := "screen-share-state"; senderId := Some (userId props);
                    receiverId := None; payload := ScreenSharing true |} h in
        let h :=
          mapWhere Participant.isCurrentUser
            (fun p => withStream (Some stream) (withSharing true p)) h in
        let h := set_isScreenSharing true h in
        match getVideoTracks stream (heap h) with
        | first :: _ => set_heap (forEachTrack setOnended [first] (heap h)) h
        | [] => set_error (Some shareFailed) h
        end
    end
  else
    let h :=
      match screenStream h with
      | Some s =>
          set_screenStream None
            (set_heap (forEachTrack stop (getTracks s (heap h)) (heap h)) h)
      | None => h
      end in
    let h :=
      match localStreamRef h with
      | Some s =>
          let videoTrack := head (getVideoTracks s (heap h)) in
          let h :=
            calls (concat (map (swapVideo videoTrack true h) (connections h))) h in
          mapWhere Participant.isCurrentUser
            (fun p => withStream (localStreamRef h) (withSharing false p)) h
      | None => h
      end in
    let h := set_isScreenSharing false h in
    signal {| type := "screen-share-state"; senderId := Some (userId props);
              receiverId := None; payload := ScreenSharing false |} h.

Definition toggleScreenShare (props : Props) (display : DisplayOutcome)
    (h : Hook) : Hook :=
  toggleScreenShare_of (isScreenSharing h) props display h.

(** What the peer library answers to [new Peer(...)], as far as the hook
    looks into the object. *)
Record PeerShape := {
  shape_senders : option (list (option Kind));
  shape_addTrack : bool
}.

(** [createPeer(peerId, initiator, stream, incomingSignal)] *)
Definition createPeer (shape : PeerShape) (peerId : string) (initiator : bool)
    (stream : option nat) (incomingSignal : option (string * string))
    (h : Hook) : Hook :=
  let ref := length (peers h) in
  let h :=
    set_peers (peers h ++ [ {| remote := peerId; initiator := initiator;
                               outgoing := stream;
                               _senders := shape_senders shape;
                               hasAddTrack := shape_addTrack shape |} ]) h in
  let h :=
    match incomingSignal with
    | Some (t, b) => if negb initiator then call (Signal ref t b) h else h
    | None => h
    end in
  set_peerConnections
    (<[peerId := {| peerId := peerId; peer := ref |}]> (peerConnections h)) h.

(** The callback registered by the connection effect.  All senders in the
    repository set [senderId]; a message without one, for which the code
    would file a peer under the key [undefined], is left alone here. *)
Definition signalCallback (props : Props) (shape : PeerShape) (message : Message)
    (h : Hook) : Hook :=
  match senderId message with
  | None => h
  | Some sender =>
      if String.eqb (type message) "new-peer" then
        if negb (String.eqb sender (userId props))
        then createPeer shape sender true (localStreamRef h) None h
        else h
      else if String.eqb (type message) "signal" then
        if bool_decide (receiverId message = Some (userId props)) then
          match payload message with
          | SignalData t b =>
              match peerConnections h !! sender with
              | Some peerConnection => call (Signal (peer peerConnection) t b) h
              | None =>
                  if String.eqb t "offer"
                  then createPeer shape sender false (localStreamRef h) (Some (t, b)) h
                  else h
              end
          | _ => h
          end
        else h
      else h
  end.

(** [peer.on("signal", ...)] of the peer created for [peerId]. *)
Definition onSignal (props : Props) (peerId : string) (t b : string)
    (h : Hook) : Hook :=
  signal {| type := "signal"; senderId := Some (userId props);
            receiverId := Some peerId; payload := SignalData t b |} h.

(** The entry of a peer seen for the first time.  Its name takes the first
    five characters of the id, counted in bytes here and in UTF-16 units by
    [substring]: the same for the ASCII ids the hooks generate. *)
Definition remoteEntry (peerId : string) (remoteStream : nat) : Participant.t :=
  {| Participant.id := peerId;
     Participant.name := "Peer " ++ String.substring 0 5 peerId;
     Participant.videoEnabled := true;
     Participant.audioEnabled := true;
     Participant.isScreenSharing := false;
     Participant.isCurrentUser := false;
     Participant.stream := Some remoteStream;
     Participant.isVideoOff := None;
     Participant.isMuted := None |}.

(** [peer.on("stream", ...)] *)
Definition onStream (peerId : string) (capture : Capture) (h : Hook) : Hook :=
  let '(remoteStream, hp) := newStream capture (heap h) in
  let h := set_heap hp h in
  if existsb (hasId peerId) (participants h) then
    mapWhere (hasId peerId)
      (fun p => withAudio true (withVideo true (withStream (Some remoteStream) p))) h
  else
    set_participants (participants h ++ [remoteEntry peerId remoteStream]) h.

(** [peer.on("close", ...)] *)
Definition onClose (peerId : string) (h : Hook) : Hook :=
  dropId peerId
    (set_peerConnections (delete peerId (peerConnections h)) h).

(** [peer.on("error", ...)] *)
Definition onError (peerId : string) (err : JsError) (h : Hook) : Hook :=
  dropId peerId
    (set_peerConnections (delete peerId (peerConnections h)) h).

Definition removeParticipant (props : Props) (participantId : string)
    (h : Hook) : Hook :=
  let h :=
    signal {| type := "remove-participant"; senderId := Some (userId props);
              receiverId := None; payload := RemovedId participantId |} h in
  let h := dropId participantId h in
  match peerConnections h !! participantId with
  | Some peerConnection =>
      set_peerConnections (delete participantId (peerConnections h))
        (call (Destroy (peer peerConnection)) h)
  | None => h
  end.

(** [message.audioEnabled] and the like: a field that is not there reads as
    [undefined], which is falsy. *)
Definition audioField (m : Message) : bool :=
  match payload m with AudioEnabled b => b | _ => false end.
Definition videoField (m : Message) : bool :=
  match payload m with VideoEnabled b => b | _ => false end.
Definition sharingField (m : Message) : bool :=
  match payload m with ScreenSharing b => b | _ => false end.
Definition nameField (m : Message) : string :=
  match payload m with NewName n => n | _ => "" end.
Definition removedField (m : Message) : option string :=
  match payload m with RemovedId i => Some i | _ => None end.

Definition senderIs (m : Message) (p : Participant.t) : bool :=
  bool_decide (Some (Participant.id p) = senderId m).

(** The callback registered by the last effect; [now] is the [Date.now()]
    of a [pong]. *)
Definition handleSignals (props : Props) (now : Z) (message : Message)
    (h : Hook) : Hook :=
  if String.eqb (type message) "remove-participant"
     && bool_decide (removedField message = Some (userId props)) then
    set_peerConnections ∅ (destroyAll h)
  else if String.eqb (type message) "audio-state" && truthy (senderId message) then
    mapWhere (senderIs message) (withAudio (audioField message)) h
  else if String.eqb (type message) "video-state" && truthy (senderId message) then
    mapWhere (senderIs message) (withVideo (videoField message)) h
  else if String.eqb (type message) "screen-share-state"
          && truthy (senderId message) then
    mapWhere (senderIs message) (withSharing (sharingField message)) h
  else if String.eqb (type message) "name-update" && truthy (senderId message) then
    mapWhere (senderIs message) (withName (nameField message)) h
  else if String.eqb (type message) "ping" then
    signal {| type := "pong"; senderId := Some (userId props);
              receiverId := senderId message; payload := Timestamp now |} h
  else h.

(** The messages the two signaling effects send when they start, and the
    keep-alive. *)
Definition announce (props : Props) (h : Hook) : Hook :=
  signal {| type := "new-peer"; senderId := Some (userId props);
            receiverId := None; payload := InRoom (roomId props) |} h.

Definition nameUpdate (props : Props) (h : Hook) : Hook :=
  signal {| type := "name-update"; senderId := Some (userId props);
            receiverId := None; payload := NewName (userName props) |} h.

Definition ping (props : Props) (now : Z) (h : Hook) : Hook :=
  signal {| type := "ping"; senderId := Some (userId props);
            receiverId := None; payload := Timestamp now |} h.

(** The cleanup of the connection effect, after [leaveSignaling()]. *)
Definition disconnect (h : Hook) : Hook :=
  set_peerConnections ∅ (destroyAll h).

(** Events of a session run with fixed properties. *)
Inductive Event :=
| EffectStart
| InitBegin
| InitResolved (capture : Capture)
| InitRejected (err : JsError)
| HealthCheck (seenCamera seenMic : bool)
| Cleanup
| ToggleMic
| MicAcquired (capture : Capture) (fault : Fault)
| ToggleCamera
| CameraAcquired (capture : Capture) (fault : Fault)
| ToggleScreenShare (seen : bool) (display : DisplayOutcome)
| RemoveParticipant (participantId : string)
| Announce
| NameUpdate
| Ping (now : Z)
| Disconnect
| SignalCallback (shape : PeerShape) (message : Message)
| HandleSignals (now : Z) (message : Message)
| PeerSignal (peerId : string) (signal_type blob : string)
| PeerStream (peerId : string) (capture : Capture)
| PeerClose (peerId : string)
| PeerError (peerId : string) (err : JsError).

Definition react (props : Props) (e : Event) (h : Hook) : Hook :=
  match e with
  | EffectStart => effectStart h
  | InitBegin => initBegin h
  | InitResolved capture => initResolved props capture h
  | InitRejected err => initRejected err h
  | HealthCheck seenCamera seenMic => healthCheck_of seenCamera seenMic h
  | Cleanup => cleanup h
  | ToggleMic => fst (toggleMic props h)
  | MicAcquired capture fault => micAcquired props capture fault h
  | ToggleCamera => fst (toggleCamera props h)
  | CameraAcquired capture fault => cameraAcquired props capture fault h
  | ToggleScreenShare seen display => toggleScreenShare_of seen props display h
  | RemoveParticipant participantId => removeParticipant props participantId h
  | Announce => announce props h
  | NameUpdate => nameUpdate props h
  | Ping now => ping props now h
  | Disconnect => disconnect h
  | SignalCallback shape message => signalCallback props shape message h
  | HandleSignals now message => handleSignals props now message h
  | PeerSignal peerId t b => onSignal props peerId t b h
  | PeerStream peerId capture => onStream peerId capture h
  | PeerClose peerId => onClose peerId h
  | PeerError peerId err => onError peerId err h
  end.

(** The participant ids an event removes from the list. *)
Definition removes (e : Event) : option string :=
  match e with
  | RemoveParticipant participantId => Some participantId
  | PeerClose peerId => Some peerId
  | PeerError peerId _ => Some peerId
  | _ => None
  end.

Fixpoint play (props : Props) (es : list Event) (h : Hook) : Hook :=
  match es with
  | [] => h
  | e :: rest => play props rest (react props e h)
  end.

End Enhanced.
(** ** What the relay state and the capture errors are asked about *)

Module RelayState.
Import Relay.

(** Every message waiting in a queue names a receiver. *)
Definition addressed (st : State) : Prop :=
  forall roomId l q,
    PENDING_MESSAGES st !! roomId = Some l -> q ∈ l ->
    truthy (receiverId (queued q)) = true.

(** What a callback was handed, read off a delivery: a queued message goes
    to the callback its [receiverId] names. *)
Definition forReceiver (d : Delivery) : Prop :=
  match packet d with
  | Held q =>
      truthy (receiverId (queued q)) = true
      /\ receiverId (queued q) = cb_senderId (to_cb d)
  | Live _ => True
  end.

(** A live delivery of [m] in [roomId] that obeys the routing rules: the
    callback is registered in the room, is not the sender's, and is the
    receiver's when the message names one. *)
Definition routed (roomId : string) (m : Message) (st : State)
    (d : Delivery) : Prop :=
  in_room d = roomId /\ packet d = Live m
  /\ to_cb d ∈ registered roomId st
  /\ senderId m <> cb_senderId (to_cb d)
  /\ (truthy (receiverId m) = true -> receiverId m = cb_senderId (to_cb d)).

End RelayState.

Module MediaErrors.
Import Media.

(** The error names of a refused permission and of a missing device. *)
Definition denied (err : JsError) : bool :=
  name_is err "NotAllowedError" || name_is err "PermissionDeniedError".

Definition notFound (err : JsError) : bool :=
  name_is err "NotFoundError" || name_is err "DevicesNotFoundError".

Definition deniedMessage : string :=
  "Camera or microphone access was denied. Please allow access in your browser settings.".

Definition inUseMessage : string :=
  "Your camera or microphone is already in use by another application.".

End MediaErrors.

(** ** Media acquisition in the enhanced and in the TypeScript hook *)

(** The constraint objects of these two hooks carry more settings than those
    of the JavaScript hook. *)
Module Tuned.

(** [{ ideal }], [{ ideal, max }] and [{ exact }]. *)
Inductive Bound := Ideal (i : Z) | IdealMax (i m : Z) | Exact (e : Z).

Record AudioSettings := {
  echoCancellation : bool;
  noiseSuppression : bool;
  autoGainControl : bool;
  channelCount : option Bound;
  sampleRate : option Bound
}.

Record VideoSettings := {
  width : Bound;
  height : Bound;
  frameRate : Bound;
  facingMode : option string
}.

Inductive AudioConstraint :=
| AudioOff
| AudioOn
| AudioWith (settings : AudioSettings).

Inductive VideoConstraint :=
| VideoOff
| VideoOn
| VideoWith (settings : VideoSettings).

Record Constraints := { audio : AudioConstraint; video : VideoConstraint }.

#[global] Instance Bound_eq_dec : EqDecision Bound.
Proof. solve_decision. Defined.
#[global] Instance AudioSettings_eq_dec : EqDecision AudioSettings.
Proof. solve_decision. Defined.
#[global] Instance VideoSettings_eq_dec : EqDecision VideoSettings.
Proof. solve_decision. Defined.
#[global] Instance AudioConstraint_eq_dec : EqDecision AudioConstraint.
Proof. solve_decision. Defined.
#[global] Instance VideoConstraint_eq_dec : EqDecision VideoConstraint.
Proof. solve_decision. Defined.
#[global] Instance Constraints_eq_dec : EqDecision Constraints.
Proof. solve_decision. Defined.

Definition Device := nat -> Constraints -> Media.Outcome.

Record Browser := { supported : bool; strict : bool; device : Device }.

(** What a run does, in order: a call of [getMediaStream] is entered, the
    device is asked, [optimizeMediaTracks] is run on a stream. *)
Inductive Event :=
| Entered (options : Media.Options)
| Requested (constraints : Constraints)
| Optimized (stream : Capture).

Definition requests (log : list Event) : list Constraints :=
  omap (fun e => match e with Requested c => Some c | _ => None end) log.

Definition entries (log : list Event) : list Media.Options :=
  omap (fun e => match e with Entered o => Some o | _ => None end) log.

Definition getUserMedia (env : Browser) (constraints : Constraints)
    (log : list Event) : Media.Outcome * list Event :=
  (device env (length (requests log)) constraints,
   log ++ [Requested constraints]).

(** [await optimizeMediaTracks(stream)]: every [applyConstraints] call sits
    in a [try] of its own, so the function always returns; what it changes
    are track settings the hook never reads. *)
Definition optimizeMediaTracks (stream : Capture) (log : list Event)
    : list Event :=
  log ++ [Optimized stream].

Definition alwaysFails (env : Browser) (p : JsError -> bool) : Prop :=
  forall n c, exists err, device env n c = Media.Rejected err /\ p err = true.

Definition busyDevice : Device :=
  fun _ _ => Media.Rejected {| err_name := "NotReadableError"; err_message := "" |}.

Definition browserWith (dev : Device) : Browser :=
  {| supported := true; strict := true; device := dev |}.

End Tuned.

(** [getMediaStream] of the enhanced hook.  Every value caught here is an
    [Error] object (a rejection of [getUserMedia], or the [ReferenceError]
    of the assignment to the out-of-scope [stream]), so [err instanceof
    Error] holds throughout. *)
Module MediaEnhanced.
Import Media Tuned.

Definition audioConstraints : AudioSettings :=
  {| echoCancellation := true; noiseSuppression := true;
     autoGainControl := true;
     channelCount := Some (Ideal 1); sampleRate := Some (Ideal 16000) |}.

Definition videoConstraints : VideoSettings :=
  {| width := IdealMax 640 1280; height := IdealMax 480 720;
     frameRate := IdealMax 24 30; facingMode := Some "user" |}.

Definition lowerVideoConstraints : VideoSettings :=
  {| width := IdealMax 320 640; height := IdealMax 240 480;
     frameRate := IdealMax 15 24; facingMode := None |}.

Definition audioOnlyRequest : Constraints :=
  {| audio := AudioWith audioConstraints; video := VideoOff |}.

Definition videoOnlyRequest : Constraints :=
  {| audio := AudioOff; video := VideoWith videoConstraints |}.

Definition basicRequest : Constraints :=
  {| audio := AudioOn; video := VideoOn |}.

Definition detailedRequest : Constraints :=
  {| audio := AudioWith audioConstraints; video := VideoWith videoConstraints |}.

Definition lowerQualityRequest : Constraints :=
  {| audio := AudioWith audioConstraints;
     video := VideoWith lowerVideoConstraints |}.

Fixpoint getMediaStream_fuel (fuel : nat) (env : Browser)
    (options : Options) (log : list Event) : Completion * list Event :=
  match fuel with
  | O => (Diverged, log)
  | S fuel' =>
    let log := log ++ [Entered options] in
    let again o l := getMediaStream_fuel fuel' env o l in
    let audioNext :=
      {| tryAudioOnly := true; tryVideoOnly := false;
         retryAttempt := retryAttempt options + 1 |} in
    let videoNext :=
      {| tryAudioOnly := false; tryVideoOnly := true;
         retryAttempt := retryAttempt options + 1 |} in
    if negb (supported env) then
      (Thrown (Error "Your browser doesn't support video calls. Please try a different browser like Chrome or Firefox."), log)
    else if 3 <? retryAttempt options then
      (Thrown (Error "Maximum retry attempts reached. Please check your device permissions."), log)
    else
      let '(flow, log) :=
        if tryAudioOnly options then
          let '(r, log) := getUserMedia env audioOnlyRequest log in
          (match r with Resolved s => Normal s | Rejected e => Throw e end, log)
        else if tryVideoOnly options then
          let '(r, log) := getUserMedia env videoOnlyRequest log in
          (match r with Resolved s => Normal s | Rejected e => Throw e end, log)
        else
          let '(r, log) := getUserMedia env basicRequest log in
          match r with
          | Resolved s => (Normal s, log)
          | Rejected basicErr =>
              let '(r, log) := getUserMedia env detailedRequest log in
              match r with
              | Resolved s => (Normal s, log)
              | Rejected err =>
                  let '(c, log) := again audioNext log in (Return c, log)
              end
          end in
      match flow with
      | Normal stream => (Fulfilled stream, optimizeMediaTracks stream log)
      | Return c => (c, log)
      | Throw err =>
          if name_is err "NotAllowedError" || name_is err "PermissionDeniedError" then
            (Thrown (Error "Camera or microphone access was denied. Please allow access in your browser settings."), log)
          else if name_is err "NotFoundError" || name_is err "DevicesNotFoundError" then
            (Thrown (Error "No camera or microphone found. Please connect a device and try again."), log)
          else if name_is err "NotReadableError" || name_is err "TrackStartError" then
            if negb (tryAudioOnly options) && negb (tryVideoOnly options) then
              again audioNext log
            else if tryAudioOnly options then
              again videoNext log
            else
              (Thrown (Error "Your camera or microphone is already in use by another application."), log)
          else if name_is err "OverconstrainedError" then
            let '(r, log) := getUserMedia env lowerQualityRequest log in
            match r with
            | Resolved s =>
                if strict env then again audioNext log
                else (Fulfilled s, optimizeMediaTracks s log)
            | Rejected lowQualityErr => again audioNext log
            end
          else if negb (tryAudioOnly options) && negb (tryVideoOnly options) then
            again audioNext log
          else if tryAudioOnly options then
            again videoNext log
          else
            (Thrown err, log)
      end
  end.

Definition getMediaStream (env : Browser) (options : Options)
    : Completion * list Event :=
  getMediaStream_fuel (budget options) env options [].

(** The request [initLocalStream] makes before it turns to
    [getMediaStream]. *)
Definition exactRequest : Constraints :=
  {| audio := AudioOn;
     video := VideoWith {| width := Exact 640; height := Exact 480;
                           frameRate := Ideal 30; facingMode := None |} |}.

(** The acquisition part of [initLocalStream]. *)
Definition acquire (env : Browser) (attempt : Z) : Completion * list Event :=
  let '(r, log) := getUserMedia env exactRequest [] in
  match r with
  | Resolved s => (Fulfilled s, log)
  | Rejected exactErr =>
      let options :=
        {| tryAudioOnly := 1 <? attempt;
           tryVideoOnly := 2 <? attempt;
           retryAttempt := attempt - 1 |} in
      getMediaStream_fuel (budget options) env options log
  end.

End MediaEnhanced.

(** [getMediaStream] of the TypeScript hook.  It does not look for
    [navigator.mediaDevices] first: where that is missing, reading
    [getUserMedia] off it throws a [TypeError] inside the [try]. *)
Module MediaTS.
Import Media Tuned.

Definition audioConstraints : AudioSettings :=
  {| echoCancellation := true; noiseSuppression := true;
     autoGainControl := true;
     channelCount := Some (Ideal 1); sampleRate := Some (Ideal 22050) |}.

Definition videoConstraints : VideoSettings :=
  {| width := IdealMax 240 480; height := IdealMax 180 360;
     frameRate := IdealMax 10 15; facingMode := Some "user" |}.

Definition lowerVideoConstraints : VideoSettings :=
  {| width := IdealMax 160 320; height := IdealMax 120 240;
     frameRate := IdealMax 8 10; facingMode := None |}.

Definition audioOnlyRequest : Constraints :=
  {| audio := AudioWith audioConstraints; video := VideoOff |}.

Definition videoOnlyRequest : Constraints :=
  {| audio := AudioOff; video := VideoWith videoConstraints |}.

Definition combinedRequest : Constraints :=
  {| audio := AudioWith audioConstraints; video := VideoWith videoConstraints |}.

Definition lowerQualityRequest : Constraints :=
  {| audio := AudioWith audioConstraints;
     video := VideoWith lowerVideoConstraints |}.

Definition typeError : JsError :=
  {| err_name := "TypeError";
     err_message := "Cannot read properties of undefined (reading 'getUserMedia')" |}.

(** [await navigator.mediaDevices.getUserMedia(constraints)] *)
Definition request (env : Browser) (constraints : Constraints)
    (log : list Event) : Outcome * list Event :=
  if supported env then getUserMedia env constraints log
  else (Rejected typeError, log).

Fixpoint getMediaStream_fuel (fuel : nat) (env : Browser)
    (options : Options) (log : list Event) : Completion * list Event :=
  match fuel with
  | O => (Diverged, log)
  | S fuel' =>
    let log := log ++ [Entered options] in
    let again o l := getMediaStream_fuel fuel' env o l in
    let audioNext :=
      {| tryAudioOnly := true; tryVideoOnly := false;
         retryAttempt := retryAttempt options + 1 |} in
    let videoNext :=
      {| tryAudioOnly := false; tryVideoOnly := true;
         retryAttempt := retryAttempt options + 1 |} in
    if 3 <? retryAttempt options then
      (Thrown (Error "Maximum retry attempts reached. Please check your device permissions."), log)
    else
      let '(flow, log) :=
        if tryAudioOnly options then
          let '(r, log) := request env audioOnlyRequest log in
          (match r with Resolved s => Normal s | Rejected e => Throw e end, log)
        else if tryVideoOnly options then
          let '(r, log) := request env videoOnlyRequest log in
          (match r with Resolved s => Normal s | Rejected e => Throw e end, log)
        else
          let '(r, log) := request env combinedRequest log in
          match r with
          | Resolved s => (Normal s, log)
          | Rejected err =>
              let '(c, log) := again audioNext log in (Return c, log)
          end in
      match flow with
      | Normal stream => (Fulfilled stream, optimizeMediaTracks stream log)
      | Return c => (c, log)
      | Throw err =>
          if name_is err "NotAllowedError" || name_is err "PermissionDeniedError" then
            (Thrown (Error "Camera or microphone access was denied. Please allow access in your browser settings."), log)
          else if name_is err "NotFoundError" || name_is err "DevicesNotFoundError" then
            (Thrown (Error "No camera or microphone found. Please connect a device and try again."), log)
          else if name_is err "NotReadableError" || name_is err "TrackStartError" then
            if negb (tryAudioOnly options) && negb (tryVideoOnly options) then
              again audioNext log
            else if tryAudioOnly options then
              again videoNext log
            else
              (Thrown (Error "Your camera or microphone is already in use by another application."), log)
          else if name_is err "OverconstrainedError" then
            let '(r, log) := request env lowerQualityRequest log in
            match r with
            | Resolved s =>
                if strict env then again audioNext log
                else (Fulfilled s, optimizeMediaTracks s log)
            | Rejected lowQualityErr => again audioNext log
            end
          else if negb (tryAudioOnly options) && negb (tryVideoOnly options) then
            again audioNext log
          else if tryAudioOnly options then
            again videoNext log
          else
            (Thrown err, log)
      end
  end.

Definition getMediaStream (env : Browser) (options : Options)
    : Completion * list Event :=
  getMediaStream_fuel (budget options) env options [].

End MediaTS.

(** ** What the session state is asked about *)

Module SessionState.
Import Session.

(** The local entries of an array all carry [videoEnabled = b]. *)
Definition localVideo (b : bool) (l : list Participant.t) : Prop :=
  forall p, p ∈ l -> Participant.isCurrentUser p = true ->
            Participant.videoEnabled p = b.

(** The stream is one the hook holds on to: its local stream or its screen
    stream. *)
Definition owned (h : Hook) (s : nat) : Prop :=
  localStreamRef h = Some s \/ screenStream h = Some s.

(** Every connection is filed under the id it was made for and refers to a
    peer object that was built for that id. *)
Definition wfConnections (pc : gmap string PeerConnection)
    (ps : list PeerObject) : Prop :=
  forall i c, pc !! i = Some c ->
    peerId c = i /\ exists o, ps !! peer c = Some o /\ remote o = i.

Definition wfPeers (h : Hook) : Prop :=
  wfConnections (peerConnections h) (peers h).

(** No remote entry carries the id of a local entry. *)
Definition idsApart (l : list Participant.t) : Prop :=
  forall p q, p ∈ l -> q ∈ l ->
    Participant.isCurrentUser p = true -> Participant.isCurrentUser q = false ->
    Participant.id q <> Participant.id p.

(** The number of entries with a given id. *)
Definition entriesOf (i : string) (l : list Participant.t) : nat :=
  length (List.filter (fun p => String.eqb (Participant.id p) i) l).

End SessionState.

(** ** The rest of the TypeScript hook: initialisation and removal *)

Module HookTSRoom.
Import Session.

(** [useState(true)] for both flags: the TypeScript hook takes no initial
    state. *)
Definition mount (props : Props) : Hook :=
  set_isMicOn true (set_isCameraOn true (Session.mount props)).

Definition localEntry (props : Props) (stream : nat)
    (hasVideoTracks hasAudioTracks : bool) : Participant.t :=
  {| Participant.id := userId props;
     Participant.name := "You";
     Participant.videoEnabled := hasVideoTracks;
     Participant.audioEnabled := hasAudioTracks;
     Participant.isScreenSharing := false;
     Participant.isCurrentUser := true;
     Participant.stream := Some stream;
     Participant.isVideoOff := None;
     Participant.isMuted := None |}.

(** [initLocalStream] after [getMediaStream] resolved. *)
Definition initResolved (props : Props) (capture : Capture) (h : Hook) : Hook :=
  let '(stream, hp) := newStream capture (heap h) in
  let h := set_heap hp h in
  if negb (mounted h) then h
  else
    let h := set_localStreamRef (Some stream) h in
    let h := set_localStream (Some stream) h in
    let h := set_error None h in
    let hasVideoTracks := (0 <? length (getVideoTracks stream (heap h)))%nat in
    let hasAudioTracks := (0 <? length (getAudioTracks stream (heap h)))%nat in
    let h :=
      set_participants [localEntry props stream hasVideoTracks hasAudioTracks] h in
    let h := set_isCameraOn hasVideoTracks h in
    let h := set_isMicOn hasAudioTracks h in
    let h := set_healthCheck true h in
    set_isInitializing false h.

Definition removeParticipant (props : Props) (participantId : string)
    (h : Hook) : Hook :=
  let h :=
    signal {| type := "remove-participant"; senderId := Some (userId props);
              receiverId := None; payload := RemovedId participantId |} h in
  let h := dropId participantId h in
  match peerConnections h !! participantId with
  | Some peerConnection =>
      set_peerConnections (delete participantId (peerConnections h))
        (call (Destroy (peer peerConnection)) h)
  | None => h
  end.

(** The callback of the last effect. *)
Definition handleRemoval (props : Props) (message : Message) (h : Hook) : Hook :=
  if String.eqb (type message) "remove-participant"
     && bool_decide (Enhanced.removedField message = Some (userId props)) then
    set_peerConnections ∅ (destroyAll h)
  else h.

End HookTSRoom.

(** ** The meeting room of [components/Dashboard.jsx], on the TypeScript
    hook *)

Module Row.

(** An entry of [participantsList]; only the first one has [isHost]. *)
Record t := {
  id : string;
  name : string;
  avatar : string;
  isHost : option bool;
  isMuted : bool;
  isVideoOff : bool
}.

End Row.

Module Dashboard.
Import Session.

Definition avatarOf (seed : string) : string :=
  "https://api.dicebear.com/7.x/avataaars/svg?seed=" ++ seed.

Definition participantsList (participants : list Participant.t)
    (isMicOn isCameraOn : bool) : list Row.t :=
  {| Row.id := "1"; Row.name := "You (Host)"; Row.avatar := avatarOf "you";
     Row.isHost := Some true; Row.isMuted := negb isMicOn;
     Row.isVideoOff := negb isCameraOn |}
  :: map (fun p =>
            {| Row.id := Participant.id p; Row.name := Participant.name p;
               Row.avatar := avatarOf (Participant.id p);
               Row.isHost := None;
               Row.isMuted := negb (Participant.audioEnabled p);
               Row.isVideoOff := negb (Participant.videoEnabled p) |})
       (List.filter (fun p => negb (Participant.isCurrentUser p)) participants).

(** [Array.prototype.findIndex]: [-1] when nothing matches. *)
Fixpoint findIndex {A} (f : A -> bool) (l : list A) : Z :=
  match l with
  | [] => -1
  | x :: rest =>
      if f x then 0
      else let i := findIndex f rest in if i <? 0 then -1 else i + 1
  end.

(** The entry the handler of [onRemoveParticipant] settles on. *)
Definition participantToRemove (participants : list Participant.t)
    (participantsList : list Row.t) (id : string) : option Participant.t :=
  match List.find (fun p => negb (Participant.isCurrentUser p)
                            && String.eqb (Participant.id p) id) participants with
  | Some p => Some p
  | None =>
      let participantIndex :=
        findIndex (fun r => String.eqb (Row.id r) id) participantsList in
      if (0 <=? participantIndex)
         && (participantIndex <? Z.of_nat (length participants))
      then List.find (fun p => negb (Participant.isCurrentUser p)) participants
      else None
  end.

Definition onRemoveParticipant (props : Props) (id : string) (h : Hook) : Hook :=
  match participantToRemove (participants h)
          (participantsList (participants h) (isMicOn h) (isCameraOn h)) id with
  | Some p => HookTSRoom.removeParticipant props (Participant.id p) h
  | None => h
  end.

End Dashboard.

(** ** The meeting room of [components/meeting/MeetingRoom.jsx], on the
    JavaScript hook, and its participant list *)

Module Formatted.

(** An entry of [formattedParticipants]; the stand-in entry has neither
    [videoEnabled] nor [audioEnabled]. *)
Record t := {
  id : string;
  name : string;
  avatar : string;
  isHost : bool;
  isMuted : bool;
  isVideoOff : bool;
  streamId : string;
  stream : option nat;
  isCurrentUser : bool;
  videoEnabled : option bool;
  audioEnabled : option bool
}.

End Formatted.

Module ParticipantList.

(** Whether the menu with [Remove from meeting] is rendered for
    [participant]:
    [currentUserId === participants.find((p) => p.isHost)?.id &&
     participant.id !== currentUserId]. *)
Definition menuShown (currentUserId : string) (participants : list Formatted.t)
    (participant : Formatted.t) : bool :=
  match List.find Formatted.isHost participants with
  | Some host => String.eqb currentUserId (Formatted.id host)
  | None => false
  end
  && negb (String.eqb (Formatted.id participant) currentUserId).

End ParticipantList.

Module MeetingRoom.
Import Session.

(** The state of the component: its own three [useState] values and the
    hook it calls. *)
Record State := {
  isMicOn : bool;
  isCameraOn : bool;
  userName : string;
  hook : Hook
}.

(** The properties a render hands to [useWebRTC]; [userId] is the one of
    [initialSettings]. *)
Definition propsOf (meetingId userId : string) (st : State) : Props :=
  {| roomId := meetingId;
     Session.userId := userId;
     initialAudioEnabled := isMicOn st;
     initialVideoEnabled := isCameraOn st;
     Session.userName := if String.eqb (userName st) "" then "You"
                         else userName st |}.

Definition format (p : Participant.t) : Formatted.t :=
  {| Formatted.id := Participant.id p;
     Formatted.name :=
       if Participant.isCurrentUser p
       then (if String.eqb (Participant.name p) "" then "You"
             else Participant.name p) ++ " (You)"
       else Participant.name p;
     Formatted.avatar := Dashboard.avatarOf (Participant.id p);
     Formatted.isHost := Participant.isCurrentUser p;
     Formatted.isMuted := negb (Participant.audioEnabled p);
     Formatted.isVideoOff := negb (Participant.videoEnabled p);
     Formatted.streamId := Participant.id p;
     Formatted.stream := Participant.stream p;
     Formatted.isCurrentUser := Participant.isCurrentUser p;
     Formatted.videoEnabled := Some (Participant.videoEnabled p);
     Formatted.audioEnabled := Some (Participant.audioEnabled p) |}.

Definition formattedParticipants (st : State) : list Formatted.t :=
  let formatted := map format (participants (hook st)) in
  if (length formatted =? 0)%nat then
    [ {| Formatted.id := "demo-user"; Formatted.name := "You (Demo)";
         Formatted.avatar := Dashboard.avatarOf "demo";
         Formatted.isHost := true;
         Formatted.isMuted := negb (isMicOn st);
         Formatted.isVideoOff := negb (isCameraOn st);
         Formatted.streamId := "demo-user";
         Formatted.stream := localStream (hook st);
         Formatted.isCurrentUser := true;
         Formatted.videoEnabled := None;
         Formatted.audioEnabled := None |} ]
  else formatted.

(** The render that follows a change of [initialAudioEnabled] or
    [initialVideoEnabled] finds a dependency of the initialisation effect
    changed: the effect is cleaned up and run again, up to the first
    [await] of [initLocalStream]. *)
Definition effectAgain (h : Hook) : Hook :=
  HookJS.initBegin (HookJS.effectStart (HookJS.cleanup h)).


Definition handleToggleCamera (meetingId userId : string) (st : State) : State :=
  let toggled := HookJS.toggleCamera (propsOf meetingId userId st) (hook st) in
  {| isMicOn := isMicOn st; isCameraOn := negb (isCameraOn st);
     userName := userName st; hook := effectAgain toggled |}.


(** [onRemoveParticipant] as wired to the list: called for an entry whose
    menu is rendered. *)
Definition onRemoveParticipant (id : string) (st : State) : State :=
  {| isMicOn := isMicOn st; isCameraOn := isCameraOn st;
     userName := userName st;
     hook := HookJS.removeParticipant id (hook st) |}.

End MeetingRoom.

(** ** The [VideoStream] component: recovery of a stalled playback *)

Module VideoStream.

(** The state the recovery reads and writes: the two [useState] values,
    [recoveryAttemptRef], the timer of [recoveryTimerRef] while it is set
    and has neither fired nor been cleared (with its delay), and the delays
    of all the timers set so far. *)
Record State := {
  videoError : bool;
  isPlaying : bool;
  recoveryAttempt : Z;
  recoveryTimer : option Z;
  timers : list Z
}.

Definition attemptRecovery (st : State) : State :=
  if 3 <=? recoveryAttempt st then st
  else
    let backoffTime := 2 ^ recoveryAttempt st * 1000 in
    {| videoError := videoError st; isPlaying := isPlaying st;
       recoveryAttempt := recoveryAttempt st;
       recoveryTimer := Some backoffTime;
       timers := timers st ++ [backoffTime] |}.

(** How the re-attachment in the timer callback ends: [play()] resolves,
    [play()] rejects, or re-attaching throws. *)
Inductive Replay := Played | PlayRejected | AttachThrew.

(** The timer callback, run when the timer that is set fires; [attached]
    tells whether the video element and the stream are still there. *)
Definition recover (attached : bool) (r : Replay) (st : State) : State :=
  match recoveryTimer st with
  | None => st
  | Some _ =>
      let st :=
        {| videoError := videoError st; isPlaying := isPlaying st;
           recoveryAttempt := recoveryAttempt st;
           recoveryTimer := None; timers := timers st |} in
      if attached then
        match r with
        | Played =>
            {| videoError := false; isPlaying := true; recoveryAttempt := 0;
               recoveryTimer := recoveryTimer st; timers := timers st |}
        | PlayRejected | AttachThrew =>
            attemptRecovery
              {| videoError := videoError st; isPlaying := isPlaying st;
                 recoveryAttempt := recoveryAttempt st + 1;
                 recoveryTimer := recoveryTimer st; timers := timers st |}
        end
      else st
  end.

(** [onStalled] *)
Definition onStalled (st : State) : State :=
  if isPlaying st then
    attemptRecovery
      {| videoError := videoError st; isPlaying := false;
         recoveryAttempt := recoveryAttempt st;
         recoveryTimer := recoveryTimer st; timers := timers st |}
  else st.

Definition failed (r : Replay) : bool :=
  match r with Played => false | _ => true end.

(** The timer fires once for each outcome, the element being attached. *)
Fixpoint recoveries (rs : list Replay) (st : State) : State :=
  match rs with
  | [] => st
  | r :: rest => recoveries rest (recover true r st)
  end.

End VideoStream.

(** * Properties *)

(** ** The relay *)

Section RelayFacts.
Import Relay.

Lemma truthy_Some (r : string) : r <> "" -> truthy (Some r) = true.
Proof.
  intros Hr. simpl. destruct (String.eqb_spec r ""); [contradiction | reflexivity].
Qed.

Lemma handed_app roomId cb q (d1 d2 : list Delivery) :
  handed roomId cb q (d1 ++ d2)
  = (handed roomId cb q d1 + handed roomId cb q d2)%nat.
Proof. unfold handed. now rewrite List.filter_app, length_app. Qed.

Lemma copies_app q (l1 l2 : list Queued) :
  copies q (l1 ++ l2) = (copies q l1 + copies q l2)%nat.
Proof. unfold copies. now rewrite List.filter_app, length_app. Qed.

Lemma copies_absent q (l : list Queued) : q ∉ l -> copies q l = 0%nat.
Proof.
  unfold copies. induction l as [|a l IH]; intros Hq; [reflexivity|].
  simpl. apply not_elem_of_cons in Hq as [Hne Hq].
  rewrite bool_decide_eq_false_2 by congruence. auto.
Qed.

(** Filtering with a test the message passes keeps its copies; with a test
    it fails, removes them. *)
Lemma copies_filter_keep q (f : Queued -> bool) (l : list Queued) :
  f q = true -> copies q (List.filter f l) = copies q l.
Proof.
  intros Hf. unfold copies. induction l as [|a l IH]; [reflexivity|].
  simpl. destruct (f a) eqn:Ha; simpl.
  - destruct (bool_decide (a = q)); simpl; now rewrite IH.
  - rewrite bool_decide_eq_false_2; [assumption|].
    intros ->. congruence.
Qed.

Lemma copies_filter_drop q (f : Queued -> bool) (l : list Queued) :
  f q = false -> copies q (List.filter f l) = 0%nat.
Proof.
  intros Hf. apply copies_absent. intros Hin.
  apply list_elem_of_In, List.filter_In in Hin as [_ Hq]. congruence.
Qed.

(** What a flush hands over, counted. *)
Lemma handed_flush roomId cb q (l : list Queued) :
  handed roomId cb q
    (map (fun msg => {| in_room := roomId; to_cb := cb; packet := Held msg |}) l)
  = copies q l.
Proof.
  unfold handed, copies. induction l as [|a l IH]; [reflexivity|].
  simpl. destruct (decide (a = q)) as [->|Hne].
  - rewrite !bool_decide_eq_true_2 by reflexivity. simpl. now rewrite IH.
  - rewrite !bool_decide_eq_false_2 by congruence. assumption.
Qed.

Lemma handed_flush_other roomId roomId' cb cb' q (l : list Queued) :
  roomId' <> roomId \/ cb' <> cb ->
  handed roomId cb q
    (map (fun msg => {| in_room := roomId'; to_cb := cb'; packet := Held msg |}) l)
  = 0%nat.
Proof.
  intros Hne. unfold handed. induction l as [|a l IH]; [reflexivity|].
  simpl. rewrite bool_decide_eq_false_2; [assumption|].
  intros [=]. destruct Hne; congruence.
Qed.

Lemma handed_live roomId roomId' cb q m (l : list Callback) :
  handed roomId cb q
    (map (fun c => {| in_room := roomId'; to_cb := c; packet := Live m |}) l)
  = 0%nat.
Proof.
  unfold handed. induction l as [|a l IH]; [reflexivity|].
  simpl. rewrite bool_decide_eq_false_2; [assumption|]. intros [=].
Qed.

Lemma set_delete_subset c c' (s : list Callback) :
  c' ∈ set_delete c s -> c' ∈ s.
Proof.
  unfold set_delete. rewrite !list_elem_of_In, List.filter_In. tauto.
Qed.

Lemma set_add_elem c c' (s : list Callback) :
  c' ∈ set_add c s -> c' = c \/ c' ∈ s.
Proof.
  unfold set_add. case_bool_decide; [tauto|].
  rewrite elem_of_app, list_elem_of_singleton. tauto.
Qed.

End RelayFacts.

Section Directed.
Import Relay.

Variables (roomId r : string) (q : Queued).
Hypothesis q_for_r : receiverId (queued q) = Some r.
Hypothesis r_truthy : r <> "".

Lemma not_pendingFor_other c :
  cb_senderId c <> Some r -> pendingFor c q = false.
Proof.
  intros Hc. unfold pendingFor. rewrite q_for_r, truthy_Some by assumption.
  rewrite bool_decide_eq_false_2 by congruence. reflexivity.
Qed.

Lemma pendingFor_receiver c : cb_senderId c = Some r -> pendingFor c q = true.
Proof.
  intros Hc. unfold pendingFor. rewrite q_for_r, Hc.
  now rewrite bool_decide_eq_true_2.
Qed.

(** One operation that spares the message, made before it expires, keeps it
    waiting and hands it to nobody. *)
Lemma step_keeps_waiting op st t :
  waiting roomId r q st ->
  spares roomId r q op st ->
  before t op -> t < expires q ->
  waiting roomId r q (fst (step op st)) /\
  forall c, handed roomId c q (snd (step op st)) = 0%nat.
Proof.
  intros [Hreg (l & Hl & Hone)] Hsp Hbefore Hdead.
  destruct op as [room m now | room c | room c]; simpl in *.
  - (* sendSignal *)
    unfold sendSignal.
    destruct (negb _ && truthy (receiverId m)) eqn:Hq; simpl.
    + split; [|reflexivity]. split; [exact Hreg|].
      destruct (decide (room = roomId)) as [->|Hne].
      * rewrite Hl. simpl. eexists. simpl. rewrite lookup_insert_eq. split; [reflexivity|].
        rewrite copies_filter_keep by (apply Z.ltb_lt; lia).
        rewrite copies_app, Hone. simpl.
        unfold copies at 1. simpl.
        rewrite bool_decide_eq_false_2 by auto. reflexivity.
      * exists l. simpl. now rewrite lookup_insert_ne.
    + split; [split; [exact Hreg | eauto]|].
      intros c. apply handed_live.
  - (* joinSignalingChannel *)
    unfold joinSignalingChannel.
    destruct (decide (room = roomId)) as [->|Hne].
    + specialize (Hsp eq_refl). rewrite Hl.
      assert (Hreg' : forall s' c',
        c' ∈ registered roomId
               {| SIGNALING_CHANNELS :=
                    match SIGNALING_CHANNELS st !! roomId with
                    | Some s => <[roomId:=set_add c s]> (SIGNALING_CHANNELS st)
                    | None => <[roomId:=[c]]> (SIGNALING_CHANNELS st)
                    end;
                  PENDING_MESSAGES := s' |} ->
        cb_senderId c' <> Some r).
      { intros s' c'. unfold registered in *. simpl.
        destruct (SIGNALING_CHANNELS st !! roomId) as [s|] eqn:Hs;
          rewrite lookup_insert_eq; simpl.
        - intros [->|Hin]%set_add_elem; [assumption | now apply Hreg].
        - intros ->%list_elem_of_singleton. assumption. }
      destruct (truthy (cb_senderId c)); [|split; [split; eauto | reflexivity]].
      destruct (0 <? length _)%nat; simpl; [|split; [split; eauto | reflexivity]].
      split.
      * split; [apply Hreg'|]. eexists. simpl. rewrite lookup_insert_eq.
        split; [reflexivity|].
        rewrite copies_filter_keep; [assumption|].
        now rewrite not_pendingFor_other.
      * intros c'. simpl. destruct (decide (c' = c)) as [->|Hc].
        -- rewrite handed_flush. apply copies_filter_drop.
           now apply not_pendingFor_other.
        -- apply handed_flush_other. right. congruence.
    + assert (Hsame : forall s',
        waiting roomId r q
          {| SIGNALING_CHANNELS :=
               match SIGNALING_CHANNELS st !! room with
               | Some s => <[room:=set_add c s]> (SIGNALING_CHANNELS st)
               | None => <[room:=[c]]> (SIGNALING_CHANNELS st)
               end;
             PENDING_MESSAGES := s' |} <->
        (exists l', s' !! roomId = Some l' /\ copies q l' = 1%nat)).
      { intros s'. unfold waiting, registered. simpl.
        assert (Hch : match SIGNALING_CHANNELS st !! room with
                      | Some s => <[room:=set_add c s]> (SIGNALING_CHANNELS st)
                      | None => <[room:=[c]]> (SIGNALING_CHANNELS st)
                      end !! roomId = SIGNALING_CHANNELS st !! roomId).
        { destruct (SIGNALING_CHANNELS st !! room); now rewrite lookup_insert_ne. }
        rewrite Hch. unfold registered in Hreg. tauto. }
      destruct (PENDING_MESSAGES st !! room) as [pend|];
        [|split; [apply Hsame; eauto | reflexivity]].
      destruct (truthy (cb_senderId c)); [|split; [apply Hsame; eauto | reflexivity]].
      destruct (0 <? length _)%nat; simpl; [|split; [apply Hsame; eauto | reflexivity]].
      split.
      * apply Hsame. exists l. now rewrite lookup_insert_ne.
      * intros c'. apply handed_flush_other. now left.
  - (* leaveSignaling *)
    split; [|reflexivity]. unfold leaveSignaling.
    destruct (SIGNALING_CHANNELS st !! room) as [s|] eqn:Hs;
      [|split; eauto].
    destruct (decide (room = roomId)) as [->|Hne].
    + specialize (Hsp eq_refl). unfold empties in Hsp. rewrite Hs in Hsp.
      rewrite Hsp. split; [|eauto].
      intros c'. unfold registered in *. simpl. rewrite lookup_insert_eq. simpl.
      intros Hin%set_delete_subset. apply Hreg. now rewrite Hs.
    + destruct (length _ =? 0)%nat; (split;
        [ intros c'; unfold registered in *; simpl;
          rewrite ?lookup_delete_ne, ?lookup_insert_ne by assumption; apply Hreg
        | exists l; simpl; rewrite ?lookup_delete_ne by assumption; auto ]).
Qed.

(** Any number of such operations. *)
Lemma run_keeps_waiting ops : forall st t,
  waiting roomId r q st ->
  quiet roomId r q ops st ->
  Forall (before t) ops -> t < expires q ->
  waiting roomId r q (fst (run ops st)) /\
  forall c, handed roomId c q (snd (run ops st)) = 0%nat.
Proof.
  induction ops as [|op ops IH]; intros st t Hw Hq Hb Hdead; simpl.
  - split; [assumption | reflexivity].
  - destruct Hq as [Hsp Hq]. inversion Hb as [|? ? Hb1 Hb2]; subst.
    destruct (step_keeps_waiting op st t Hw Hsp Hb1 Hdead) as [Hw1 Hd1].
    destruct (step op st) as [st1 d1] eqn:Hstep. simpl in *.
    destruct (IH st1 t Hw1 Hq Hb2 Hdead) as [Hw2 Hd2].
    destruct (run ops st1) as [st2 d2]. simpl in *.
    split; [assumption|]. intros c. now rewrite handed_app, Hd1, Hd2.
Qed.

(** A directed message sent while its receiver is not registered is queued,
    as long as the sweep that follows does not find it expired. *)
Lemma send_queues st m now :
  q = pendingMessage m now ->
  (forall c, c ∈ registered roomId st -> cb_senderId c <> Some r) ->
  q ∉ queue roomId st ->
  at_sweep now < expires q ->
  waiting roomId r q (fst (sendSignal roomId m now st)) /\
  snd (sendSignal roomId m now st) = [].
Proof.
  intros Hq Hreg Hfresh Hsweep.
  assert (Hm : receiverId m = Some r) by (rewrite Hq in q_for_r; exact q_for_r).
  unfold sendSignal.
  assert (Hnone : match SIGNALING_CHANNELS st !! roomId with
                  | Some s => List.filter (hears m) s
                  | None => []
                  end = []).
  { unfold registered in Hreg.
    destruct (SIGNALING_CHANNELS st !! roomId) as [s|]; [|reflexivity].
    simpl in Hreg. induction s as [|a s IH]; [reflexivity|]. simpl.
    assert (Ha : hears m a = false).
    { unfold hears. rewrite Hm, truthy_Some by assumption. simpl.
      rewrite (bool_decide_eq_false_2 (Some r = cb_senderId a)).
      - apply andb_false_r.
      - intros Heq. apply (Hreg a); [left | congruence]. }
    rewrite Ha. apply IH. intros c Hc. apply Hreg. now right. }
  rewrite Hnone, Hm, truthy_Some by assumption. simpl.
  split; [|reflexivity]. split; [exact Hreg|].
  eexists. simpl. rewrite lookup_insert_eq. split; [reflexivity|].
  rewrite <- Hq. rewrite copies_filter_keep by (apply Z.ltb_lt; lia).
  rewrite copies_app. unfold queue in Hfresh.
  rewrite (copies_absent _ _ Hfresh). unfold copies. simpl.
  now rewrite bool_decide_eq_true_2.
Qed.

(** The registration of the receiver flushes the waiting message to it,
    once, and takes it off the queue. *)
Lemma join_flushes st cb :
  waiting roomId r q st ->
  cb_senderId cb = Some r ->
  handed roomId cb q (snd (joinSignalingChannel roomId cb st)) = 1%nat /\
  q ∉ queue roomId (fst (joinSignalingChannel roomId cb st)).
Proof.
  intros [_ (l & Hl & Hone)] Hcb. unfold joinSignalingChannel.
  rewrite Hl, Hcb, truthy_Some by assumption.
  assert (Hcount : copies q (List.filter (pendingFor cb) l) = 1%nat).
  { rewrite copies_filter_keep; [assumption | now apply pendingFor_receiver]. }
  destruct (0 <? length (List.filter (pendingFor cb) l))%nat eqn:Hlen.
  - simpl. rewrite handed_flush. split; [assumption|].
    unfold queue. simpl. rewrite lookup_insert_eq. simpl.
    intros Hin. apply list_elem_of_In, List.filter_In in Hin as [_ Hin].
    rewrite pendingFor_receiver in Hin by assumption. discriminate.
  - apply Nat.ltb_ge in Hlen. unfold copies in Hcount.
    destruct (List.filter (pendingFor cb) l); simpl in *; [discriminate | lia].
Qed.

End Directed.

Section ObjectFacts.
Import Relay RelayObject.

Lemma get_own {A} (obj : gmap string A) key :
  inherited key = false ->
  get obj key = match obj !! key with Some a => Own a | None => Missing end.
Proof. intros H. unfold get. now rewrite H. Qed.

(** For a room id that is not an inherited name the two readings agree and
    nothing throws. *)
Lemma object_step_own (op : Op) (st : State) :
  inherited (room op) = false ->
  (leaves (RelayObject.step op st), hands (RelayObject.step op st))
  = Relay.step op st
  /\ threw (RelayObject.step op st) = false.
Proof.
  intros Hown. destruct op as [r m now | r c | r c]; simpl in *.
  - unfold RelayObject.sendSignal, Relay.sendSignal.
    rewrite !get_own by assumption.
    destruct (SIGNALING_CHANNELS st !! r) as [s|];
      destruct (negb _ && truthy (receiverId m));
      destruct (PENDING_MESSAGES st !! r); split; reflexivity.
  - unfold RelayObject.joinSignalingChannel, Relay.joinSignalingChannel.
    rewrite !get_own by assumption.
    destruct (SIGNALING_CHANNELS st !! r) as [s|];
      (destruct (PENDING_MESSAGES st !! r) as [pending|];
       [destruct (truthy (cb_senderId c));
        [destruct (0 <? length _)%nat|]|]); split; reflexivity.
  - unfold RelayObject.leaveSignaling, Relay.leaveSignaling.
    rewrite !get_own by assumption.
    destruct (SIGNALING_CHANNELS st !! r) as [s|]; [|split; reflexivity].
    destruct (length _ =? 0)%nat; split; reflexivity.
Qed.

(** Whatever the room id, a call either does what the reading by own
    properties says, or throws before it has changed or delivered
    anything. *)
Lemma object_step_cases (op : Op) (st : State) :
  (leaves (RelayObject.step op st), hands (RelayObject.step op st))
  = Relay.step op st
  \/ (RelayObject.step op st = typeError st /\ inherited (room op) = true).
Proof.
  destruct (inherited (room op)) eqn:Hin;
    [|left; now apply object_step_own].
  destruct op as [r m now | r c | r c]; simpl in *.
  - unfold RelayObject.sendSignal, Relay.sendSignal, get. rewrite Hin.
    destruct (SIGNALING_CHANNELS st !! r) as [s|]; [|right; now split].
    destruct (negb _ && truthy (receiverId m)); [|left; reflexivity].
    destruct (PENDING_MESSAGES st !! r); [left; reflexivity | right; now split].
  - unfold RelayObject.joinSignalingChannel, Relay.joinSignalingChannel, get.
    rewrite Hin.
    destruct (SIGNALING_CHANNELS st !! r) as [s|]; [|right; now split].
    destruct (PENDING_MESSAGES st !! r) as [pending|].
    + destruct (truthy (cb_senderId c)); [|left; reflexivity].
      destruct (0 <? length _)%nat; left; reflexivity.
    + destruct (truthy (cb_senderId c)); left; reflexivity.
  - unfold RelayObject.leaveSignaling, Relay.leaveSignaling, get. rewrite Hin.
    destruct (SIGNALING_CHANNELS st !! r) as [s|]; [|left; reflexivity].
    destruct (length _ =? 0)%nat; left; reflexivity.
Qed.

End ObjectFacts.

Section ObjectDirected.
Import Relay RelayObject.

Variables (roomId r : string) (q : Queued).
Hypothesis q_for_r : receiverId (queued q) = Some r.
Hypothesis r_truthy : r <> "".

Lemma object_step_keeps_waiting op st t :
  waiting roomId r q st ->
  spares roomId r q op st ->
  before t op -> t < expires q ->
  waiting roomId r q (leaves (RelayObject.step op st)) /\
  forall c, handed roomId c q (hands (RelayObject.step op st)) = 0%nat.
Proof.
  intros Hw Hsp Hb Hdead.
  destruct (object_step_cases op st) as [Hsame | [-> _]].
  - pose proof (step_keeps_waiting roomId r q q_for_r r_truthy op st t
                  Hw Hsp Hb Hdead) as H.
    rewrite <- Hsame in H. exact H.
  - split; [exact Hw | reflexivity].
Qed.

Lemma object_run_keeps_waiting ops : forall st t,
  waiting roomId r q st ->
  RelayObject.quiet roomId r q ops st ->
  Forall (before t) ops -> t < expires q ->
  waiting roomId r q (fst (RelayObject.run ops st)) /\
  forall c, handed roomId c q (snd (RelayObject.run ops st)) = 0%nat.
Proof.
  induction ops as [|op ops IH]; intros st t Hw Hq Hb Hdead; simpl.
  - split; [assumption | reflexivity].
  - destruct Hq as [Hsp Hq]. inversion Hb as [|? ? Hb1 Hb2]; subst.
    destruct (object_step_keeps_waiting op st t Hw Hsp Hb1 Hdead) as [Hw1 Hd1].
    destruct (IH _ t Hw1 Hq Hb2 Hdead) as [Hw2 Hd2].
    destruct (RelayObject.run ops _) as [st2 d2]. simpl in *.
    split; [assumption|]. intros c. now rewrite handed_app, Hd1, Hd2.
Qed.

End ObjectDirected.

Section ObjectClaims.
Import Relay RelayObject.

(** C1 (as amended).  In a room whose id is not a name that object literals
    inherit, a message with a [receiverId], sent while no callback of that
    receiver is registered in the room, is handed to the receiver's
    callback exactly once, by the [joinSignalingChannel] call that registers
    it, and to nobody before, provided the registration comes within 60
    seconds of the send and, in between, no operation on the room
    unsubscribes its last callback, registers another callback of the same
    receiver, or queues an entry equal to the one of this message (the same
    message with the same two stamps), none being queued at the send; and
    neither the send nor the registration throws. *)
Theorem C1_directed_message_flushed_once (st : State) (roomId r : string)
    (m : Message) (now : Clock) (ops : list Op) (cb : Callback) (t_join : Z) :
  inherited roomId = false ->
  receiverId m = Some r -> r <> "" ->
  (forall c, c ∈ registered roomId st -> cb_senderId c <> Some r) ->
  pendingMessage m now ∉ queue roomId st ->
  cb_senderId cb = Some r ->
  at_sweep now <= t_join -> Forall (before t_join) ops ->
  t_join < at_expiry now + 60000 ->
  RelayObject.quiet roomId r (pendingMessage m now) ops
    (leaves (RelayObject.sendSignal roomId m now st)) ->
  let sent := RelayObject.sendSignal roomId m now st in
  let between := RelayObject.run ops (leaves sent) in
  let joined := RelayObject.joinSignalingChannel roomId cb (fst between) in
  threw sent = false
  /\ threw joined = false
  /\ (forall c, handed roomId c (pendingMessage m now)
                  (hands sent ++ snd between) = 0%nat)
  /\ handed roomId cb (pendingMessage m now) (hands joined) = 1%nat
  /\ pendingMessage m now ∉ queue roomId (leaves joined).
Proof.
  intros Hown Hm Hr Hreg Hfresh Hcb Hsweep Hbefore Hdead Hquiet
    sent between joined.
  set (q := pendingMessage m now) in *.
  assert (Hq : receiverId (queued q) = Some r) by exact Hm.
  assert (Hexp : expires q = at_expiry now + 60000) by reflexivity.
  destruct (object_step_own (Send roomId m now) st Hown) as [Hsent Hsent'].
  destruct (send_queues roomId r q Hq Hr st m now eq_refl Hreg Hfresh)
    as [Hw Hnone]; [lia|].
  change (Relay.step (Send roomId m now) st)
    with (Relay.sendSignal roomId m now st) in Hsent.
  rewrite <- Hsent in Hw, Hnone. cbn [fst snd] in Hw, Hnone.
  change (RelayObject.step (Send roomId m now) st) with sent
    in Hw, Hnone, Hsent'.
  destruct (object_run_keeps_waiting roomId r q Hq Hr ops (leaves sent) t_join
              Hw Hquiet Hbefore) as [Hw2 Hd2]; [lia|].
  fold between in Hw2, Hd2.
  destruct (object_step_own (Join roomId cb) (fst between) Hown)
    as [Hjoin Hjoin'].
  destruct (join_flushes roomId r q Hq Hr (fst between) cb Hw2 Hcb)
    as [Hone Hgone].
  change (Relay.step (Join roomId cb) (fst between))
    with (Relay.joinSignalingChannel roomId cb (fst between)) in Hjoin.
  rewrite <- Hjoin in Hone, Hgone. cbn [fst snd] in Hone, Hgone.
  change (RelayObject.step (Join roomId cb) (fst between)) with joined
    in Hone, Hgone, Hjoin'.
  split; [assumption|]. split; [assumption|]. split; [|split; assumption].
  intros c. rewrite Hnone. simpl. apply Hd2.
Qed.

(** Alice registers, announces herself and sends Bob an offer at time 0;
    she pings at 30 s; Bob registers at 45 s and gets the offer once. *)
Lemma C1_directed_message_flushed_once_witness :
  let st := fst (RelayObject.run [Join "room" alice; Send "room" hello (tick 0)]
                   empty) in
  let sent := RelayObject.sendSignal "room" offer (tick 0) st in
  let between := RelayObject.run [Send "room" hello (tick 30000)] (leaves sent) in
  let joined := RelayObject.joinSignalingChannel "room" bob (fst between) in
  threw sent = false
  /\ threw joined = false
  /\ (forall c, handed "room" c (pendingMessage offer (tick 0))
                  (hands sent ++ snd between) = 0%nat)
  /\ handed "room" bob (pendingMessage offer (tick 0)) (hands joined) = 1%nat
  /\ pendingMessage offer (tick 0) ∉ queue "room" (leaves joined).
Proof.
  apply (C1_directed_message_flushed_once
           (fst (RelayObject.run
                   [Join "room" alice; Send "room" hello (tick 0)] empty))
           "room" "bob" offer (tick 0) [Send "room" hello (tick 30000)] bob 45000).
  - reflexivity.
  - reflexivity.
  - discriminate.
  - vm_compute. intros c Hc. apply list_elem_of_singleton in Hc. subst c. discriminate.
  - vm_compute. apply not_elem_of_nil.
  - reflexivity.
  - vm_compute. discriminate.
  - repeat constructor. vm_compute. discriminate.
  - vm_compute. reflexivity.
  - simpl. split; [|exact I]. intros _. discriminate.
Defined.

(** C1 (as stated) fails.  First run: Alice, alone in the room, sends Bob
    an offer at time 0 and leaves at 1 s, which empties the room; Bob
    registers after a send stamped 2 s and is handed nothing.  Second run:
    Alice stays; Bob registers after a send stamped 70 s and is still handed
    the offer.  Third run: the meeting is called [constructor]; Alice's
    registration throws, so does her send, which queues nothing, and so does
    Bob's registration a second later, which is handed nothing. *)
Lemma C1_counterexample :
  (let ops := [Join "room" alice; Send "room" offer (tick 0);
               Leave "room" alice; Send "lobby" hello (tick 2000);
               Join "room" bob] in
   Forall (before 2000) ops /\
   handed "room" bob (pendingMessage offer (tick 0))
     (snd (RelayObject.run ops empty)) = 0%nat)
  /\
  (let ops := [Join "room" alice; Send "room" offer (tick 0);
               Send "lobby" hello (tick 70000)] in
   let late := RelayObject.run ops empty in
   ~ Forall (before 60000) ops /\
   handed "room" bob (pendingMessage offer (tick 0))
     (hands (RelayObject.joinSignalingChannel "room" bob (fst late))) = 1%nat)
  /\
  (let joined := RelayObject.joinSignalingChannel "constructor" alice empty in
   let sent := RelayObject.sendSignal "constructor" offer (tick 0)
                 (leaves joined) in
   let late := RelayObject.joinSignalingChannel "constructor" bob
                 (leaves sent) in
   threw joined = true /\ threw sent = true /\ threw late = true
   /\ leaves late = empty
   /\ hands joined ++ hands sent ++ hands late = []).
Proof.
  split; [|split].
  - split; [repeat constructor; vm_compute; discriminate | reflexivity].
  - split; [|reflexivity].
    intros H. do 2 (apply Forall_cons in H as [_ H]).
    apply Forall_cons in H as [H _]. vm_compute in H. now apply H.
  - repeat split; vm_compute; reflexivity.
Qed.

End ObjectClaims.

Section RelayClaims.
Import Relay.

(** The registration makes no reading of the clock: a message still in the
    queue is flushed whatever its [expires]. *)
Lemma flush_ignores_expiry (st : State) (roomId r : string) (q : Queued)
    (cb : Callback) :
  receiverId (queued q) = Some r -> r <> "" ->
  waiting roomId r q st -> cb_senderId cb = Some r ->
  handed roomId cb q (snd (joinSignalingChannel roomId cb st)) = 1%nat.
Proof.
  intros Hq Hr Hw Hcb. now apply (join_flushes roomId r q Hq Hr st cb Hw Hcb).
Qed.

(** C10.  When the unsubscribe closure removes the last callback of a room,
    the room's registration set and its whole pending queue are deleted: the
    queue is empty afterwards whatever the [expires] of the messages it
    held, and a callback that registers next is handed nothing. *)
Theorem C10_last_unsubscribe_drops_queue (st : State) (roomId : string)
    (callback : Callback) (s : list Callback) :
  SIGNALING_CHANNELS st !! roomId = Some s ->
  set_delete callback s = [] ->
  let st' := leaveSignaling roomId callback st in
  SIGNALING_CHANNELS st' !! roomId = None
  /\ PENDING_MESSAGES st' !! roomId = None
  /\ (forall q, q ∈ queue roomId st -> q ∉ queue roomId st')
  /\ (forall receiver, snd (joinSignalingChannel roomId receiver st') = []).
Proof.
  intros Hs Hlast st'. subst st'. unfold leaveSignaling. rewrite Hs, Hlast. simpl.
  rewrite !lookup_delete_eq. repeat split.
  - intros q _. unfold queue. simpl. rewrite lookup_delete_eq. apply not_elem_of_nil.
  - intros receiver. unfold joinSignalingChannel. simpl.
    now rewrite !lookup_delete_eq.
Qed.

(** Alice, alone in the room, has an offer for Bob queued at time 0, due to
    expire at 60 s; she unsubscribes. *)
Lemma C10_last_unsubscribe_drops_queue_witness :
  let st := fst (run [Join "room" alice; Send "room" offer (tick 0)] empty) in
  pendingMessage offer (tick 0) ∈ queue "room" st /\
  let st' := leaveSignaling "room" alice st in
  SIGNALING_CHANNELS st' !! "room" = None
  /\ PENDING_MESSAGES st' !! "room" = None
  /\ (forall q, q ∈ queue "room" st -> q ∉ queue "room" st')
  /\ (forall receiver, snd (joinSignalingChannel "room" receiver st') = []).
Proof.
  split.
  - vm_compute. apply list_elem_of_singleton. reflexivity.
  - apply (C10_last_unsubscribe_drops_queue
             (fst (run [Join "room" alice; Send "room" offer (tick 0)] empty))
             "room" alice [alice]).
    + vm_compute. reflexivity.
    + vm_compute. reflexivity.
Defined.

(** With another callback left in the room the queue stays. *)
Lemma unsubscribe_keeps_queue (st : State) (roomId : string)
    (callback : Callback) :
  empties roomId callback st = false ->
  PENDING_MESSAGES (leaveSignaling roomId callback st) = PENDING_MESSAGES st.
Proof.
  unfold empties, leaveSignaling.
  destruct (SIGNALING_CHANNELS st !! roomId); [|reflexivity].
  now intros ->.
Qed.

End RelayClaims.

(** ** Media acquisition *)

Section MediaFacts.
Import Media.

Lemma entries_app (l1 l2 : list Event) :
  entries (l1 ++ l2) = entries l1 ++ entries l2.
Proof. unfold entries. apply omap_app. Qed.

Lemma requests_app (l1 l2 : list Event) :
  requests (l1 ++ l2) = requests l1 ++ requests l2.
Proof. unfold requests. apply omap_app. Qed.

Lemma entries_entered (l : list Event) o :
  entries (l ++ [Entered o]) = entries l ++ [o].
Proof. now rewrite entries_app. Qed.

Lemma entries_requested (l : list Event) c :
  entries (l ++ [Requested c]) = entries l.
Proof. rewrite entries_app. simpl. apply app_nil_r. Qed.

Lemma requests_entered (l : list Event) o :
  requests (l ++ [Entered o]) = requests l.
Proof. rewrite requests_app. simpl. apply app_nil_r. Qed.

Lemma requests_requested (l : list Event) c :
  requests (l ++ [Requested c]) = requests l ++ [c].
Proof. now rewrite requests_app. Qed.

(** Values up to 3 in a run of consecutive integers. *)
Lemma countFrom_small z n :
  (length (List.filter (fun x => (x <=? 3)%Z) (countFrom z n))
   <= Z.to_nat (4 - z))%nat.
Proof.
  revert z. induction n as [|n IH]; intros z; simpl; [lia|].
  specialize (IH (z + 1)). destruct (z <=? 3) eqn:Hz; simpl; lia.
Qed.

Lemma attempts_length (l : list Options) :
  length (List.filter (fun o => retryAttempt o <=? 3) l)
  = length (List.filter (fun x => x <=? 3) (map retryAttempt l)).
Proof.
  induction l as [|o l IH]; [reflexivity|].
  simpl. destruct (retryAttempt o <=? 3); simpl; now rewrite IH.
Qed.

(** One unfolding of the recursion. *)
Ltac open_call :=
  cbn [getMediaStream_fuel]; unfold getUserMedia;
  repeat match goal with
         | |- context [if ?b then _ else _] => destruct b eqn:?
         | |- context [match device ?e ?n ?c with _ => _ end] =>
             destruct (device e n c) eqn:?
         end.

(** With a budget above [4 - retryAttempt] the model does not run dry, and
    the calls it makes carry consecutive values of [retryAttempt]. *)
Lemma getMediaStream_fuel_entries fuel : forall env options log,
  (Z.to_nat (4 - retryAttempt options) < fuel)%nat ->
  fst (getMediaStream_fuel fuel env options log) <> Diverged /\
  exists n,
    map retryAttempt (entries (snd (getMediaStream_fuel fuel env options log)))
    = map retryAttempt (entries log) ++ countFrom (retryAttempt options) (S n).
Proof.
  induction fuel as [|fuel IH]; intros env options log Hfuel; [lia|].
  assert (Hrec : forall o l, (3 <? retryAttempt options) = false ->
            retryAttempt o = retryAttempt options + 1 ->
            entries l = entries log ++ [options] ->
            fst (getMediaStream_fuel fuel env o l) <> Diverged /\
            exists n,
              map retryAttempt (entries (snd (getMediaStream_fuel fuel env o l)))
              = map retryAttempt (entries log)
                  ++ countFrom (retryAttempt options) (S n)).
  { intros o l Hle Ho Hl. apply Z.ltb_ge in Hle.
    destruct (IH env o l) as [Hnd [n Hn]]; [lia|].
    split; [assumption|]. exists (S n). rewrite Hn, Hl, map_app, Ho.
    now rewrite <- app_assoc. }
  assert (Hstop : forall l, entries l = entries log ++ [options] ->
            exists n, map retryAttempt (entries l)
              = map retryAttempt (entries log)
                  ++ countFrom (retryAttempt options) (S n)).
  { intros l ->. exists 0%nat. now rewrite map_app. }
  open_call; simpl.
  all: try (split; [discriminate | apply Hstop;
       now rewrite ?entries_requested, entries_entered]).
  all: try (apply Hrec; [reflexivity | reflexivity |
       now rewrite ?entries_requested, entries_entered]).
  all: match goal with
       | Hr : context [countFrom] |- context [getMediaStream_fuel ?f ?e ?o ?l] =>
           let H := fresh in
           assert (H := Hr o l eq_refl eq_refl
                          ltac:(now rewrite ?entries_requested, entries_entered));
           destruct (getMediaStream_fuel f e o l); exact H
       end.
Qed.

(** Above that budget the answer no longer depends on the budget. *)
Lemma getMediaStream_fuel_enough f1 : forall f2 env options log,
  (Z.to_nat (4 - retryAttempt options) < f1)%nat ->
  (Z.to_nat (4 - retryAttempt options) < f2)%nat ->
  getMediaStream_fuel f1 env options log = getMediaStream_fuel f2 env options log.
Proof.
  induction f1 as [|f1 IH]; intros f2 env options log H1 H2; [lia|].
  destruct f2 as [|f2]; [lia|].
  assert (Hrec : forall o l, (3 <? retryAttempt options) = false ->
            retryAttempt o = retryAttempt options + 1 ->
            getMediaStream_fuel f1 env o l = getMediaStream_fuel f2 env o l).
  { intros o l Hle Ho. apply Z.ltb_ge in Hle. apply IH; lia. }
  open_call;
    repeat match goal with
           | Hr : context [getMediaStream_fuel]
             |- context [getMediaStream_fuel f1 ?e ?o ?l] =>
               rewrite (Hr o l eq_refl eq_refl)
           end;
    try reflexivity;
    match goal with
    | |- context [getMediaStream_fuel f2 ?e ?o ?l] =>
        destruct (getMediaStream_fuel f2 e o l); reflexivity
    end.
Qed.

(** A call entered above the limit fails at once, without any request. *)
Lemma getMediaStream_over_limit env options :
  3 < retryAttempt options ->
  exists err, getMediaStream env options = (Thrown err, [Entered options]).
Proof.
  intros Hr. unfold getMediaStream, budget.
  replace (Z.to_nat (4 - retryAttempt options)) with 0%nat by lia.
  cbn [getMediaStream_fuel]. destruct (negb (supported env)); [eauto|].
  apply Z.ltb_lt in Hr. rewrite Hr. eauto.
Qed.

(** The request log only grows. *)
Lemma getMediaStream_fuel_requests fuel : forall env options log,
  exists rest,
    requests (snd (getMediaStream_fuel fuel env options log))
    = requests log ++ rest.
Proof.
  induction fuel as [|fuel IH]; intros env options log.
  - exists []. simpl. now rewrite app_nil_r.
  - open_call; simpl;
      repeat match goal with
             | |- context [getMediaStream_fuel fuel ?e ?o ?l] =>
                 let rest := fresh "rest" in
                 let H := fresh in
                 destruct (IH e o l) as [rest H];
                 destruct (getMediaStream_fuel fuel e o l); simpl in *;
                 rewrite H
             end;
      rewrite ?requests_requested, ?requests_entered, <- ?app_assoc;
      eexists; try reflexivity; now rewrite app_nil_r.
Qed.

(** A device that rejects every request never lets a run end with a
    stream. *)
Lemma getMediaStream_fuel_no_stream fuel : forall env options log p s,
  alwaysFails env p ->
  fst (getMediaStream_fuel fuel env options log) <> Fulfilled s.
Proof.
  induction fuel as [|fuel IH]; intros env options log p s Hfail; [discriminate|].
  open_call; simpl;
    repeat match goal with
           | H : device ?e ?n ?c = Resolved _ |- _ =>
               destruct (Hfail n c) as (? & ? & _); congruence
           end;
    try discriminate;
    try (eapply IH; eassumption);
    match goal with
    | |- context [getMediaStream_fuel fuel ?e ?o ?l] =>
        let H := fresh in
        assert (H := IH e o l p s Hfail);
        destruct (getMediaStream_fuel fuel e o l); exact H
    end.
Qed.

(** An audio-only call that passes the limit asks for audio only first. *)
Lemma audio_call_requests fuel env options log :
  supported env = true -> tryAudioOnly options = true ->
  retryAttempt options <= 3 ->
  exists rest,
    requests (snd (getMediaStream_fuel (S fuel) env options log))
    = requests log ++ audioOnlyConstraints :: rest.
Proof.
  intros Hsup Haudio Hr. apply Z.ltb_ge in Hr.
  cbn [getMediaStream_fuel]. rewrite Hsup, Hr, Haudio. unfold getUserMedia.
  cbn [negb].
  repeat match goal with
         | |- context [if ?b then _ else _] => destruct b eqn:?
         | |- context [match device ?e ?n ?c with _ => _ end] =>
             destruct (device e n c) eqn:?
         end; simpl;
    repeat match goal with
           | |- context [getMediaStream_fuel fuel ?e ?o ?l] =>
               let rest := fresh "rest" in
               let H := fresh in
               destruct (getMediaStream_fuel_requests fuel e o l) as [rest H];
               rewrite H
           end;
    rewrite ?requests_requested, ?requests_entered, <- ?app_assoc;
    simpl; eexists; reflexivity.
Qed.

(** The acquisition of one initialisation cycle of the JavaScript hook
    settles as well, with at most four numbered attempts of
    [getMediaStream] after its two direct requests. *)
Lemma acquire_settles env (attempt : Z) :
  1 <= attempt ->
  fst (HookJS.acquire env attempt) <> Diverged
  /\ (length (attempts (snd (HookJS.acquire env attempt))) <= 4)%nat.
Proof.
  intros Hattempt. unfold HookJS.acquire, getUserMedia.
  destruct (device env _ basicConstraints); [split; [discriminate | simpl; lia]|].
  destruct (device env _ HookJS.lessStrictConstraints);
    [split; [discriminate | simpl; lia]|].
  match goal with
  | |- context [getMediaStream_fuel (budget ?o) env ?o ?l] =>
      destruct (getMediaStream_fuel_entries (budget o) env o l) as [Hnd [n Hn]];
        [unfold budget; lia|];
      change (map retryAttempt (entries l) ++ ?c) with c in Hn;
      split; [exact Hnd|];
      unfold attempts; rewrite attempts_length, Hn
  end.
  etransitivity; [apply countFrom_small|]. simpl. lia.
Qed.

End MediaFacts.

Section MediaClaims.
Import Media.

(** C9.  A fallback run started with a non-negative [retryAttempt] always
    settles (the recursion budget [4 - retryAttempt + 1] is never used up);
    the successive calls of [getMediaStream] carry [retryAttempt],
    [retryAttempt + 1], ... without a gap; at most 4 of them get past the
    retry limit, these being the attempts the code numbers
    [retryAttempt + 1]; and a call entered with [retryAttempt > 3] throws
    without asking the device for anything. *)
Theorem C9_at_most_four_attempts (env : Browser) (options : Options) :
  0 <= retryAttempt options ->
  fst (getMediaStream env options) <> Diverged
  /\ (exists n, map retryAttempt (entries (snd (getMediaStream env options)))
                = countFrom (retryAttempt options) (S n))
  /\ (length (attempts (snd (getMediaStream env options))) <= 4)%nat
  /\ (forall o, 3 < retryAttempt o ->
        exists err, getMediaStream env o = (Thrown err, [Entered o])).
Proof.
  intros Hr. unfold getMediaStream.
  destruct (getMediaStream_fuel_entries (budget options) env options [])
    as [Hnd [n Hn]]; [unfold budget; lia|].
  change (map retryAttempt (entries []) ++ ?l) with l in Hn.
  repeat split.
  - assumption.
  - eauto.
  - unfold attempts. rewrite attempts_length, Hn.
    etransitivity; [apply countFrom_small | lia].
  - intros o Ho. now apply getMediaStream_over_limit.
Qed.

Lemma C9_at_most_four_attempts_witness :
  fst (getMediaStream (browserWith pickyDevice) defaults) <> Diverged
  /\ (exists n,
        map retryAttempt
          (entries (snd (getMediaStream (browserWith pickyDevice) defaults)))
        = countFrom 0 (S n))
  /\ (length (attempts (snd (getMediaStream (browserWith pickyDevice) defaults)))
      <= 4)%nat
  /\ (forall o, 3 < retryAttempt o ->
        exists err,
          getMediaStream (browserWith pickyDevice) o = (Thrown err, [Entered o])).
Proof.
  apply (C9_at_most_four_attempts (browserWith pickyDevice) defaults).
  simpl. lia.
Defined.

(** The bound is reached, and each attempt may ask the device twice: against
    a device that never satisfies the constraints a run makes four numbered
    attempts and eight requests. *)
Lemma four_attempts_eight_requests :
  length (attempts (snd (getMediaStream (browserWith pickyDevice) defaults)))
  = 4%nat
  /\ length (requests (snd (getMediaStream (browserWith pickyDevice) defaults)))
     = 8%nat.
Proof. split; reflexivity. Qed.

(** C2 (as amended).  When every request fails with a device-busy or an
    over-constrained error, a run started with the default options asks for
    audio and video with the basic constraints, then for audio and video
    with the detailed constraints, then for audio only, in this order, and
    ends by throwing to its caller. *)
Theorem C2_fallback_reaches_audio_only (env : Browser) :
  supported env = true ->
  alwaysFails env recoverable ->
  exists err log rest,
    getMediaStream env defaults = (Thrown err, log)
    /\ requests log
       = basicConstraints :: detailedConstraints :: audioOnlyConstraints :: rest.
Proof.
  intros Hsup Hfail.
  destruct (getMediaStream env defaults) as [c log] eqn:Hrun.
  assert (Hc : exists err, c = Thrown err).
  { destruct c as [s | err |].
    - exfalso. apply (getMediaStream_fuel_no_stream (budget defaults) env
                        defaults [] recoverable s Hfail).
      unfold getMediaStream in Hrun. now rewrite Hrun.
    - eauto.
    - exfalso.
      destruct (getMediaStream_fuel_entries (budget defaults) env defaults [])
        as [Hnd _]; [unfold budget; lia|].
      unfold getMediaStream in Hrun. now rewrite Hrun in Hnd. }
  destruct Hc as [err ->]. exists err, log.
  assert (Hlog : log = snd (getMediaStream env defaults)) by now rewrite Hrun.
  assert (Hreq : exists rest,
            requests (snd (getMediaStream env defaults))
            = basicConstraints :: detailedConstraints
                :: audioOnlyConstraints :: rest).
  { clear Hrun Hlog. unfold getMediaStream.
    change (budget defaults) with (S (S 3)).
    remember (S 3) as fuel eqn:Hfuel.
    cbn [getMediaStream_fuel]. rewrite Hsup. unfold getUserMedia.
    cbn [negb defaults tryAudioOnly tryVideoOnly retryAttempt Z.ltb Z.compare app].
    repeat match goal with
           | |- context [length (requests ?x)] =>
               let v := eval vm_compute in (length (requests x)) in
               change (length (requests x)) with v
           end.
    destruct (Hfail 0%nat basicConstraints) as (e1 & -> & _).
    destruct (Hfail 1%nat detailedConstraints) as (e2 & -> & _).
    subst fuel.
    match goal with
    | |- context [getMediaStream_fuel (S 3) ?e ?o ?l] =>
        destruct (audio_call_requests 3 e o l Hsup eq_refl) as [rest Hrest];
          [simpl; lia|];
        destruct (getMediaStream_fuel (S 3) e o l) as [c' l'] eqn:Hcall
    end.
    exists rest. exact Hrest. }
  destruct Hreq as [rest Hrest]. exists rest. split; [reflexivity|].
  now rewrite Hlog.
Qed.

Lemma C2_fallback_reaches_audio_only_witness :
  exists err log rest,
    getMediaStream (browserWith busyDevice) defaults = (Thrown err, log)
    /\ requests log
       = basicConstraints :: detailedConstraints :: audioOnlyConstraints :: rest.
Proof.
  apply (C2_fallback_reaches_audio_only (browserWith busyDevice)).
  - reflexivity.
  - intros n c. eexists. split; reflexivity.
Defined.

(** C2 (as stated) fails: against a device that never satisfies the
    constraints the run asks for the reduced resolution only after audio
    only, goes round the two until the retry limit, and throws without ever
    asking for video only; against a device that is always busy it throws
    right after the audio-only request. *)
Lemma C2_counterexample :
  (alwaysFails (browserWith pickyDevice) overConstrained
   /\ (exists err,
         fst (getMediaStream (browserWith pickyDevice) defaults) = Thrown err)
   /\ requests (snd (getMediaStream (browserWith pickyDevice) defaults))
      = [basicConstraints; detailedConstraints;
         audioOnlyConstraints; lowerQualityConstraints;
         audioOnlyConstraints; lowerQualityConstraints;
         audioOnlyConstraints; lowerQualityConstraints]
   /\ videoOnlyConstraints
        ∉ requests (snd (getMediaStream (browserWith pickyDevice) defaults)))
  /\
  (alwaysFails (browserWith busyDevice) deviceBusy
   /\ (exists err,
         fst (getMediaStream (browserWith busyDevice) defaults) = Thrown err)
   /\ requests (snd (getMediaStream (browserWith busyDevice) defaults))
      = [basicConstraints; detailedConstraints; audioOnlyConstraints]).
Proof.
  split.
  - split; [intros n c; eexists; split; reflexivity|].
    split; [eexists; reflexivity|].
    split; [reflexivity|].
    intros H. apply list_elem_of_In in H. vm_compute in H.
    intuition discriminate.
  - split; [intros n c; eexists; split; reflexivity|].
    split; [eexists; reflexivity | reflexivity].
Qed.

End MediaClaims.

(** ** Media objects and the participants array *)

Section SessionFacts.
Import Session.

(** Writing a field a record already has gives the record back. *)
Lemma set_participants_same (h : Hook) : set_participants (participants h) h = h.
Proof. now destruct h. Qed.

Lemma filter_all {A} (f : A -> bool) (l : list A) :
  (forall x, x ∈ l -> f x = true) -> List.filter f l = l.
Proof.
  induction l as [|a l IH]; intros H; [reflexivity|].
  simpl. rewrite (H a) by left. f_equal. apply IH. intros x Hx. apply H. now right.
Qed.

Lemma dropId_absent participantId (h : Hook) :
  (forall p, p ∈ participants h -> Participant.id p <> participantId) ->
  dropId participantId h = h.
Proof.
  intros H. unfold dropId. rewrite filter_all; [apply set_participants_same|].
  intros p Hp. apply negb_true_iff. apply String.eqb_neq. now apply H.
Qed.

Lemma dropId_participants participantId (h : Hook) (p : Participant.t) :
  p ∈ participants (dropId participantId h)
  <-> p ∈ participants h /\ Participant.id p <> participantId.
Proof.
  unfold dropId. simpl. rewrite !list_elem_of_In, List.filter_In.
  rewrite negb_true_iff, String.eqb_neq. reflexivity.
Qed.

(** Tracks. *)
Lemma foldr_alter_out (f : Track -> Track) (ids : list nat) (ts : gmap nat Track) t :
  t ∉ ids -> foldr (fun i m => alter f i m) ts ids !! t = ts !! t.
Proof.
  induction ids as [|i ids IH]; intros Hn; [reflexivity|].
  apply not_elem_of_cons in Hn as [Hne Hn]. simpl.
  rewrite lookup_alter_ne by congruence. now apply IH.
Qed.

Lemma foldr_alter_is_Some (f : Track -> Track) (ids : list nat) (ts : gmap nat Track) t :
  is_Some (foldr (fun i m => alter f i m) ts ids !! t) <-> is_Some (ts !! t).
Proof.
  induction ids as [|i ids IH]; [reflexivity|]. simpl.
  destruct (decide (i = t)) as [->|Hne].
  - rewrite lookup_alter_eq, <- IH. apply fmap_is_Some.
  - now rewrite lookup_alter_ne.
Qed.

Lemma alter_is_Some (f : Track -> Track) (i : nat) (ts : gmap nat Track) t :
  is_Some (alter f i ts !! t) <-> is_Some (ts !! t).
Proof. exact (foldr_alter_is_Some f [i] ts t). Qed.

(** A field that [f] leaves alone is left alone by the whole loop. *)
Lemma foldr_alter_field {B} (g : Track -> B) (f : Track -> Track)
    (ids : list nat) (ts : gmap nat Track) t :
  (forall x, g (f x) = g x) ->
  g <$> foldr (fun i m => alter f i m) ts ids !! t = g <$> ts !! t.
Proof.
  intros Hg. induction ids as [|i ids IH]; [reflexivity|]. simpl.
  destruct (decide (i = t)) as [->|Hne].
  - rewrite lookup_alter_eq, <- IH.
    destruct (foldr _ ts ids !! t); simpl; [now rewrite Hg | reflexivity].
  - now rewrite lookup_alter_ne.
Qed.

(** A field that [f] sets to [b] holds [b] on every track visited. *)
Lemma foldr_alter_in {B} (g : Track -> B) (b : B) (f : Track -> Track)
    (ids : list nat) (ts : gmap nat Track) t :
  (forall x, g (f x) = b) -> t ∈ ids ->
  g <$> foldr (fun i m => alter f i m) ts ids !! t = (fun _ => b) <$> ts !! t.
Proof.
  intros Hg. induction ids as [|i ids IH]; intros Hin; [now apply elem_of_nil in Hin|].
  simpl. destruct (decide (i = t)) as [->|Hne].
  - rewrite lookup_alter_eq.
    pose proof (foldr_alter_is_Some f ids ts t) as Hs.
    destruct (foldr _ ts ids !! t) eqn:E1, (ts !! t) eqn:E2; simpl;
      try reflexivity; try (now rewrite Hg).
    + destruct Hs as [Hs _]. destruct Hs; [eauto | discriminate].
    + destruct Hs as [_ Hs]. destruct Hs; [eauto | discriminate].
  - rewrite lookup_alter_ne by assumption. apply IH.
    apply elem_of_cons in Hin as [->|]; [contradiction | assumption].
Qed.

Lemma hasKind_forEachTrack f ids hp k t :
  (forall x, kind (f x) = kind x) ->
  hasKind (forEachTrack f ids hp) k t = hasKind hp k t.
Proof.
  intros Hk. unfold hasKind, forEachTrack. simpl.
  now rewrite (foldr_alter_field kind f ids (tracks hp) t Hk).
Qed.

Lemma getTracks_forEachTrack f ids hp s :
  getTracks s (forEachTrack f ids hp) = getTracks s hp.
Proof. reflexivity. Qed.

Lemma filter_ext_in {A} (f g : A -> bool) (l : list A) :
  (forall x, f x = g x) -> List.filter f l = List.filter g l.
Proof. intros H. induction l as [|a l IH]; simpl; [reflexivity|]. now rewrite H, IH. Qed.

Lemma getAudioTracks_forEachTrack f ids hp s :
  (forall x, kind (f x) = kind x) ->
  getAudioTracks s (forEachTrack f ids hp) = getAudioTracks s hp.
Proof.
  intros Hk. unfold getAudioTracks. rewrite getTracks_forEachTrack.
  apply filter_ext_in. intros t. now apply hasKind_forEachTrack.
Qed.

Lemma getVideoTracks_forEachTrack f ids hp s :
  (forall x, kind (f x) = kind x) ->
  getVideoTracks s (forEachTrack f ids hp) = getVideoTracks s hp.
Proof.
  intros Hk. unfold getVideoTracks. rewrite getTracks_forEachTrack.
  apply filter_ext_in. intros t. now apply hasKind_forEachTrack.
Qed.

Lemma audio_track_exists s hp t :
  t ∈ getAudioTracks s hp ->
  t ∈ getTracks s hp /\ exists tr, tracks hp !! t = Some tr /\ kind tr = AudioKind.
Proof.
  unfold getAudioTracks. rewrite !list_elem_of_In, List.filter_In.
  intros [Hin Hk]. split; [assumption|]. unfold hasKind in Hk.
  apply bool_decide_eq_true in Hk. destruct (tracks hp !! t) as [tr|]; [|discriminate].
  exists tr. split; [reflexivity|]. now injection Hk.
Qed.

Lemma video_track_exists s hp t :
  t ∈ getVideoTracks s hp ->
  t ∈ getTracks s hp /\ exists tr, tracks hp !! t = Some tr /\ kind tr = VideoKind.
Proof.
  unfold getVideoTracks. rewrite !list_elem_of_In, List.filter_In.
  intros [Hin Hk]. split; [assumption|]. unfold hasKind in Hk.
  apply bool_decide_eq_true in Hk. destruct (tracks hp !! t) as [tr|]; [|discriminate].
  exists tr. split; [reflexivity|]. now injection Hk.
Qed.

(** Allocation. *)
Lemma allocTracks_spec ks : forall n ts ids ts',
  allocTracks ks n ts = (ids, ts') ->
  ids = seq n (length ks)
  /\ (forall t, (t < n)%nat -> ts' !! t = ts !! t)
  /\ (forall t, (n + length ks <= t)%nat -> ts' !! t = ts !! t)
  /\ (forall t, t ∈ ids -> exists k, ts' !! t = Some (freshTrack k)).
Proof.
  induction ks as [|k ks IH]; intros n ts ids ts' H; simpl in H.
  - injection H as <- <-. repeat split; auto. intros t Ht. now apply elem_of_nil in Ht.
  - destruct (allocTracks ks (S n) (<[n:=freshTrack k]> ts)) as [ids0 ts0] eqn:E.
    injection H as <- <-.
    destruct (IH _ _ _ _ E) as (Hids & Hlow & Hhigh & Hnew).
    repeat split.
    + simpl. now rewrite Hids.
    + intros t Ht. rewrite Hlow by lia. apply lookup_insert_ne. lia.
    + intros t Ht. simpl in Ht. rewrite Hhigh by lia. apply lookup_insert_ne. lia.
    + intros t [->|Ht]%elem_of_cons.
      * exists k. rewrite Hlow by lia. apply lookup_insert_eq.
      * now apply Hnew.
Qed.

End SessionFacts.

(** ** The hooks: removal, peer errors, screen sharing *)

Section HookClaims.
Import Session.

(** C6.  Removing an id that is neither in the participants array nor in the
    connection map leaves the hook exactly as it was (the function has no
    failing path); in the enhanced hook, which first tells the room, the
    array and the map are likewise untouched. *)
Theorem C6_remove_unknown_is_noop (props : Props) (participantId : string)
    (h : Hook) :
  (forall p, p ∈ participants h -> Participant.id p <> participantId) ->
  peerConnections h !! participantId = None ->
  HookJS.removeParticipant participantId h = h
  /\ participants (Enhanced.removeParticipant props participantId h)
     = participants h
  /\ peerConnections (Enhanced.removeParticipant props participantId h)
     = peerConnections h.
Proof.
  intros Hp Hc. split.
  - unfold HookJS.removeParticipant. rewrite dropId_absent by assumption.
    now rewrite Hc.
  - unfold Enhanced.removeParticipant.
    assert (Hd : dropId participantId
                   (signal {| type := "remove-participant";
                              senderId := Some (userId props);
                              receiverId := None;
                              payload := RemovedId participantId |} h)
                 = signal {| type := "remove-participant";
                             senderId := Some (userId props);
                             receiverId := None;
                             payload := RemovedId participantId |} h).
    { apply dropId_absent. exact Hp. }
    rewrite Hd. simpl. rewrite Hc. split; reflexivity.
Qed.

Lemma C6_remove_unknown_is_noop_witness :
  let h := HookJS.initResolved me [AudioKind; VideoKind] (mount me) in
  HookJS.removeParticipant "ghost" h = h
  /\ participants (Enhanced.removeParticipant me "ghost" h) = participants h
  /\ peerConnections (Enhanced.removeParticipant me "ghost" h)
     = peerConnections h.
Proof.
  apply (C6_remove_unknown_is_noop me "ghost").
  - vm_compute. intros p Hp. apply list_elem_of_singleton in Hp. subst p.
    discriminate.
  - reflexivity.
Defined.

(** C8.  The error handler of the peer created for [peerId] deletes the
    connection record of [peerId] and the participant entries with that id,
    keeps every other record and every other entry (in order), and does
    nothing else: no [Peer] object is built, no signal is sent and no method
    of a peer is called, so nothing is re-negotiated. *)
Theorem C8_peer_error_drops_that_peer_only (peerId : string) (err : JsError)
    (h : Hook) :
  let h' := Enhanced.onError peerId err h in
  peerConnections h' !! peerId = None
  /\ (forall other, other <> peerId ->
        peerConnections h' !! other = peerConnections h !! other)
  /\ (forall p, p ∈ participants h'
                <-> p ∈ participants h /\ Participant.id p <> peerId)
  /\ participants h'
     = List.filter (fun p => negb (String.eqb (Participant.id p) peerId))
         (participants h)
  /\ peers h' = peers h
  /\ signalled h' = signalled h
  /\ peerCalls h' = peerCalls h.
Proof.
  intros h'. subst h'. unfold Enhanced.onError.
  split; [apply lookup_delete_eq|].
  split; [intros other Hne; now apply lookup_delete_ne|].
  split.
  { intros p.
    exact (dropId_participants peerId
             (set_peerConnections (delete peerId (peerConnections h)) h) p). }
  repeat split.
Qed.

(** The [close] handler does the same. *)
Lemma onClose_onError (peerId : string) (err : JsError) (h : Hook) :
  Enhanced.onClose peerId h = Enhanced.onError peerId err h.
Proof. reflexivity. Qed.

(** Starting a share stores the new stream and raises the flag. *)
Lemma share_started (h : Hook) (capture : Capture) :
  isScreenSharing h = false ->
  let started := HookJS.toggleScreenShare (Shared capture) h in
  isScreenSharing started = true
  /\ screenStream started = Some (nextStream (heap h))
  /\ localStreamRef started = localStreamRef h
  /\ getTracks (nextStream (heap h)) (heap started)
     = seq (nextTrack (heap h)) (length capture)
  /\ forall t, t ∈ seq (nextTrack (heap h)) (length capture) ->
       is_Some (tracks (heap started) !! t).
Proof.
  intros Hoff. unfold HookJS.toggleScreenShare, HookJS.toggleScreenShare_of.
  rewrite Hoff. cbn [negb]. unfold newStream.
  destruct (allocTracks capture (nextTrack (heap h)) (tracks (heap h)))
    as [ids ts] eqn:Halloc.
  destruct (allocTracks_spec _ _ _ _ _ Halloc) as (Hids & _ & _ & Hnew).
  match goal with
  | |- context [match ?l with [] => _ | _ :: _ => _ end] => destruct l
  end; simpl;
    (repeat split; try reflexivity;
     [ unfold getTracks; simpl; rewrite lookup_insert_eq; simpl; exact Hids
     | intros t Ht; rewrite <- Hids in Ht;
       rewrite ?alter_is_Some, ?foldr_alter_is_Some;
       destruct (Hnew t Ht) as [k Hk]; eauto ]).
Qed.

(** Through the share button the round trip holds.  From a state with a
    camera stream and no share running, starting a share and then stopping
    it, each time through the callback of the latest render, leaves
    [isScreenSharing] false and no stored screen stream, gives every entry
    of the local user [isScreenSharing = false] and the camera stream again,
    and leaves every track of the display stream ended. *)
Lemma share_start_stop_restores (h : Hook) (cam : nat) (capture : Capture)
    (next : DisplayOutcome) :
  localStreamRef h = Some cam ->
  isScreenSharing h = false ->
  let started := HookJS.toggleScreenShare (Shared capture) h in
  let stopped := HookJS.toggleScreenShare next started in
  isScreenSharing started = true
  /\ isScreenSharing stopped = false
  /\ screenStream stopped = None
  /\ (forall p, p ∈ participants stopped ->
        Participant.isCurrentUser p = true ->
        Participant.isScreenSharing p = false /\ Participant.stream p = Some cam)
  /\ length (getTracks (nextStream (heap h)) (heap started)) = length capture
  /\ (forall t, t ∈ getTracks (nextStream (heap h)) (heap started) ->
        ended <$> tracks (heap stopped) !! t = Some true).
Proof.
  intros Hcam Hoff started stopped.
  destruct (share_started h capture Hoff) as (Hon & Hscr & Href & Htracks & Hlive).
  fold started in Hon, Hscr, Href, Htracks, Hlive.
  rewrite Hcam in Href.
  assert (Hstop : stopped = HookJS.toggleScreenShare_of true next started).
  { unfold stopped, HookJS.toggleScreenShare. now rewrite Hon. }
  clearbody started. rewrite Hstop. clear Hstop stopped.
  unfold HookJS.toggleScreenShare_of. cbn [negb]. rewrite Hscr.
  cbn [localStreamRef set_screenStream set_heap]. rewrite Href.
  split; [assumption|]. split; [reflexivity|]. split; [reflexivity|].
  split; [|split].
  - intros p Hp Hlocal. cbn in Hp.
    apply list_elem_of_In, in_map_iff in Hp as (p0 & Hp0 & _).
    destruct (Participant.isCurrentUser p0) eqn:Hp0'.
    + subst p. split; reflexivity.
    + subst p. congruence.
  - rewrite Htracks. apply length_seq.
  - intros t Ht. cbn.
    rewrite (foldr_alter_in ended true stop _ _ t (fun _ => eq_refl) Ht).
    rewrite Htracks in Ht. destruct (Hlive t Ht) as [tr ->]. reflexivity.
Qed.

Lemma share_start_stop_restores_example :
  let h := HookJS.initResolved me [AudioKind; VideoKind] (mount me) in
  let started := HookJS.toggleScreenShare (Shared [VideoKind]) h in
  let stopped := HookJS.toggleScreenShare (Shared [VideoKind]) started in
  isScreenSharing started = true
  /\ isScreenSharing stopped = false
  /\ screenStream stopped = None
  /\ (forall p, p ∈ participants stopped ->
        Participant.isCurrentUser p = true ->
        Participant.isScreenSharing p = false /\ Participant.stream p = Some 0%nat)
  /\ length (getTracks (nextStream (heap h)) (heap started)) = 1%nat
  /\ (forall t, t ∈ getTracks (nextStream (heap h)) (heap started) ->
        ended <$> tracks (heap stopped) !! t = Some true).
Proof.
  apply (share_start_stop_restores
           (HookJS.initResolved me [AudioKind; VideoKind] (mount me))
           0%nat [VideoKind] (Shared [VideoKind])).
  - reflexivity.
  - reflexivity.
Defined.

(** Whatever the state and whatever the browser answers, the callback of a
    render that saw no share never ends a share that is running. *)
Lemma stale_toggleScreenShare_keeps_sharing (h : Hook)
    (display : DisplayOutcome) :
  isScreenSharing h = true ->
  isScreenSharing (HookJS.toggleScreenShare_of false display h) = true.
Proof.
  intros Hon. unfold HookJS.toggleScreenShare_of. cbn [negb].
  destruct display as [capture | err]; [|exact Hon].
  rewrite (surjective_pairing (newStream capture (heap h))).
  cbn -[newStream forEachTrack getAudioTracks getVideoTracks].
  now destruct (getVideoTracks _ _).
Qed.

(** C7 at the stop the browser offers.  A share is started on a camera
    stream; the user ends it with the browser's own control: the display
    track ends and its [onended] handler runs, which is the
    [toggleScreenShare] of the render that started the share and so saw
    [isScreenSharing = false].  That call asks for a display capture again.
    Refused, it leaves the hook sharing, the local entry on the ended
    display stream, and an error; granted, it leaves the hook sharing a
    second display stream.  Only the callback of a later render stops the
    share. *)
Theorem C7_browser_stop_restarts_share :
  let h := HookJS.initResolved me [AudioKind; VideoKind] (mount me) in
  let started := HookJS.toggleScreenShare_of false (Shared [VideoKind]) h in
  let gone :=
    set_heap (forEachTrack stop (getTracks 1 (heap started)) (heap started))
      started in
  let denied := {| err_name := "NotAllowedError";
                   err_message := "Permission denied" |} in
  let refused := HookJS.toggleScreenShare_of false (Refused denied) gone in
  let granted :=
    HookJS.toggleScreenShare_of false (Shared [VideoKind]) gone in
  let button := HookJS.toggleScreenShare_of true (Refused denied) gone in
  (localStreamRef h = Some 0%nat /\ isScreenSharing h = false)
  /\ (isScreenSharing started = true /\ screenStream started = Some 1%nat
      /\ getTracks 1 (heap started) = [2%nat]
      /\ onended <$> tracks (heap started) !! 2%nat = Some true)
  /\ (isScreenSharing refused = true
      /\ map Participant.isScreenSharing (currentUsers refused) = [true]
      /\ map Participant.stream (currentUsers refused) = [Some 1%nat]
      /\ error refused = Some HookJS.shareFailed)
  /\ (isScreenSharing granted = true
      /\ screenStream granted = Some 2%nat
      /\ map Participant.stream (currentUsers granted) = [Some 2%nat]
      /\ ended <$> tracks (heap granted) !! 3%nat = Some false)
  /\ (isScreenSharing button = false
      /\ map Participant.stream (currentUsers button) = [Some 0%nat]).
Proof.
  cbv zeta.
  repeat match goal with |- _ /\ _ => split end; vm_compute; reflexivity.
Qed.

End HookClaims.

(** ** Exactly one local entry *)

Section LocalEntry.
Import Session.

Variable uid : string.

Lemma soleLocal_map (test : Participant.t -> bool)
    (change : Participant.t -> Participant.t) (l : list Participant.t) :
  (forall p, Participant.isCurrentUser (change p) = Participant.isCurrentUser p) ->
  (forall p, Participant.id (change p) = Participant.id p) ->
  soleLocal uid l ->
  soleLocal uid (map (fun p => if test p then change p else p) l).
Proof.
  intros Hcu Hid [Hone Hids]. split.
  - rewrite <- Hone. clear Hone Hids.
    induction l as [|a l IH]; [reflexivity|]. simpl.
    assert (Ha : Participant.isCurrentUser (if test a then change a else a)
                 = Participant.isCurrentUser a) by (destruct (test a); auto).
    rewrite Ha. destruct (Participant.isCurrentUser a); simpl; now rewrite IH.
  - intros p Hp Hlocal.
    apply list_elem_of_In, in_map_iff in Hp as (p0 & <- & Hp0).
    apply list_elem_of_In in Hp0.
    destruct (test p0).
    + rewrite Hid. apply Hids; [assumption|]. now rewrite <- Hcu.
    + now apply Hids.
Qed.

Lemma soleLocal_drop (x : string) (l : list Participant.t) :
  x <> uid -> soleLocal uid l ->
  soleLocal uid
    (List.filter (fun p => negb (String.eqb (Participant.id p) x)) l).
Proof.
  intros Hx [Hone Hids]. split.
  - rewrite <- Hone. clear Hone.
    induction l as [|a l IH]; [reflexivity|]. simpl.
    assert (IH' : length (List.filter Participant.isCurrentUser
                    (List.filter (fun p => negb (String.eqb (Participant.id p) x)) l))
                  = length (List.filter Participant.isCurrentUser l)).
    { apply IH. intros p Hp. apply Hids. now right. }
    destruct (Participant.isCurrentUser a) eqn:Ha.
    + assert (Hkeep : negb (String.eqb (Participant.id a) x) = true).
      { apply negb_true_iff, String.eqb_neq.
        rewrite (Hids a) by (left || assumption). congruence. }
      rewrite Hkeep. simpl. rewrite Ha. simpl. now rewrite IH'.
    + destruct (negb _); simpl; rewrite ?Ha; exact IH'.
  - intros p Hp. apply Hids.
    apply list_elem_of_In, List.filter_In in Hp as [Hp _].
    now apply list_elem_of_In.
Qed.

Lemma soleLocal_app (r : Participant.t) (l : list Participant.t) :
  Participant.isCurrentUser r = false -> soleLocal uid l ->
  soleLocal uid (l ++ [r]).
Proof.
  intros Hr [Hone Hids]. split.
  - rewrite List.filter_app, length_app. simpl. rewrite Hr. simpl. lia.
  - intros p [Hp | ->%list_elem_of_singleton]%elem_of_app Hlocal.
    + now apply Hids.
    + congruence.
Qed.

Lemma soleLocal_single (p : Participant.t) :
  Participant.isCurrentUser p = true -> Participant.id p = uid ->
  soleLocal uid [p].
Proof.
  intros Hcu Hid. split.
  - simpl. now rewrite Hcu.
  - intros q ->%list_elem_of_singleton _. assumption.
Qed.

(** [simulateOtherParticipants] keeps the first local entry and none of the
    others. *)
Lemma soleLocal_find (l fakes : list Participant.t) :
  (forall p, p ∈ fakes -> Participant.isCurrentUser p = false) ->
  soleLocal uid l ->
  soleLocal uid
    (match List.find Participant.isCurrentUser l with
     | Some currentUser => currentUser :: fakes
     | None => fakes
     end).
Proof.
  intros Hfakes [Hone Hids].
  assert (Hnone : List.filter Participant.isCurrentUser fakes = []).
  { clear -Hfakes. induction fakes as [|a l IH]; [reflexivity|]. simpl.
    rewrite (Hfakes a) by left. apply IH. intros p Hp. apply Hfakes. now right. }
  destruct (List.find Participant.isCurrentUser l) as [cu|] eqn:Hfind.
  - apply List.find_some in Hfind as [Hin Hcu]. split.
    + simpl. rewrite Hcu, Hnone. reflexivity.
    + intros p [->|Hp]%elem_of_cons Hlocal.
      * apply Hids; [now apply list_elem_of_In | assumption].
      * rewrite (Hfakes p Hp) in Hlocal. discriminate.
  - exfalso. clear -Hone Hfind.
    induction l as [|a l IH]; [discriminate|]. simpl in *.
    destruct (Participant.isCurrentUser a); [discriminate | auto].
Qed.

End LocalEntry.

Section LocalEntryClaims.
Import Session.

Ltac participants_step :=
  first
    [ assumption
    | apply soleLocal_map; [intros ?; reflexivity | intros ?; reflexivity | assumption]
    | apply soleLocal_app; [reflexivity | assumption]
    | apply soleLocal_single; reflexivity
    | apply soleLocal_drop; [congruence | assumption] ].

(** Case analysis on everything an operation branches on. *)
Ltac branches :=
  repeat (cbn;
          match goal with
          | |- context [match ?x with _ => _ end] => destruct x eqn:?
          end);
  cbn.

(** Every event of the enhanced hook that does not remove the local id keeps
    the array with exactly one local entry. *)
Lemma enhanced_react_soleLocal (props : Props) (e : Enhanced.Event) (h : Hook) :
  Enhanced.removes e <> Some (userId props) ->
  soleLocal (userId props) (participants h) ->
  soleLocal (userId props) (participants (Enhanced.react props e h)).
Proof.
  intros Hrem Hsole.
  destruct e; cbn [Enhanced.react Enhanced.removes] in *;
    unfold Enhanced.initResolved, Enhanced.initRejected, Enhanced.healthCheck_of,
      Enhanced.cleanup, Enhanced.toggleMic, Enhanced.toggleMic_of,
      Enhanced.micAcquired, Enhanced.toggleCamera, Enhanced.toggleCamera_of,
      Enhanced.cameraAcquired, Enhanced.toggleScreenShare_of,
      Enhanced.removeParticipant, Enhanced.signalCallback, Enhanced.createPeer,
      Enhanced.handleSignals, Enhanced.onStream, Enhanced.onClose,
      Enhanced.onError, newStream;
    branches; participants_step.
Qed.

Lemma enhanced_play_soleLocal (props : Props) (es : list Enhanced.Event) :
  forall h,
  Forall (fun e => Enhanced.removes e <> Some (userId props)) es ->
  soleLocal (userId props) (participants h) ->
  soleLocal (userId props) (participants (Enhanced.play props es h)).
Proof.
  induction es as [|e es IH]; intros h Hes Hsole; [assumption|].
  apply Forall_cons in Hes as [He Hes]. simpl. apply IH; [assumption|].
  now apply enhanced_react_soleLocal.
Qed.

(** The same for the JavaScript hook. *)
Lemma js_react_soleLocal (uid : string) (e : HookJS.Event) (h : Hook) :
  HookJS.keeps uid e ->
  soleLocal uid (participants h) ->
  soleLocal uid (participants (HookJS.react e h)).
Proof.
  intros Hkeep Hsole.
  destruct e; cbn [HookJS.react HookJS.keeps] in *;
    unfold HookJS.initResolved, HookJS.initRejected, HookJS.cleanup,
      HookJS.toggleMic, HookJS.toggleMic_of, HookJS.toggleCamera,
      HookJS.toggleCamera_of, HookJS.toggleScreenShare_of,
      HookJS.removeParticipant, HookJS.simulateOtherParticipants, newStream;
    try (branches; participants_step).
  - (* initLocalStream *)
    branches; try assumption;
      (apply soleLocal_single; [reflexivity | exact Hkeep]).
  - (* simulateOtherParticipants *)
    destruct fake as [capture|].
    + destruct (allocTracks _ _ _). cbn.
      apply soleLocal_find; [|assumption].
      intros p Hp. apply list_elem_of_In in Hp. simpl in Hp.
      destruct Hp as [<-|[<-|[]]]; reflexivity.
    + cbn. apply soleLocal_find; [|assumption].
      intros p Hp. apply list_elem_of_In in Hp. simpl in Hp.
      destruct Hp as [<-|[<-|[]]]; reflexivity.
Qed.

Lemma js_play_soleLocal (uid : string) (es : list HookJS.Event) :
  forall h,
  Forall (HookJS.keeps uid) es ->
  soleLocal uid (participants h) ->
  soleLocal uid (participants (HookJS.play es h)).
Proof.
  induction es as [|e es IH]; intros h Hes Hsole; [assumption|].
  apply Forall_cons in Hes as [He Hes]. simpl. apply IH; [assumption|].
  now apply js_react_soleLocal.
Qed.

(** C5 (as amended).  After [initLocalStream] has succeeded, any sequence of
    events of the hook (toggles and their continuations, screen sharing,
    removals, relay callbacks, state-change signals, peer signal, stream,
    close and error events, health checks, re-initialisations) in which no
    removal and no peer close or error carries the local user's own id
    leaves the participants array with exactly one entry whose
    [isCurrentUser] is true.  This holds for the enhanced hook and for the
    JavaScript hook (whose events are the toggles, screen sharing, removals
    and the simulated participants). *)
Theorem C5_exactly_one_local_entry (props : Props) (h0 : Hook)
    (capture : Capture) (es : list Enhanced.Event) (js : list HookJS.Event) :
  mounted h0 = true ->
  Forall (fun e => Enhanced.removes e <> Some (userId props)) es ->
  Forall (HookJS.keeps (userId props)) js ->
  length (currentUsers
            (Enhanced.play props es (Enhanced.initResolved props capture h0)))
  = 1%nat
  /\ length (currentUsers
               (HookJS.play js (HookJS.initResolved props capture h0)))
     = 1%nat.
Proof.
  intros Hm Hes Hjs. split.
  - apply (enhanced_play_soleLocal props es _ Hes).
    unfold Enhanced.initResolved, newStream. destruct (allocTracks _ _ _).
    cbn. rewrite Hm. cbn. now apply soleLocal_single.
  - apply (js_play_soleLocal (userId props) js _ Hjs).
    unfold HookJS.initResolved, newStream. destruct (allocTracks _ _ _).
    cbn. rewrite Hm. cbn. now apply soleLocal_single.
Qed.

Lemma C5_exactly_one_local_entry_witness :
  length (currentUsers
            (Enhanced.play me
               [Enhanced.ToggleMic;
                Enhanced.PeerStream "bob" [AudioKind; VideoKind];
                Enhanced.RemoveParticipant "bob";
                Enhanced.PeerError "carol" (Error "Connection failed.")]
               (Enhanced.initResolved me [AudioKind; VideoKind] (mount me))))
  = 1%nat
  /\ length (currentUsers
               (HookJS.play
                  [HookJS.Simulate None; HookJS.ToggleCamera true me;
                   HookJS.RemoveParticipant "user1"]
                  (HookJS.initResolved me [AudioKind; VideoKind] (mount me))))
     = 1%nat.
Proof.
  apply (C5_exactly_one_local_entry me (mount me) [AudioKind; VideoKind]).
  - reflexivity.
  - repeat constructor; discriminate.
  - repeat constructor; discriminate.
Defined.

(** C5 (as stated) fails: [removeParticipant] called with the local user's
    own id removes the local entry, in both hooks. *)
Lemma C5_counterexample :
  let h := HookJS.initResolved me [AudioKind; VideoKind] (mount me) in
  let h' := Enhanced.initResolved me [AudioKind; VideoKind] (mount me) in
  length (currentUsers h) = 1%nat
  /\ length (currentUsers (HookJS.react (HookJS.RemoveParticipant "me") h))
     = 0%nat
  /\ length (currentUsers
               (Enhanced.react me (Enhanced.RemoveParticipant "me") h'))
     = 0%nat.
Proof. repeat split. Qed.

End LocalEntryClaims.

(** ** The microphone toggle *)

Section HeapFacts.
Import Session.

Lemma wfHeap_forEachTrack f ids hp : wfHeap hp -> wfHeap (forEachTrack f ids hp).
Proof.
  intros [Ht Hs]. split; simpl.
  - intros t Hsome. apply Ht. now apply foldr_alter_is_Some in Hsome.
  - exact Hs.
Qed.

Lemma newStream_fst capture hp : fst (newStream capture hp) = nextStream hp.
Proof. unfold newStream. now destruct (allocTracks _ _ _). Qed.

Lemma newStream_next capture hp :
  nextStream (snd (newStream capture hp)) = S (nextStream hp).
Proof. unfold newStream. now destruct (allocTracks _ _ _). Qed.

Lemma newStream_tracks capture hp :
  getTracks (nextStream hp) (snd (newStream capture hp))
  = seq (nextTrack hp) (length capture).
Proof.
  unfold newStream, getTracks.
  destruct (allocTracks _ _ _) as [ids ts] eqn:E. simpl.
  rewrite lookup_insert_eq. simpl.
  now destruct (allocTracks_spec _ _ _ _ _ E) as (-> & _).
Qed.

Lemma newStream_old_track capture hp t :
  (t < nextTrack hp)%nat ->
  tracks (snd (newStream capture hp)) !! t = tracks hp !! t.
Proof.
  intros Ht. unfold newStream.
  destruct (allocTracks _ _ _) as [ids ts] eqn:E. simpl.
  destruct (allocTracks_spec _ _ _ _ _ E) as (_ & Hlow & _). now apply Hlow.
Qed.

Lemma newStream_old_stream capture hp s :
  s <> nextStream hp ->
  streams (snd (newStream capture hp)) !! s = streams hp !! s.
Proof.
  intros Hs. unfold newStream. destruct (allocTracks _ _ _). simpl.
  now apply lookup_insert_ne.
Qed.

Lemma wfHeap_newStream capture hp : wfHeap hp -> wfHeap (snd (newStream capture hp)).
Proof.
  intros [Ht Hs]. unfold newStream.
  destruct (allocTracks _ _ _) as [ids ts] eqn:E. simpl.
  destruct (allocTracks_spec _ _ _ _ _ E) as (Hids & Hlow & Hhigh & Hnew).
  split; simpl.
  - intros t Hsome.
    destruct (decide (t < nextTrack hp + length capture)%nat); [assumption|].
    rewrite Hhigh in Hsome by lia. apply Ht in Hsome. lia.
  - intros s ids' Hlook. destruct (decide (s = nextStream hp)) as [->|Hne].
    + rewrite lookup_insert_eq in Hlook. injection Hlook as <-.
      split; [lia|]. intros t Hin. rewrite Hids in Hin.
      apply list_elem_of_In, in_seq in Hin. lia.
    + rewrite lookup_insert_ne in Hlook by congruence.
      destruct (Hs s ids' Hlook) as [Hlt Hin]. split; [lia|].
      intros t Hin'. specialize (Hin t Hin'). lia.
Qed.

(** An older stream looks the same after an allocation. *)
Lemma newStream_old_view capture hp s :
  wfHeap hp -> (s < nextStream hp)%nat ->
  getTracks s (snd (newStream capture hp)) = getTracks s hp
  /\ forall t, t ∈ getTracks s hp ->
       tracks (snd (newStream capture hp)) !! t = tracks hp !! t.
Proof.
  intros [Ht Hs] Hlt. unfold getTracks.
  rewrite newStream_old_stream by lia. split; [reflexivity|].
  intros t Hin. destruct (streams hp !! s) as [ids|] eqn:E; simpl in Hin.
  - apply newStream_old_track. destruct (Hs s ids E) as [_ Hin']. now apply Hin'.
  - now apply elem_of_nil in Hin.
Qed.

Lemma sameAudio_refl s hp : sameAudio s hp hp.
Proof. split; auto. Qed.

Lemma sameAudio_trans s hp1 hp2 hp3 :
  sameAudio s hp1 hp2 -> sameAudio s hp2 hp3 -> sameAudio s hp1 hp3.
Proof.
  intros [H1 H1'] [H2 H2']. split; [congruence|].
  intros t Ht. rewrite H2' by (now rewrite H1). now apply H1'.
Qed.

Lemma filter_ext_on {A} (f g : A -> bool) (l : list A) :
  (forall x, x ∈ l -> f x = g x) -> List.filter f l = List.filter g l.
Proof.
  induction l as [|a l IH]; intros H; simpl; [reflexivity|].
  rewrite (H a) by left. rewrite IH; [reflexivity|].
  intros x Hx. apply H. now right.
Qed.

Lemma sameAudio_newStream capture hp s :
  wfHeap hp -> (s < nextStream hp)%nat ->
  sameAudio s hp (snd (newStream capture hp)).
Proof.
  intros Hwf Hlt. destruct (newStream_old_view capture hp s Hwf Hlt) as [Hsame Hold].
  split.
  - unfold getAudioTracks. rewrite Hsame. apply filter_ext_on.
    intros t Ht. unfold hasKind. now rewrite Hold.
  - intros t [Ht _]%audio_track_exists. now rewrite Hold.
Qed.

(** A loop whose body keeps [kind] and [enabled]. *)
Lemma sameAudio_forEachTrack_keep f ids hp s :
  (forall x, kind (f x) = kind x) -> (forall x, enabled (f x) = enabled x) ->
  sameAudio s hp (forEachTrack f ids hp).
Proof.
  intros Hk He. split; [now apply getAudioTracks_forEachTrack|].
  intros t _. simpl. now apply foldr_alter_field.
Qed.

(** A loop over tracks none of which is an audio track of [s]. *)
Lemma sameAudio_forEachTrack_apart f ids hp s :
  (forall x, kind (f x) = kind x) ->
  (forall t, t ∈ ids -> t ∉ getAudioTracks s hp) ->
  sameAudio s hp (forEachTrack f ids hp).
Proof.
  intros Hk Hapart. split; [now apply getAudioTracks_forEachTrack|].
  intros t Ht. simpl. rewrite foldr_alter_out; [reflexivity|].
  intros Hin. now apply (Hapart t Hin).
Qed.

Lemma forEachTrack_enabled b ids hp t :
  t ∈ ids ->
  enabled <$> tracks (forEachTrack (setEnabled b) ids hp) !! t
  = (fun _ => b) <$> tracks hp !! t.
Proof. intros Ht. now apply (foldr_alter_in enabled b). Qed.

Lemma forEachTrack_out f ids hp t :
  t ∉ ids -> tracks (forEachTrack f ids hp) !! t = tracks hp !! t.
Proof. intros Ht. now apply foldr_alter_out. Qed.

Lemma video_not_audio s hp t :
  t ∈ getVideoTracks s hp -> t ∉ getAudioTracks s hp.
Proof.
  intros (_ & tr & Htr & Hk)%video_track_exists (_ & tr' & Htr' & Hk')%audio_track_exists.
  congruence.
Qed.

(** Audio tracks of an existing stream were allocated before. *)
Lemma audio_track_old s hp t :
  wfHeap hp -> t ∈ getAudioTracks s hp -> (t < nextTrack hp)%nat.
Proof.
  intros [Ht _] (_ & tr & Htr & _)%audio_track_exists. apply Ht. eauto.
Qed.

End HeapFacts.

Section MicFacts.
Import Session.

Lemma localAudio_map b (test : Participant.t -> bool)
    (change : Participant.t -> Participant.t) (l : list Participant.t) :
  (forall p, Participant.isCurrentUser (change p) = Participant.isCurrentUser p) ->
  (forall p, Participant.audioEnabled (change p) = Participant.audioEnabled p) ->
  localAudio b l ->
  localAudio b (map (fun p => if test p then change p else p) l).
Proof.
  intros Hcu Ha Hl p Hp Hlocal.
  apply list_elem_of_In, in_map_iff in Hp as (p0 & <- & Hp0).
  apply list_elem_of_In in Hp0. destruct (test p0).
  - rewrite Ha. apply Hl; [assumption|]. now rewrite <- Hcu.
  - now apply Hl.
Qed.

Lemma localAudio_set b b' (change : Participant.t -> Participant.t)
    (l : list Participant.t) :
  (forall p, Participant.audioEnabled (change p) = b') ->
  localAudio b l ->
  localAudio b'
    (map (fun p => if Participant.isCurrentUser p then change p else p) l).
Proof.
  intros Ha Hl p Hp Hlocal.
  apply list_elem_of_In, in_map_iff in Hp as (p0 & <- & Hp0).
  destruct (Participant.isCurrentUser p0) eqn:E; [apply Ha | congruence].
Qed.

Lemma localAudio_filter b (f : Participant.t -> bool) (l : list Participant.t) :
  localAudio b l -> localAudio b (List.filter f l).
Proof.
  intros Hl p Hp. apply Hl.
  apply list_elem_of_In, List.filter_In in Hp as [Hp _]. now apply list_elem_of_In.
Qed.

Lemma localAudio_find b (l fakes : list Participant.t) :
  (forall p, p ∈ fakes -> Participant.isCurrentUser p = false) ->
  localAudio b l ->
  localAudio b
    (match List.find Participant.isCurrentUser l with
     | Some currentUser => currentUser :: fakes
     | None => fakes
     end).
Proof.
  intros Hfakes Hl.
  assert (Hf : localAudio b fakes).
  { intros p Hp Hlocal. rewrite (Hfakes p Hp) in Hlocal. discriminate. }
  destruct (List.find Participant.isCurrentUser l) as [cu|] eqn:Hfind; [|assumption].
  apply List.find_some in Hfind as [Hin Hcu].
  intros p [->|Hp]%elem_of_cons Hlocal.
  - apply Hl; [now apply list_elem_of_In | assumption].
  - now apply Hf.
Qed.

Lemma fakeParticipants_remote fakeStream p :
  p ∈ HookJS.fakeParticipants fakeStream -> Participant.isCurrentUser p = false.
Proof.
  intros Hp. apply list_elem_of_In in Hp. simpl in Hp.
  destruct Hp as [<-|[<-|[]]]; reflexivity.
Qed.

(** Consistency carries over to a state with the same local stream and
    [isMicOn], the same audio tracks and flags, and local entries with the
    same [audioEnabled]. *)
Lemma micConsistent_transfer (h h' : Hook) :
  localStreamRef h' = localStreamRef h ->
  isMicOn h' = isMicOn h ->
  (forall s, localStreamRef h = Some s -> sameAudio s (heap h) (heap h')) ->
  (localAudio (isMicOn h) (participants h) ->
   localAudio (isMicOn h) (participants h')) ->
  micConsistent h -> micConsistent h'.
Proof.
  intros Href Hmic Hsame Hpart [HA HP]. split.
  - intros s t Hs Ht. rewrite Href in Hs. destruct (Hsame s Hs) as [Hl He].
    rewrite Hl in Ht. rewrite He, Hmic by assumption. now apply (HA s).
  - rewrite Hmic. now apply Hpart.
Qed.

Ltac wf_heap :=
  repeat first [ assumption
               | apply wfHeap_forEachTrack
               | apply wfHeap_newStream ].

(** Keep the heap operations folded while projecting fields. *)
Ltac project :=
  cbn -[Nat.ltb newStream forEachTrack getAudioTracks getVideoTracks getTracks
        HookJS.localEntry HookJS.fakeParticipants map_to_list].

Ltac project_in H :=
  cbn -[Nat.ltb newStream forEachTrack getAudioTracks getVideoTracks getTracks
        HookJS.localEntry HookJS.fakeParticipants map_to_list] in H.

(** Replace [let '(stream, hp) := newStream c hp0 in ...] by its two
    components. *)
Ltac pair_stream :=
  match goal with
  | |- context [newStream ?c ?hp] =>
      rewrite (surjective_pairing (newStream c hp)); rewrite newStream_fst
  end.

(** Every event of the JavaScript hook keeps the references in range. *)
Lemma js_react_wfHook (e : HookJS.Event) (h : Hook) :
  wfHook h -> wfHook (HookJS.react e h).
Proof.
  intros [Hwf Href].
  assert (Hnext : forall c s, localStreamRef h = Some s ->
            (s < nextStream (snd (newStream c (heap h))))%nat).
  { intros c s Hs. rewrite newStream_next. specialize (Href s Hs). lia. }
  assert (Hnew : forall c,
            (nextStream (heap h) < nextStream (snd (newStream c (heap h))))%nat).
  { intros c. rewrite newStream_next. lia. }
  destruct e; cbn [HookJS.react].
  - split; assumption.
  - split; assumption.
  - unfold HookJS.initResolved. pair_stream.
    destruct (negb (mounted _)); split; project; wf_heap.
    + apply Hnext.
    + intros s0 Hs0. replace s0 with (nextStream (heap h)) by congruence.
      apply Hnew.
  - unfold HookJS.initRejected.
    destruct (negb (mounted h)); [split; assumption|].
    destruct (_ <? 3); split; assumption.
  - unfold HookJS.cleanup, cleanupStream, destroyAll. project.
    destruct (localStreamRef h) as [s|] eqn:Hs; project;
      destruct (screenStream h); split; project; wf_heap;
      rewrite ?Hs; intros s0 Hs0; discriminate.
  - unfold HookJS.toggleMic_of.
    destruct (localStreamRef h) as [s|] eqn:Hs; [|split; [assumption | now rewrite Hs]].
    destruct (0 <? _)%nat; [|split; [assumption | now rewrite Hs]].
    split; project; wf_heap. rewrite Hs. intros s0 Hs0. apply Href. congruence.
  - unfold HookJS.toggleCamera_of.
    destruct (localStreamRef h) as [s|] eqn:Hs; [|split; [assumption | now rewrite Hs]].
    destruct (0 <? _)%nat; [|split; [assumption | now rewrite Hs]].
    split; project; wf_heap. rewrite Hs. intros s0 Hs0. apply Href. congruence.
  - unfold HookJS.toggleScreenShare_of. destruct seen; cbn [negb].
    + destruct (screenStream h); project;
        destruct (localStreamRef h) as [s|] eqn:Hs; split; project; wf_heap;
        rewrite ?Hs; intros s0 Hs0; (discriminate || (apply Href; congruence)).
    + destruct display; [|split; assumption]. pair_stream.
      match goal with
      | |- context [match ?l with [] => _ | _ :: _ => _ end] => destruct l
      end; split; project; wf_heap; apply Hnext.
  - unfold HookJS.simulateOtherParticipants. destruct fake as [c|].
    + pair_stream. split; project; wf_heap. apply Hnext.
    + split; assumption.
  - unfold HookJS.removeParticipant. project.
    destruct (peerConnections h !! participantId); split; assumption.
Qed.

(** The tracks of a stream just allocated are not audio tracks of an older
    stream. *)
Lemma new_tracks_apart capture hp s t :
  wfHeap hp -> (s < nextStream hp)%nat ->
  t ∈ getAudioTracks (nextStream hp) (snd (newStream capture hp)) ->
  t ∉ getAudioTracks s (snd (newStream capture hp)).
Proof.
  intros Hwf Hs [Ht _]%audio_track_exists Hold.
  rewrite newStream_tracks in Ht. apply list_elem_of_In, in_seq in Ht.
  destruct (sameAudio_newStream capture hp s Hwf Hs) as [Hsame _].
  rewrite Hsame in Hold. apply (audio_track_old s hp t Hwf) in Hold. lia.
Qed.

(** [toggleMic] on a stream with audio tracks writes the new state in all
    three places. *)
Lemma toggleMic_of_on (seen : bool) (props : Props) (h : Hook) (s : nat) :
  localStreamRef h = Some s ->
  getAudioTracks s (heap h) <> [] ->
  let h' := HookJS.toggleMic_of seen props h in
  isMicOn h' = negb seen
  /\ localStreamRef h' = Some s
  /\ getAudioTracks s (heap h') = getAudioTracks s (heap h)
  /\ (forall t, t ∈ getAudioTracks s (heap h) ->
        enabled <$> tracks (heap h') !! t = Some (negb seen))
  /\ localAudio (negb seen) (participants h')
  /\ map Participant.isCurrentUser (participants h')
     = map Participant.isCurrentUser (participants h).
Proof.
  intros Hs Hne. unfold HookJS.toggleMic_of. rewrite Hs.
  destruct (getAudioTracks s (heap h)) as [|a l] eqn:Ha; [contradiction|].
  change (0 <? length (a :: l))%nat with true. cbv iota. project.
  rewrite <- Ha.
  split; [reflexivity|]. split; [assumption|].
  split; [apply getAudioTracks_forEachTrack; reflexivity|].
  split; [|split].
  - intros t Ht.
    rewrite forEachTrack_enabled by assumption.
    apply audio_track_exists in Ht as (_ & tr & -> & _). reflexivity.
  - intros p Hp Hlocal.
    apply list_elem_of_In, in_map_iff in Hp as (p0 & <- & Hp0).
    destruct (Participant.isCurrentUser p0) eqn:E; [reflexivity | congruence].
  - rewrite map_map. apply map_ext. intros p.
    now destruct (Participant.isCurrentUser p) eqn:E.
Qed.

(** Every event of the JavaScript hook keeps the microphone state
    consistent. *)
Lemma js_react_micConsistent (e : HookJS.Event) (h : Hook) :
  wfHook h -> micConsistent h -> micConsistent (HookJS.react e h).
Proof.
  intros [Hwf Href] Hmc.
  destruct e; cbn [HookJS.react].
  - exact Hmc.
  - exact Hmc.
  - (* initLocalStream resolved *)
    unfold HookJS.initResolved. pair_stream.
    destruct (negb (mounted _)).
    + apply (micConsistent_transfer h); try reflexivity; [|auto|assumption].
      intros s Hs. project. apply sameAudio_newStream; auto.
    + project.
      set (hp := snd (newStream capture (heap h))).
      set (s' := nextStream (heap h)).
      set (A := getAudioTracks s' hp).
      set (hp1 := forEachTrack (setEnabled (initialAudioEnabled props)) A hp).
      assert (HA1 : getAudioTracks s' hp1 = A)
        by (apply getAudioTracks_forEachTrack; reflexivity).
      split; project.
      * intros s t Hs Ht. replace s with s' in * by congruence.
        rewrite getAudioTracks_forEachTrack in Ht by reflexivity.
        rewrite HA1 in Ht.
        rewrite forEachTrack_out.
        2:{ intros Hv. apply video_not_audio in Hv. apply Hv. now rewrite HA1. }
        unfold hp1. rewrite forEachTrack_enabled by assumption.
        pose proof Ht as Ht'. apply audio_track_exists in Ht' as (_ & tr & -> & _).
        simpl. f_equal. destruct A; [now apply elem_of_nil in Ht | reflexivity].
      * intros p ->%list_elem_of_singleton _. reflexivity.
  - (* initLocalStream rejected *)
    unfold HookJS.initRejected. destruct (negb (mounted h)); [assumption|].
    destruct (_ <? 3); exact Hmc.
  - (* cleanup *)
    destruct Hmc as [_ HP]. split.
    + intros s t Hs. exfalso. revert Hs.
      unfold HookJS.cleanup, destroyAll. project.
      destruct (localStreamRef h) eqn:E; project;
        destruct (screenStream h); project; rewrite ?E; discriminate.
    + assert (Hsame : participants (HookJS.cleanup h) = participants h
                      /\ isMicOn (HookJS.cleanup h) = isMicOn h).
      { unfold HookJS.cleanup, destroyAll. project.
        destruct (localStreamRef h); project; destruct (screenStream h);
          split; reflexivity. }
      destruct Hsame as [-> ->]. exact HP.
  - (* toggleMic *)
    destruct (localStreamRef h) as [s|] eqn:Hs.
    2:{ unfold HookJS.toggleMic_of. now rewrite Hs. }
    destruct (getAudioTracks s (heap h)) as [|a l] eqn:Ha.
    { unfold HookJS.toggleMic_of. now rewrite Hs, Ha. }
    destruct (toggleMic_of_on seen props h s Hs) as
      (Hmic & Href' & Hsame & Hflags & Hlocal & _); [now rewrite Ha|].
    split.
    + intros s0 t Hs0 Ht. rewrite Href' in Hs0.
      replace s0 with s in * by congruence.
      rewrite Hsame in Ht. rewrite Hmic. now apply Hflags.
    + rewrite Hmic. exact Hlocal.
  - (* toggleCamera *)
    unfold HookJS.toggleCamera_of.
    destruct (localStreamRef h) as [s|] eqn:Hs; [|assumption].
    destruct (0 <? _)%nat; [|assumption].
    apply (micConsistent_transfer h); try reflexivity; [| |assumption].
    + intros s0 Hs0. replace s0 with s in * by congruence. project.
      apply sameAudio_forEachTrack_apart; [reflexivity|].
      intros t Ht. now apply video_not_audio.
    + project. apply localAudio_map; reflexivity.
  - (* toggleScreenShare *)
    unfold HookJS.toggleScreenShare_of. destruct seen; cbn [negb].
    + apply (micConsistent_transfer h); [| | | |assumption].
      * project. destruct (screenStream h); project;
          destruct (localStreamRef h) eqn:E; project; now rewrite ?E.
      * project. destruct (screenStream h); project;
          destruct (localStreamRef h) eqn:E; reflexivity.
      * intros s Hs. project.
        destruct (screenStream h); project; rewrite ?Hs; project.
        -- apply sameAudio_forEachTrack_keep; reflexivity.
        -- apply sameAudio_refl.
      * project. destruct (screenStream h); project;
          destruct (localStreamRef h) eqn:E; project;
          auto; apply localAudio_map; reflexivity.
    + destruct display as [capture|]; [|exact Hmc]. pair_stream.
      set (hp := snd (newStream capture (heap h))).
      set (s' := nextStream (heap h)).
      assert (Hstep : forall s, localStreamRef h = Some s ->
                sameAudio s (heap h)
                  (forEachTrack (fun t => stop (setEnabled false t))
                     (getAudioTracks s' hp) hp)).
      { intros s Hs. eapply sameAudio_trans.
        - apply (sameAudio_newStream capture); auto.
        - apply sameAudio_forEachTrack_apart; [reflexivity|].
          intros t Ht. apply new_tracks_apart; auto. }
      match goal with
      | |- context [match ?l with [] => _ | _ :: _ => _ end] => destruct l
      end;
        (apply (micConsistent_transfer h); try reflexivity; [| |assumption];
         [ intros s Hs; project
         | project; apply localAudio_map; reflexivity ]).
      * now apply Hstep.
      * eapply sameAudio_trans; [now apply Hstep|].
        apply sameAudio_forEachTrack_keep; reflexivity.
  - (* simulateOtherParticipants *)
    unfold HookJS.simulateOtherParticipants. destruct fake as [c|].
    + pair_stream.
      apply (micConsistent_transfer h); try reflexivity; [| |assumption].
      * intros s Hs. project. apply sameAudio_newStream; auto.
      * project. apply localAudio_find. apply fakeParticipants_remote.
    + apply (micConsistent_transfer h); try reflexivity; [| |assumption].
      * intros s Hs. apply sameAudio_refl.
      * project. apply localAudio_find. apply fakeParticipants_remote.
  - (* removeParticipant *)
    unfold HookJS.removeParticipant. project.
    destruct (peerConnections h !! participantId);
      (apply (micConsistent_transfer h); try reflexivity; [| |assumption];
       [ intros s Hs; apply sameAudio_refl
       | project; apply localAudio_filter ]).
Qed.

Lemma js_reachable_consistent (h : Hook) :
  HookJS.Reachable h -> wfHook h /\ micConsistent h.
Proof.
  induction 1 as [props | e h _ [Hwf Hmc]].
  - split.
    + split; [split|]; simpl.
      * intros t [tr Ht]. now rewrite lookup_empty in Ht.
      * intros s ids Hs. now rewrite lookup_empty in Hs.
      * discriminate.
    + split; simpl.
      * discriminate.
      * intros p Hp. now apply elem_of_nil in Hp.
  - split; [now apply js_react_wfHook | now apply js_react_micConsistent].
Qed.

End MicFacts.

Section MicClaims.
Import Session.

Lemma filter_length_map (l1 l2 : list Participant.t) :
  map Participant.isCurrentUser l1 = map Participant.isCurrentUser l2 ->
  length (List.filter Participant.isCurrentUser l1)
  = length (List.filter Participant.isCurrentUser l2).
Proof.
  revert l2. induction l1 as [|a l1 IH]; intros [|b l2] H; try discriminate;
    [reflexivity|].
  simpl in *. injection H as Hab H. rewrite Hab.
  destruct (Participant.isCurrentUser b); simpl; auto.
Qed.

Lemma localAudio_flags b (l : list Participant.t) :
  localAudio b l ->
  map Participant.audioEnabled (List.filter Participant.isCurrentUser l)
  = repeat b (length (List.filter Participant.isCurrentUser l)).
Proof.
  intros Hl. induction l as [|a l IH]; [reflexivity|]. simpl.
  assert (IH' : map Participant.audioEnabled
                  (List.filter Participant.isCurrentUser l)
                = repeat b (length (List.filter Participant.isCurrentUser l))).
  { apply IH. intros p Hp. apply Hl. now right. }
  destruct (Participant.isCurrentUser a) eqn:E; [|assumption].
  simpl. rewrite IH'. f_equal. apply Hl; [left | assumption].
Qed.

(** C3 (as amended).  In every state the hook can reach in which the local
    stream exists and has an audio track, two successive calls of
    [toggleMic], each through the callback of the latest render (the
    component has rendered again after the first call), leave [isMicOn], the
    [enabled] flag of every audio track of the local stream, and the
    [audioEnabled] of the local entry as they were. *)
Theorem C3_toggleMic_twice_restores (props props' : Props) (h : Hook) (s : nat) :
  HookJS.Reachable h ->
  localStreamRef h = Some s ->
  getAudioTracks s (heap h) <> [] ->
  let twice := HookJS.toggleMic props' (HookJS.toggleMic props h) in
  isMicOn twice = isMicOn h
  /\ getAudioTracks s (heap twice) = getAudioTracks s (heap h)
  /\ (forall t, t ∈ getAudioTracks s (heap h) ->
        enabled <$> tracks (heap twice) !! t = enabled <$> tracks (heap h) !! t)
  /\ map Participant.audioEnabled (currentUsers twice)
     = map Participant.audioEnabled (currentUsers h).
Proof.
  intros Hreach Hs Haudio twice.
  destruct (js_reachable_consistent h Hreach) as [_ [HA HP]].
  unfold twice, HookJS.toggleMic.
  destruct (toggleMic_of_on (isMicOn h) props h s Hs Haudio)
    as (Hmic1 & Href1 & Hsame1 & Hflags1 & Hlocal1 & Hcu1).
  set (once := HookJS.toggleMic_of (isMicOn h) props h) in *.
  destruct (toggleMic_of_on (isMicOn once) props' once s Href1)
    as (Hmic2 & Href2 & Hsame2 & Hflags2 & Hlocal2 & Hcu2);
    [now rewrite Hsame1|].
  set (again := HookJS.toggleMic_of (isMicOn once) props' once) in *.
  rewrite Hmic1, negb_involutive in Hmic2, Hflags2, Hlocal2.
  split; [assumption|]. split; [congruence|]. split.
  - intros t Ht. rewrite Hflags2 by (now rewrite Hsame1).
    symmetry. now apply (HA s).
  - unfold currentUsers.
    rewrite (localAudio_flags _ _ Hlocal2), (localAudio_flags _ _ HP).
    f_equal. apply filter_length_map. congruence.
Qed.

Lemma C3_toggleMic_twice_restores_witness :
  let h := HookJS.react (HookJS.InitResolved me [AudioKind; VideoKind]) (mount me) in
  let twice := HookJS.toggleMic me (HookJS.toggleMic me h) in
  isMicOn twice = isMicOn h
  /\ getAudioTracks 0 (heap twice) = getAudioTracks 0 (heap h)
  /\ (forall t, t ∈ getAudioTracks 0 (heap h) ->
        enabled <$> tracks (heap twice) !! t = enabled <$> tracks (heap h) !! t)
  /\ map Participant.audioEnabled (currentUsers twice)
     = map Participant.audioEnabled (currentUsers h).
Proof.
  apply (C3_toggleMic_twice_restores me me
           (HookJS.react (HookJS.InitResolved me [AudioKind; VideoKind]) (mount me))
           0%nat).
  - apply HookJS.reach_react. apply HookJS.reach_mount.
  - reflexivity.
  - vm_compute. discriminate.
Defined.

(** C3 (as stated) fails: the callback computes the new state from the
    [isMicOn] its render saw.  Called twice in succession, with no render in
    between, it writes the same state twice: from a microphone that is on,
    the track, [isMicOn] and the local entry all end up off. *)
Lemma C3_counterexample :
  let h := HookJS.react (HookJS.InitResolved me [AudioKind; VideoKind])
             (mount me) in
  let toggleMic := HookJS.toggleMic_of (isMicOn h) me in
  let twice := toggleMic (toggleMic h) in
  HookJS.Reachable h
  /\ localStreamRef h = Some 0%nat
  /\ getAudioTracks 0 (heap h) = [0%nat]
  /\ (isMicOn h = true /\ isMicOn twice = false)
  /\ (enabled <$> tracks (heap h) !! 0%nat = Some true
      /\ enabled <$> tracks (heap twice) !! 0%nat = Some false)
  /\ (map Participant.audioEnabled (currentUsers h) = [true]
      /\ map Participant.audioEnabled (currentUsers twice) = [false]).
Proof.
  cbv zeta. split; [apply HookJS.reach_react, HookJS.reach_mount|].
  repeat split; vm_compute; reflexivity.
Qed.

(** The flags the toggle keeps in step need not be in step in the enhanced
    hook, whose initialisation sets [isMicOn] from the mere presence of an
    audio track: started muted, its local entry says [audioEnabled = false]
    while [isMicOn] is true, and two toggles leave the entry at true. *)
Lemma enhanced_toggle_twice_differs :
  let muted := {| roomId := "room"; userId := "me"; initialAudioEnabled := false;
                  initialVideoEnabled := true; userName := "Me" |} in
  let h := Enhanced.initResolved muted [AudioKind; VideoKind] (mount muted) in
  let twice := fst (Enhanced.toggleMic muted (fst (Enhanced.toggleMic muted h))) in
  map Participant.audioEnabled (currentUsers h) = [false]
  /\ map Participant.audioEnabled (currentUsers twice) = [true].
Proof. split; vm_compute; reflexivity. Qed.

(** Without an audio track the JavaScript [toggleMic] returns the state it
    was given; so does [toggleCamera] without a video track. *)
Lemma js_toggleMic_without_track (props : Props) (h : Hook) (s : nat) :
  localStreamRef h = Some s -> getAudioTracks s (heap h) = [] ->
  HookJS.toggleMic props h = h.
Proof.
  intros Hs Ha. unfold HookJS.toggleMic, HookJS.toggleMic_of. now rewrite Hs, Ha.
Qed.

Lemma js_toggleCamera_without_track (props : Props) (h : Hook) (s : nat) :
  localStreamRef h = Some s -> getVideoTracks s (heap h) = [] ->
  HookJS.toggleCamera props h = h.
Proof.
  intros Hs Ha. unfold HookJS.toggleCamera, HookJS.toggleCamera_of.
  now rewrite Hs, Ha.
Qed.

(** The TypeScript and the enhanced [toggleMic] start an audio-only
    acquisition in that situation. *)
Lemma sibling_toggleMic_acquires (props : Props) (h : Hook) (s : nat) :
  localStreamRef h = Some s -> getAudioTracks s (heap h) = [] ->
  isMicOn h = false ->
  HookTS.toggleMic h = (h, Some Media.audioOnly)
  /\ Enhanced.toggleMic props h = (h, Some Media.audioOnly).
Proof.
  intros Hs Ha Hoff.
  unfold HookTS.toggleMic, HookTS.toggleMic_of,
    Enhanced.toggleMic, Enhanced.toggleMic_of.
  now rewrite Hs, Ha, Hoff.
Qed.

(** The continuation of that acquisition in the TypeScript hook appends the
    new audio track to the local stream and touches none of the tracks the
    stream already had. *)
Lemma ts_micAcquired_adds (capture : Capture) (h : Hook) (s a : nat)
    (rest : list nat) :
  wfHook h -> localStreamRef h = Some s -> is_Some (streams (heap h) !! s) ->
  getAudioTracks (nextStream (heap h)) (snd (newStream capture (heap h)))
  = a :: rest ->
  let h' := HookTS.micAcquired capture h in
  getTracks s (heap h') = getTracks s (heap h) ++ [a]
  /\ (forall t, t ∈ getTracks s (heap h) ->
        tracks (heap h') !! t = tracks (heap h) !! t)
  /\ localStreamRef h' = Some s
  /\ isMicOn h' = true.
Proof.
  intros [Hwf Href] Hs [ids Hids] Ha.
  unfold HookTS.micAcquired.
  rewrite (surjective_pairing (newStream capture (heap h))), newStream_fst.
  cbn -[newStream getAudioTracks]. rewrite Hs, Ha. cbn -[newStream].
  destruct (newStream_old_view capture (heap h) s Hwf (Href s Hs)) as [Hview Hold].
  assert (Hnew : a ∉ ids).
  { intros Hin. destruct Hwf as [_ Hstreams].
    destruct (Hstreams s ids Hids) as [_ Hlt]. specialize (Hlt a Hin).
    assert (Hin' : a ∈ getAudioTracks (nextStream (heap h))
                      (snd (newStream capture (heap h))))
      by (rewrite Ha; left).
    apply audio_track_exists in Hin' as [Hin' _].
    rewrite newStream_tracks in Hin'.
    apply list_elem_of_In, in_seq in Hin'. lia. }
  repeat split.
  - unfold getTracks in *. cbn -[newStream].
    rewrite lookup_alter_eq.
    rewrite newStream_old_stream by (specialize (Href s Hs); lia).
    rewrite Hids. simpl. now rewrite bool_decide_eq_false_2.
  - exact Hold.
  - exact Hs.
Qed.

(** C4 on the JavaScript hook.  After an initialisation that fell back to a
    video-only stream, [isMicOn] is false and the local stream has no audio
    track; [toggleMic] then returns the state unchanged (no request, no
    track added), whereas the TypeScript and the enhanced [toggleMic] start
    an audio-only acquisition.  Likewise for [toggleCamera] after a fall
    back to audio only. *)
Theorem C4_js_toggle_does_not_acquire :
  let videoOnly := HookJS.initResolved me [VideoKind] (mount me) in
  let audioOnly := HookJS.initResolved me [AudioKind] (mount me) in
  (isMicOn videoOnly = false
   /\ getAudioTracks 0 (heap videoOnly) = []
   /\ HookJS.toggleMic me videoOnly = videoOnly
   /\ HookTS.toggleMic videoOnly = (videoOnly, Some Media.audioOnly)
   /\ Enhanced.toggleMic me videoOnly = (videoOnly, Some Media.audioOnly))
  /\
  (isCameraOn audioOnly = false
   /\ getVideoTracks 0 (heap audioOnly) = []
   /\ HookJS.toggleCamera me audioOnly = audioOnly
   /\ HookTS.toggleCamera audioOnly = (audioOnly, Some Media.videoOnly)
   /\ Enhanced.toggleCamera me audioOnly = (audioOnly, Some Media.videoOnly)).
Proof.
  cbv zeta.
  repeat match goal with |- _ /\ _ => split end; vm_compute; reflexivity.
Qed.

End MicClaims.
(** ** More on the relay: routing, the queue, registration *)

Section RelayRouting.
Import Relay RelayState.

Lemma copies_split q (f : Queued -> bool) (l : list Queued) :
  copies q l
  = (copies q (List.filter f l)
     + copies q (List.filter (fun x => negb (f x)) l))%nat.
Proof.
  unfold copies. induction l as [|a l IH]; [reflexivity|]. simpl.
  destruct (f a); simpl; destruct (bool_decide (a = q)); simpl; lia.
Qed.

Lemma filter_of_rest {A} (f : A -> bool) (l : list A) :
  List.filter f (List.filter (fun x => negb (f x)) l) = [].
Proof.
  induction l as [|a l IH]; [reflexivity|]. simpl.
  destruct (f a) eqn:E; simpl; [assumption|]. now rewrite E.
Qed.

Lemma set_add_self c (s : list Callback) : c ∈ set_add c s.
Proof.
  unfold set_add. case_bool_decide; [assumption|].
  apply elem_of_app. right. now left.
Qed.

Lemma set_add_old c c' (s : list Callback) : c' ∈ s -> c' ∈ set_add c s.
Proof.
  intros H. unfold set_add. case_bool_decide; [assumption|].
  apply elem_of_app. now left.
Qed.

Lemma set_delete_gone c (s : list Callback) : c ∉ set_delete c s.
Proof.
  unfold set_delete. rewrite list_elem_of_In, List.filter_In.
  intros [_ H]. now rewrite bool_decide_eq_true_2 in H.
Qed.

(** The callbacks registered in a room after each operation. *)
Lemma registered_send roomId room m now st :
  registered room (fst (sendSignal roomId m now st)) = registered room st.
Proof.
  unfold sendSignal. now destruct (negb _ && truthy (receiverId m)).
Qed.

Lemma registered_join roomId room cb st :
  registered room (fst (joinSignalingChannel roomId cb st))
  = if decide (room = roomId) then set_add cb (registered roomId st)
    else registered room st.
Proof.
  assert (H : forall p,
    registered room
      {| SIGNALING_CHANNELS :=
           match SIGNALING_CHANNELS st !! roomId with
           | Some s => <[roomId:=set_add cb s]> (SIGNALING_CHANNELS st)
           | None => <[roomId:=[cb]]> (SIGNALING_CHANNELS st)
           end;
         PENDING_MESSAGES := p |}
    = if decide (room = roomId) then set_add cb (registered roomId st)
      else registered room st).
  { intros p. unfold registered. simpl.
    destruct (decide (room = roomId)) as [->|Hne];
      destruct (SIGNALING_CHANNELS st !! roomId);
      rewrite ?lookup_insert_eq, ?lookup_insert_ne by congruence; reflexivity. }
  unfold joinSignalingChannel.
  destruct (PENDING_MESSAGES st !! roomId); [|apply H].
  destruct (truthy (cb_senderId cb)); [|apply H].
  destruct (0 <? length _)%nat; apply H.
Qed.

Lemma registered_leave roomId room cb st :
  registered room (leaveSignaling roomId cb st)
  = if decide (room = roomId) then set_delete cb (registered roomId st)
    else registered room st.
Proof.
  unfold leaveSignaling, registered.
  destruct (SIGNALING_CHANNELS st !! roomId) as [s|] eqn:Hs.
  - destruct (length (set_delete cb s) =? 0)%nat eqn:Hlen; simpl.
    + destruct (decide (room = roomId)) as [->|Hne].
      * rewrite lookup_delete_eq. simpl. apply Nat.eqb_eq in Hlen.
        now destruct (set_delete cb s).
      * now rewrite lookup_delete_ne by congruence.
    + destruct (decide (room = roomId)) as [->|Hne].
      * now rewrite lookup_insert_eq.
      * now rewrite lookup_insert_ne by congruence.
  - destruct (decide (room = roomId)) as [->|Hne]; [|reflexivity].
    now rewrite Hs.
Qed.

(** Where a send and a flush deliver. *)
Lemma send_routed (st : State) (roomId : string) (m : Message) (now : Clock) :
  Forall (routed roomId m st) (snd (sendSignal roomId m now st)).
Proof.
  unfold sendSignal.
  destruct (negb _ && truthy (receiverId m)); simpl; [constructor|].
  destruct (SIGNALING_CHANNELS st !! roomId) as [s|] eqn:Hs; [|constructor].
  apply Forall_forall. intros d Hd.
  apply list_elem_of_In, in_map_iff in Hd as (c & <- & Hc).
  apply List.filter_In in Hc as [Hin Hh].
  unfold routed, registered. rewrite Hs. simpl.
  unfold hears in Hh. apply andb_true_iff in Hh as [Hsender Hrecv].
  apply negb_true_iff, bool_decide_eq_false in Hsender.
  repeat split; [now apply list_elem_of_In | assumption |].
  intros Ht. rewrite Ht in Hrecv. simpl in Hrecv.
  now apply bool_decide_eq_true in Hrecv.
Qed.

Lemma join_target (st : State) (roomId : string) (cb : Callback) :
  Forall (fun d => in_room d = roomId /\ to_cb d = cb)
    (snd (joinSignalingChannel roomId cb st)).
Proof.
  unfold joinSignalingChannel.
  destruct (PENDING_MESSAGES st !! roomId); [|constructor].
  destruct (truthy (cb_senderId cb)); [|constructor].
  destruct (0 <? length _)%nat; [|constructor]. simpl.
  apply Forall_forall. intros d Hd.
  apply list_elem_of_In, in_map_iff in Hd as (x & <- & _). now split.
Qed.

(** X1.  A send hands the message, live, to the callbacks registered in the
    room that are not the sender's own and, when the message names a
    receiver, are the receiver's: to each of them once, in registration
    order, and to nobody else. *)
Theorem sendSignal_routing (st : State) (roomId : string) (m : Message)
    (now : Clock) :
  map to_cb (snd (sendSignal roomId m now st))
  = List.filter (hears m) (registered roomId st)
  /\ Forall (routed roomId m st) (snd (sendSignal roomId m now st)).
Proof.
  split; [|apply send_routed].
  unfold sendSignal, registered.
  destruct (SIGNALING_CHANNELS st !! roomId) as [s|] eqn:Hs; simpl.
  2:{ now destruct (truthy (receiverId m)). }
  destruct (negb (0 <? length (List.filter (hears m) s))%nat
            && truthy (receiverId m)) eqn:Hq; simpl.
  - apply andb_true_iff in Hq as [Hnone _].
    destruct (List.filter (hears m) s); [reflexivity | discriminate].
  - rewrite map_map. simpl. apply map_id.
Qed.

(** X3.  A registration neither loses nor duplicates a queued message: the
    copies of any message in the queue of the room are, afterwards, the
    copies handed to the new callback plus the copies still queued; other
    rooms keep their queues and nothing of them is handed over. *)
Theorem join_conserves_queue (st : State) (roomId : string) (cb : Callback)
    (q : Queued) :
  let st' := fst (joinSignalingChannel roomId cb st) in
  let log := snd (joinSignalingChannel roomId cb st) in
  copies q (queue roomId st)
  = (handed roomId cb q log + copies q (queue roomId st'))%nat
  /\ (forall room, room <> roomId -> queue room st' = queue room st)
  /\ Forall (fun d => in_room d = roomId /\ to_cb d = cb) log.
Proof.
  intros st' log. subst st' log.
  split; [|split; [|apply join_target]];
    unfold joinSignalingChannel, queue;
    destruct (PENDING_MESSAGES st !! roomId) as [pending|] eqn:Hp; simpl;
    rewrite ?Hp; try reflexivity;
    destruct (truthy (cb_senderId cb)); simpl; rewrite ?Hp; try reflexivity;
    destruct (0 <? length (List.filter (pendingFor cb) pending))%nat eqn:Hlen;
    simpl; rewrite ?Hp; try reflexivity.
  - rewrite lookup_insert_eq. simpl. rewrite handed_flush. apply copies_split.
  - intros room Hne. now rewrite lookup_insert_ne.
Qed.

(** Each operation keeps every queued message addressed. *)
Lemma step_addressed (op : Op) (st : State) :
  addressed st -> addressed (fst (step op st)).
Proof.
  intros Hst. destruct op as [room m now | room c | room c]; simpl.
  - unfold sendSignal.
    destruct (negb _ && truthy (receiverId m)) eqn:Hq; [|exact Hst].
    apply andb_true_iff in Hq as [_ Ht].
    intros r ql q. simpl. destruct (decide (r = room)) as [->|Hne].
    + rewrite lookup_insert_eq. intros [= <-] Hin.
      apply list_elem_of_In, List.filter_In in Hin as [Hin _].
      apply in_app_or in Hin as [Hin | [<- | []]]; [|exact Ht].
      destruct (PENDING_MESSAGES st !! room) as [old|] eqn:Hold;
        [|contradiction].
      apply (Hst room old q Hold). now apply list_elem_of_In.
    + rewrite lookup_insert_ne by congruence. apply Hst.
  - unfold joinSignalingChannel.
    destruct (PENDING_MESSAGES st !! room) as [pending|] eqn:Hp; [|exact Hst].
    destruct (truthy (cb_senderId c)); [|exact Hst].
    destruct (0 <? length _)%nat; [|exact Hst].
    intros r ql q. simpl. destruct (decide (r = room)) as [->|Hne].
    + rewrite lookup_insert_eq. intros [= <-] Hin.
      apply list_elem_of_In, List.filter_In in Hin as [Hin _].
      apply (Hst room pending q Hp). now apply list_elem_of_In.
    + rewrite lookup_insert_ne by congruence. apply Hst.
  - unfold leaveSignaling.
    destruct (SIGNALING_CHANNELS st !! room); [|exact Hst].
    destruct (length _ =? 0)%nat; [|exact Hst].
    intros r ql q. simpl. destruct (decide (r = room)) as [->|Hne].
    + now rewrite lookup_delete_eq.
    + rewrite lookup_delete_ne by congruence. apply Hst.
Qed.

Lemma step_forReceiver (op : Op) (st : State) :
  addressed st -> Forall forReceiver (snd (step op st)).
Proof.
  intros Hst. destruct op as [room m now | room c | room c]; simpl.
  - unfold sendSignal. destruct (negb _ && truthy (receiverId m)); simpl;
      [constructor|].
    apply Forall_forall. intros d Hd.
    apply list_elem_of_In, in_map_iff in Hd as (x & <- & _). exact I.
  - unfold joinSignalingChannel.
    destruct (PENDING_MESSAGES st !! room) as [pending|] eqn:Hp; [|constructor].
    destruct (truthy (cb_senderId c)); [|constructor].
    destruct (0 <? length _)%nat; [|constructor]. simpl.
    apply Forall_forall. intros d Hd.
    apply list_elem_of_In, in_map_iff in Hd as (x & <- & Hx).
    apply List.filter_In in Hx as [Hin Hfor].
    assert (Ht : truthy (receiverId (queued x)) = true).
    { apply (Hst room pending x Hp). now apply list_elem_of_In. }
    unfold forReceiver. simpl. split; [assumption|].
    unfold pendingFor in Hfor. rewrite Ht in Hfor. simpl in Hfor.
    rewrite orb_false_r in Hfor. now apply bool_decide_eq_true in Hfor.
  - constructor.
Qed.

Lemma run_forReceiver (ops : list Op) : forall st,
  addressed st ->
  addressed (fst (run ops st)) /\ Forall forReceiver (snd (run ops st)).
Proof.
  induction ops as [|op ops IH]; intros st Hst; simpl.
  - split; [assumption | constructor].
  - pose proof (step_addressed op st Hst) as H1.
    pose proof (step_forReceiver op st Hst) as H2.
    destruct (step op st) as [st1 d1]. simpl in *.
    destruct (IH st1 H1) as [H3 H4].
    destruct (run ops st1) as [st2 d2]. simpl in *.
    split; [assumption|]. now apply Forall_app.
Qed.

(** X4.  Whatever is sent, registered and unsubscribed, starting from the
    empty relay, only messages that name a receiver are ever queued, and a
    queued message is only ever handed to a callback of the receiver it
    names: the clause of the flush filter that would hand a message without
    receiver to any newcomer never applies. *)
Theorem queued_only_for_receiver (ops : list Op) :
  addressed (fst (run ops empty))
  /\ Forall forReceiver (snd (run ops empty)).
Proof.
  apply run_forReceiver. intros r l q H. simpl in H.
  now rewrite lookup_empty in H.
Qed.

(** After the callback has unsubscribed it is out of the room for as long as
    it does not register again. *)
Lemma run_after_leave (roomId : string) (cb : Callback) (ops : list Op) :
  forall st,
  cb ∉ registered roomId st ->
  Forall (fun op => op <> Join roomId cb) ops ->
  Forall (fun d => in_room d = roomId -> to_cb d <> cb) (snd (run ops st)).
Proof.
  induction ops as [|op ops IH]; intros st Hout Hops; simpl; [constructor|].
  apply Forall_cons in Hops as [Hop Hops].
  assert (Hstep : (cb ∉ registered roomId (fst (step op st)))
            /\ Forall (fun d => in_room d = roomId -> to_cb d <> cb)
                 (snd (step op st))).
  { destruct op as [room m now | room c | room c]; simpl.
    - split; [now rewrite registered_send|].
      eapply Forall_impl; [apply send_routed|].
      intros d (Hroom & _ & Hreg & _) Hd Hcb. apply Hout. congruence.
    - split.
      + rewrite registered_join. destruct (decide (roomId = room)) as [<-|Hne].
        * intros [->|Hin]%set_add_elem; [now apply Hop | contradiction].
        * assumption.
      + eapply Forall_impl; [apply join_target|].
        intros d [Hroom Hto] Hd Hcb. apply Hop. congruence.
    - split; [|constructor]. rewrite registered_leave.
      destruct (decide (roomId = room)) as [<-|Hne].
      + intros Hin%set_delete_subset. contradiction.
      + assumption. }
  destruct Hstep as [Hout1 Hd1].
  destruct (step op st) as [st1 d1]. simpl in *.
  specialize (IH st1 Hout1 Hops).
  destruct (run ops st1) as [st2 d2]. simpl in *.
  now apply Forall_app.
Qed.

(** X5.  Unsubscribing works: once a callback has left a room, nothing sent
    or flushed in that room is handed to it, whatever else happens, until
    it registers again. *)
Theorem leave_stops_delivery (st : State) (roomId : string) (cb : Callback)
    (ops : list Op) :
  Forall (fun op => op <> Join roomId cb) ops ->
  Forall (fun d => in_room d = roomId -> to_cb d <> cb)
    (snd (run ops (leaveSignaling roomId cb st))).
Proof.
  intros Hops. apply run_after_leave; [|assumption].
  rewrite registered_leave, decide_True by reflexivity.
  apply set_delete_gone.
Qed.

Lemma leave_stops_delivery_witness :
  Forall (fun d => in_room d = "room" -> to_cb d <> bob)
    (snd (run [Send "room" hello (tick 0); Join "room" alice;
               Send "room" offer (tick 1)]
            (leaveSignaling "room" bob
               (fst (joinSignalingChannel "room" bob empty))))).
Proof.
  apply (leave_stops_delivery (fst (joinSignalingChannel "room" bob empty))
           "room" bob).
  repeat constructor; discriminate.
Defined.

(** X6.  Registering the same callback again changes nothing and hands
    nothing over: the set of a room holds a callback once, and what the
    first registration flushed is gone from the queue. *)
Theorem join_twice_is_join_once (st : State) (roomId : string) (cb : Callback) :
  joinSignalingChannel roomId cb (fst (joinSignalingChannel roomId cb st))
  = (fst (joinSignalingChannel roomId cb st), []).
Proof.
  assert (Hch : forall ch : gmap string (list Callback),
    match
      match ch !! roomId with
      | Some s => <[roomId:=set_add cb s]> ch
      | None => <[roomId:=[cb]]> ch
      end !! roomId
    with
    | Some s =>
        <[roomId:=set_add cb s]>
          match ch !! roomId with
          | Some s0 => <[roomId:=set_add cb s0]> ch
          | None => <[roomId:=[cb]]> ch
          end
    | None =>
        <[roomId:=[cb]]>
          match ch !! roomId with
          | Some s0 => <[roomId:=set_add cb s0]> ch
          | None => <[roomId:=[cb]]> ch
          end
    end
    = match ch !! roomId with
      | Some s => <[roomId:=set_add cb s]> ch
      | None => <[roomId:=[cb]]> ch
      end).
  { intros ch. destruct (ch !! roomId) as [s|]; rewrite lookup_insert_eq.
    - rewrite insert_insert_eq. f_equal.
      unfold set_add at 1. rewrite bool_decide_eq_true_2; [reflexivity|].
      apply set_add_self.
    - rewrite insert_insert_eq. f_equal.
      unfold set_add. rewrite bool_decide_eq_true_2; [reflexivity | now left]. }
  unfold joinSignalingChannel at 2 3.
  destruct (PENDING_MESSAGES st !! roomId) as [pending|] eqn:Hp.
  2:{ unfold joinSignalingChannel. simpl. rewrite Hp. now rewrite Hch. }
  destruct (truthy (cb_senderId cb)) eqn:Ht.
  2:{ unfold joinSignalingChannel. simpl. rewrite Hp, Ht. now rewrite Hch. }
  destruct (0 <? length (List.filter (pendingFor cb) pending))%nat eqn:Hlen.
  - unfold joinSignalingChannel. simpl. rewrite lookup_insert_eq, Ht.
    rewrite (filter_of_rest (pendingFor cb) pending). simpl. now rewrite Hch.
  - unfold joinSignalingChannel. simpl. rewrite Hp, Ht, Hlen. now rewrite Hch.
Qed.

(** X7.  Registering in a room nobody is registered in and unsubscribing
    again leaves no trace among the registrations, but it deletes the queue
    of the room, flushed or not; only a room without queue is back exactly
    where it was. *)
Theorem join_leave_round_trip (st : State) (roomId : string) (cb : Callback) :
  SIGNALING_CHANNELS st !! roomId = None ->
  let st' := leaveSignaling roomId cb (fst (joinSignalingChannel roomId cb st)) in
  st' = {| SIGNALING_CHANNELS := SIGNALING_CHANNELS st;
           PENDING_MESSAGES := delete roomId (PENDING_MESSAGES st) |}
  /\ (PENDING_MESSAGES st !! roomId = None -> st' = st).
Proof.
  intros Hfree st'.
  assert (Hfirst : st' = {| SIGNALING_CHANNELS := SIGNALING_CHANNELS st;
                            PENDING_MESSAGES := delete roomId (PENDING_MESSAGES st) |}).
  { subst st'. unfold joinSignalingChannel. rewrite Hfree.
    assert (Hleave : forall p,
      leaveSignaling roomId cb
        {| SIGNALING_CHANNELS := <[roomId:=[cb]]> (SIGNALING_CHANNELS st);
           PENDING_MESSAGES := p |}
      = {| SIGNALING_CHANNELS := SIGNALING_CHANNELS st;
           PENDING_MESSAGES := delete roomId p |}).
    { intros p. unfold leaveSignaling. simpl. rewrite lookup_insert_eq.
      unfold set_delete. simpl. rewrite bool_decide_eq_true_2 by reflexivity.
      simpl. now rewrite delete_insert_id. }
    destruct (PENDING_MESSAGES st !! roomId) as [pending|]; [|apply Hleave].
    destruct (truthy (cb_senderId cb)); [|apply Hleave].
    destruct (0 <? length _)%nat; simpl; rewrite Hleave; [|reflexivity].
    now rewrite delete_insert_eq. }
  split; [assumption|].
  intros Hq. rewrite Hfirst, delete_id by assumption. now destruct st.
Qed.

Lemma join_leave_round_trip_witness :
  let st' := leaveSignaling "room" bob (fst (joinSignalingChannel "room" bob empty)) in
  st' = {| SIGNALING_CHANNELS := SIGNALING_CHANNELS empty;
           PENDING_MESSAGES := delete "room" (PENDING_MESSAGES empty) |}
  /\ (PENDING_MESSAGES empty !! "room" = None -> st' = empty).
Proof.
  apply (join_leave_round_trip empty "room" bob). reflexivity.
Defined.

End RelayRouting.

(** ** Sending, on the object literals *)

Section ObjectRouting.
Import Relay RelayObject.



End ObjectRouting.

(** ** More on media acquisition in the JavaScript hook *)

Section MediaRuns.
Import Media MediaErrors.

Ltac open_run :=
  cbn [getMediaStream_fuel]; unfold getUserMedia;
  repeat match goal with
         | |- context [if ?b then _ else _] => destruct b eqn:?
         | |- context [match device ?e ?n ?c with _ => _ end] =>
             destruct (device e n c) eqn:?
         end.

Lemma requests_length_requested (l : list Event) c :
  length (requests (l ++ [Requested c])) = S (length (requests l)).
Proof. rewrite requests_requested, length_app. simpl. lia. Qed.

(** No call asks the device more than twice before it returns or hands
    over to the next call. *)
Lemma getMediaStream_fuel_bound fuel : forall env options log,
  (length (requests (snd (getMediaStream_fuel fuel env options log)))
   <= length (requests log) + 2 * Z.to_nat (4 - retryAttempt options))%nat.
Proof.
  induction fuel as [|fuel IH]; intros env options log; [simpl; lia|].
  open_run; simpl;
    repeat match goal with
           | |- context [getMediaStream_fuel fuel ?e ?o ?l] =>
               let H := fresh in
               pose proof (IH e o l) as H;
               destruct (getMediaStream_fuel fuel e o l); simpl in *
           end;
    repeat match goal with
           | H : (3 <? _) = false |- _ => apply Z.ltb_ge in H
           end;
    rewrite ?requests_length_requested, ?requests_entered in *; lia.
Qed.

(** X8.  A run of [getMediaStream] asks the device at most twice per value
    of [retryAttempt] it goes through, so at most eight times when started
    with the default options. *)
Theorem getMediaStream_request_bound (env : Browser) (options : Options) :
  (length (requests (snd (getMediaStream env options)))
   <= 2 * Z.to_nat (4 - retryAttempt options))%nat
  /\ (length (requests (snd (getMediaStream env defaults))) <= 8)%nat.
Proof.
  split.
  - apply (getMediaStream_fuel_bound (budget options) env options []).
  - apply (getMediaStream_fuel_bound (budget defaults) env defaults []).
Qed.

(** A stream that is returned is the one the device resolved the last
    request with. *)
Lemma getMediaStream_fuel_sound fuel : forall env options log s,
  fst (getMediaStream_fuel fuel env options log) = Fulfilled s ->
  exists before c,
    requests (snd (getMediaStream_fuel fuel env options log)) = before ++ [c]
    /\ device env (length before) c = Resolved s
    /\ (strict env = true -> c <> lowerQualityConstraints).
Proof.
  induction fuel as [|fuel IH]; intros env options log s; [discriminate|].
  open_run; simpl;
    repeat match goal with
           | |- context [getMediaStream_fuel fuel ?e ?o ?l] =>
               let H := fresh "Hcall" in
               pose proof (IH e o l s) as H;
               destruct (getMediaStream_fuel fuel e o l); simpl in *
           end;
    intros Hs; try discriminate Hs;
    try match goal with
        | H : false = true |- _ => discriminate H
        end;
    rewrite ?requests_requested, ?requests_entered in *.
  all: try match goal with
           | H : _ -> exists _ _, _ |- _ =>
               destruct (H Hs) as (before & c' & Hlog & Hdev & Hstrict);
               exists before, c'; split; [assumption|];
               split; [assumption|];
               first [ exact Hstrict
                     | intros Hst; discriminate Hst
                     | intros _; apply Hstrict; assumption ]
           end.
  all: injection Hs as <-.
  all: eexists; eexists; split; [reflexivity|];
       (split; [eassumption|]);
       first [ intros Hst; discriminate Hst | intros _; discriminate ].
Qed.

(** X9.  When [getMediaStream] returns a stream, it is what the device
    resolved the last request of the run with, and nothing was requested
    after it.  In strict code that request is never the one for the lower
    quality: there the handler of [OverconstrainedError] cannot return the
    stream it obtains and falls back to audio only. *)
Theorem getMediaStream_returns_last_capture (env : Browser) (options : Options)
    (s : Capture) :
  fst (getMediaStream env options) = Fulfilled s ->
  exists before c,
    requests (snd (getMediaStream env options)) = before ++ [c]
    /\ device env (length before) c = Resolved s
    /\ (strict env = true -> c <> lowerQualityConstraints).
Proof.
  intros Hs.
  apply (getMediaStream_fuel_sound (budget options) env options [] s Hs).
Qed.

Lemma getMediaStream_returns_last_capture_witness :
  exists before c,
    requests (snd (getMediaStream
                     (browserWith (fun _ c =>
                        if bool_decide (c = audioOnlyConstraints)
                        then Resolved [AudioKind]
                        else Rejected {| err_name := "NotReadableError";
                                         err_message := "" |}))
                     defaults))
    = before ++ [c]
    /\ device (browserWith (fun _ c =>
                 if bool_decide (c = audioOnlyConstraints)
                 then Resolved [AudioKind]
                 else Rejected {| err_name := "NotReadableError";
                                  err_message := "" |}))
         (length before) c = Resolved [AudioKind]
    /\ (strict (browserWith (fun _ c =>
                  if bool_decide (c = audioOnlyConstraints)
                  then Resolved [AudioKind]
                  else Rejected {| err_name := "NotReadableError";
                                   err_message := "" |})) = true ->
        c <> lowerQualityConstraints).
Proof.
  apply (getMediaStream_returns_last_capture
           (browserWith (fun _ c =>
              if bool_decide (c = audioOnlyConstraints)
              then Resolved [AudioKind]
              else Rejected {| err_name := "NotReadableError";
                               err_message := "" |}))
           defaults [AudioKind]).
  vm_compute. reflexivity.
Defined.

(** X10.  When the permission is refused for every request, a run started
    with the default options asks three times (audio and video with the
    basic and with the detailed constraints, then audio only) and only then
    throws the message about the refused access: the refusal of a combined
    request is not looked at. *)
Theorem getMediaStream_permission_denied (env : Browser) :
  supported env = true ->
  alwaysFails env denied ->
  getMediaStream env defaults
  = (Thrown (Error deniedMessage),
     [Entered defaults;
      Requested basicConstraints;
      Requested detailedConstraints;
      Entered {| tryAudioOnly := true; tryVideoOnly := false;
                 retryAttempt := 1 |};
      Requested audioOnlyConstraints]).
Proof.
  intros Hsup Hfail. unfold getMediaStream.
  change (budget defaults) with (S (S 3)).
  remember 3%nat as fuel eqn:Hfuel.
  cbn [getMediaStream_fuel]. rewrite Hsup. unfold getUserMedia.
  cbn [negb defaults tryAudioOnly tryVideoOnly retryAttempt Z.ltb Z.compare
       Z.add Pos.add app].
  repeat match goal with
         | |- context [length (requests ?x)] =>
             let v := eval vm_compute in (length (requests x)) in
             change (length (requests x)) with v
         end.
  destruct (Hfail 0%nat basicConstraints) as (e1 & -> & _).
  destruct (Hfail 1%nat detailedConstraints) as (e2 & -> & _).
  destruct (Hfail 2%nat audioOnlyConstraints) as (e3 & -> & Hd).
  unfold denied in Hd. rewrite Hd. reflexivity.
Qed.

Lemma getMediaStream_permission_denied_witness :
  getMediaStream
    (browserWith (fun _ _ => Rejected {| err_name := "NotAllowedError";
                                         err_message := "" |}))
    defaults
  = (Thrown (Error deniedMessage),
     [Entered defaults;
      Requested basicConstraints;
      Requested detailedConstraints;
      Entered {| tryAudioOnly := true; tryVideoOnly := false;
                 retryAttempt := 1 |};
      Requested audioOnlyConstraints]).
Proof.
  apply (getMediaStream_permission_denied
           (browserWith (fun _ _ => Rejected {| err_name := "NotAllowedError";
                                                err_message := "" |}))).
  - reflexivity.
  - intros n c. eexists. split; reflexivity.
Defined.

(** X11.  The acquisition of one initialisation cycle of the JavaScript hook
    (two direct requests, then [getMediaStream] with options derived from
    the number of the cycle) always settles, after at most four numbered
    attempts of [getMediaStream] and at most ten requests to the device. *)
Theorem init_cycle_bounded (env : Browser) (attempt : Z) :
  1 <= attempt ->
  fst (HookJS.acquire env attempt) <> Diverged
  /\ (length (attempts (snd (HookJS.acquire env attempt))) <= 4)%nat
  /\ (length (requests (snd (HookJS.acquire env attempt))) <= 10)%nat.
Proof.
  intros Hattempt.
  destruct (acquire_settles env attempt Hattempt) as [Hnd Hatt].
  split; [assumption|]. split; [assumption|].
  unfold HookJS.acquire, getUserMedia.
  destruct (device env _ basicConstraints); [simpl; lia|].
  destruct (device env _ HookJS.lessStrictConstraints); [simpl; lia|].
  match goal with
  | |- context [getMediaStream_fuel ?f env ?o ?l] =>
      pose proof (getMediaStream_fuel_bound f env o l) as Hb
  end.
  simpl in Hb |- *. lia.
Qed.

Lemma init_cycle_bounded_witness :
  fst (HookJS.acquire (browserWith pickyDevice) 1) <> Diverged
  /\ (length (attempts (snd (HookJS.acquire (browserWith pickyDevice) 1))) <= 4)%nat
  /\ (length (requests (snd (HookJS.acquire (browserWith pickyDevice) 1))) <= 10)%nat.
Proof.
  apply (init_cycle_bounded (browserWith pickyDevice) 1). lia.
Defined.

End MediaRuns.

(** ** Media acquisition in the enhanced and in the TypeScript hook *)

Section SiblingRuns.
Import Media Tuned MediaErrors.

Lemma busy_names (err : JsError) :
  deviceBusy err = true ->
  name_is err "NotAllowedError" || name_is err "PermissionDeniedError" = false
  /\ name_is err "NotFoundError" || name_is err "DevicesNotFoundError" = false
  /\ name_is err "NotReadableError" || name_is err "TrackStartError" = true.
Proof.
  unfold deviceBusy, name_is. intros H. split; [|split; [|exact H]];
    apply orb_true_iff in H as [H|H]; apply String.eqb_eq in H; now rewrite H.
Qed.

Lemma tuned_requests_requested (l : list Event) c :
  requests (l ++ [Requested c]) = requests l ++ [c].
Proof. unfold requests. now rewrite omap_app. Qed.

Lemma tuned_requests_entered (l : list Event) o :
  requests (l ++ [Entered o]) = requests l.
Proof. unfold requests. rewrite omap_app. apply app_nil_r. Qed.

Lemma tuned_requests_optimized (l : list Event) s :
  requests (l ++ [Optimized s]) = requests l.
Proof. unfold requests. rewrite omap_app. apply app_nil_r. Qed.

Ltac open_enhanced :=
  cbn [MediaEnhanced.getMediaStream_fuel]; unfold getUserMedia, optimizeMediaTracks;
  repeat match goal with
         | |- context [if ?b then _ else _] => destruct b eqn:?
         | |- context [match device ?e ?n ?c with _ => _ end] =>
             destruct (device e n c) eqn:?
         end.

Ltac open_ts :=
  cbn [MediaTS.getMediaStream_fuel];
  unfold MediaTS.request, getUserMedia, optimizeMediaTracks;
  repeat match goal with
         | |- context [if ?b then _ else _] => destruct b eqn:?
         | |- context [match device ?e ?n ?c with _ => _ end] =>
             destruct (device e n c) eqn:?
         end.

(** With a budget above [4 - retryAttempt] neither model runs dry, and no
    call asks the device more than twice. *)
Lemma enhanced_fuel_settles fuel : forall env options log,
  (Z.to_nat (4 - retryAttempt options) < fuel)%nat ->
  fst (MediaEnhanced.getMediaStream_fuel fuel env options log) <> Diverged.
Proof.
  induction fuel as [|fuel IH]; intros env options log Hfuel; [lia|].
  open_enhanced; simpl; try discriminate;
    repeat match goal with
           | H : (3 <? _) = false |- _ => apply Z.ltb_ge in H
           end;
    try (apply IH; simpl; lia);
    match goal with
    | |- context [MediaEnhanced.getMediaStream_fuel fuel ?e ?o ?l] =>
        let H := fresh in
        assert (H := IH e o l ltac:(simpl; lia));
        destruct (MediaEnhanced.getMediaStream_fuel fuel e o l); exact H
    end.
Qed.

Lemma enhanced_fuel_bound fuel : forall env options log,
  (length (requests (snd (MediaEnhanced.getMediaStream_fuel fuel env options log)))
   <= length (requests log) + 2 * Z.to_nat (4 - retryAttempt options))%nat.
Proof.
  induction fuel as [|fuel IH]; intros env options log; [simpl; lia|].
  open_enhanced; simpl;
    repeat match goal with
           | |- context [MediaEnhanced.getMediaStream_fuel fuel ?e ?o ?l] =>
               let H := fresh in
               pose proof (IH e o l) as H;
               destruct (MediaEnhanced.getMediaStream_fuel fuel e o l);
               simpl in *
           end;
    repeat match goal with
           | H : (3 <? _) = false |- _ => apply Z.ltb_ge in H
           end;
    rewrite ?tuned_requests_optimized, ?tuned_requests_requested,
      ?tuned_requests_entered, ?length_app in *;
    simpl in *; lia.
Qed.

Lemma ts_fuel_settles fuel : forall env options log,
  (Z.to_nat (4 - retryAttempt options) < fuel)%nat ->
  fst (MediaTS.getMediaStream_fuel fuel env options log) <> Diverged.
Proof.
  induction fuel as [|fuel IH]; intros env options log Hfuel; [lia|].
  open_ts; simpl; try discriminate;
    repeat match goal with
           | H : (3 <? _) = false |- _ => apply Z.ltb_ge in H
           end;
    try (apply IH; simpl; lia);
    match goal with
    | |- context [MediaTS.getMediaStream_fuel fuel ?e ?o ?l] =>
        let H := fresh in
        assert (H := IH e o l ltac:(simpl; lia));
        destruct (MediaTS.getMediaStream_fuel fuel e o l); exact H
    end.
Qed.

Lemma ts_fuel_bound fuel : forall env options log,
  (length (requests (snd (MediaTS.getMediaStream_fuel fuel env options log)))
   <= length (requests log) + 2 * Z.to_nat (4 - retryAttempt options))%nat.
Proof.
  induction fuel as [|fuel IH]; intros env options log; [simpl; lia|].
  open_ts; simpl;
    repeat match goal with
           | |- context [MediaTS.getMediaStream_fuel fuel ?e ?o ?l] =>
               let H := fresh in
               pose proof (IH e o l) as H;
               destruct (MediaTS.getMediaStream_fuel fuel e o l);
               simpl in *
           end;
    repeat match goal with
           | H : (3 <? _) = false |- _ => apply Z.ltb_ge in H
           end;
    rewrite ?tuned_requests_optimized, ?tuned_requests_requested,
      ?tuned_requests_entered, ?length_app in *;
    simpl in *; lia.
Qed.

Lemma enhanced_busy_run (env : Browser) :
  supported env = true ->
  alwaysFails env deviceBusy ->
  MediaEnhanced.getMediaStream env defaults
  = (Thrown (Error inUseMessage),
     [Entered defaults;
      Requested MediaEnhanced.basicRequest;
      Requested MediaEnhanced.detailedRequest;
      Entered {| tryAudioOnly := true; tryVideoOnly := false;
                 retryAttempt := 1 |};
      Requested MediaEnhanced.audioOnlyRequest;
      Entered {| tryAudioOnly := false; tryVideoOnly := true;
                 retryAttempt := 2 |};
      Requested MediaEnhanced.videoOnlyRequest]).
Proof.
  intros Hsup Hfail. unfold MediaEnhanced.getMediaStream.
  change (budget defaults) with (S (S (S 2))).
  remember 2%nat as fuel eqn:Hfuel.
  cbn [MediaEnhanced.getMediaStream_fuel]. rewrite Hsup. unfold getUserMedia.
  cbn [negb defaults tryAudioOnly tryVideoOnly retryAttempt Z.ltb Z.compare
       Z.add Pos.add Pos.succ app andb].
  repeat match goal with
         | |- context [length (requests ?x)] =>
             let v := eval vm_compute in (length (requests x)) in
             change (length (requests x)) with v
         end.
  destruct (Hfail 0%nat MediaEnhanced.basicRequest) as (e1 & -> & _).
  destruct (Hfail 1%nat MediaEnhanced.detailedRequest) as (e2 & -> & _).
  destruct (Hfail 2%nat MediaEnhanced.audioOnlyRequest) as (e3 & -> & H3).
  destruct (busy_names e3 H3) as (-> & -> & ->).
  repeat match goal with
         | |- context [length (requests ?x)] =>
             let v := eval vm_compute in (length (requests x)) in
             change (length (requests x)) with v
         end.
  destruct (Hfail 3%nat MediaEnhanced.videoOnlyRequest) as (e4 & -> & H4).
  destruct (busy_names e4 H4) as (-> & -> & ->).
  reflexivity.
Qed.

Lemma ts_busy_run (env : Browser) :
  supported env = true ->
  alwaysFails env deviceBusy ->
  MediaTS.getMediaStream env defaults
  = (Thrown (Error inUseMessage),
     [Entered defaults;
      Requested MediaTS.combinedRequest;
      Entered {| tryAudioOnly := true; tryVideoOnly := false;
                 retryAttempt := 1 |};
      Requested MediaTS.audioOnlyRequest;
      Entered {| tryAudioOnly := false; tryVideoOnly := true;
                 retryAttempt := 2 |};
      Requested MediaTS.videoOnlyRequest]).
Proof.
  intros Hsup Hfail. unfold MediaTS.getMediaStream.
  change (budget defaults) with (S (S (S 2))).
  remember 2%nat as fuel eqn:Hfuel.
  cbn [MediaTS.getMediaStream_fuel]. unfold MediaTS.request.
  rewrite Hsup. unfold getUserMedia.
  cbn [negb defaults tryAudioOnly tryVideoOnly retryAttempt Z.ltb Z.compare
       Z.add Pos.add Pos.succ app andb].
  repeat match goal with
         | |- context [length (requests ?x)] =>
             let v := eval vm_compute in (length (requests x)) in
             change (length (requests x)) with v
         end.
  destruct (Hfail 0%nat MediaTS.combinedRequest) as (e1 & -> & _).
  destruct (Hfail 1%nat MediaTS.audioOnlyRequest) as (e3 & -> & H3).
  destruct (busy_names e3 H3) as (-> & -> & ->).
  repeat match goal with
         | |- context [length (requests ?x)] =>
             let v := eval vm_compute in (length (requests x)) in
             change (length (requests x)) with v
         end.
  destruct (Hfail 2%nat MediaTS.videoOnlyRequest) as (e4 & -> & H4).
  destruct (busy_names e4 H4) as (-> & -> & ->).
  reflexivity.
Qed.

(** X12.  A run of [getMediaStream] against a device that is busy at every
    request goes through every tier, in this order, and then throws the
    message about the device being in use: in the enhanced hook audio and
    video with the basic and with the detailed constraints, audio only,
    video only; in the TypeScript hook audio and video once, audio only,
    video only. *)
Theorem busy_device_tries_every_tier (env : Browser) :
  supported env = true ->
  alwaysFails env deviceBusy ->
  MediaEnhanced.getMediaStream env defaults
  = (Thrown (Error inUseMessage),
     [Entered defaults;
      Requested MediaEnhanced.basicRequest;
      Requested MediaEnhanced.detailedRequest;
      Entered {| tryAudioOnly := true; tryVideoOnly := false;
                 retryAttempt := 1 |};
      Requested MediaEnhanced.audioOnlyRequest;
      Entered {| tryAudioOnly := false; tryVideoOnly := true;
                 retryAttempt := 2 |};
      Requested MediaEnhanced.videoOnlyRequest])
  /\ MediaTS.getMediaStream env defaults
     = (Thrown (Error inUseMessage),
        [Entered defaults;
         Requested MediaTS.combinedRequest;
         Entered {| tryAudioOnly := true; tryVideoOnly := false;
                    retryAttempt := 1 |};
         Requested MediaTS.audioOnlyRequest;
         Entered {| tryAudioOnly := false; tryVideoOnly := true;
                    retryAttempt := 2 |};
         Requested MediaTS.videoOnlyRequest]).
Proof.
  intros Hsup Hfail.
  split; [now apply enhanced_busy_run | now apply ts_busy_run].
Qed.

Lemma busy_device_tries_every_tier_witness :
  fst (MediaEnhanced.getMediaStream (browserWith busyDevice) defaults)
  = Thrown (Error inUseMessage)
  /\ fst (MediaTS.getMediaStream (browserWith busyDevice) defaults)
     = Thrown (Error inUseMessage).
Proof.
  destruct (busy_device_tries_every_tier (browserWith busyDevice)) as [He Ht].
  - reflexivity.
  - intros n c. eexists. split; reflexivity.
  - rewrite He, Ht. split; reflexivity.
Defined.

(** X13.  In both hooks [getMediaStream] settles whatever the device
    answers, after at most eight requests when started with the default
    options; the acquisition of an initialisation cycle of the enhanced
    hook, which makes one request of its own first, settles after at most
    nine. *)
Theorem sibling_runs_settle (env : Browser) (attempt : Z) :
  1 <= attempt ->
  fst (MediaEnhanced.getMediaStream env defaults) <> Diverged
  /\ (length (requests (snd (MediaEnhanced.getMediaStream env defaults))) <= 8)%nat
  /\ fst (MediaTS.getMediaStream env defaults) <> Diverged
  /\ (length (requests (snd (MediaTS.getMediaStream env defaults))) <= 8)%nat
  /\ fst (MediaEnhanced.acquire env attempt) <> Diverged
  /\ (length (requests (snd (MediaEnhanced.acquire env attempt))) <= 9)%nat.
Proof.
  intros Hattempt.
  split; [apply enhanced_fuel_settles; unfold budget; lia|].
  split; [apply (enhanced_fuel_bound (budget defaults) env defaults [])|].
  split; [apply ts_fuel_settles; unfold budget; lia|].
  split; [apply (ts_fuel_bound (budget defaults) env defaults [])|].
  unfold MediaEnhanced.acquire, getUserMedia.
  destruct (device env _ MediaEnhanced.exactRequest);
    [split; [discriminate | simpl; lia]|].
  split.
  - apply enhanced_fuel_settles. unfold budget. lia.
  - match goal with
    | |- context [MediaEnhanced.getMediaStream_fuel ?f env ?o ?l] =>
        pose proof (enhanced_fuel_bound f env o l) as Hb
    end.
    simpl in Hb |- *. lia.
Qed.

Lemma sibling_runs_settle_witness :
  fst (MediaEnhanced.getMediaStream (browserWith busyDevice) defaults) <> Diverged
  /\ (length (requests (snd (MediaEnhanced.getMediaStream
                               (browserWith busyDevice) defaults))) <= 8)%nat
  /\ fst (MediaTS.getMediaStream (browserWith busyDevice) defaults) <> Diverged
  /\ (length (requests (snd (MediaTS.getMediaStream
                               (browserWith busyDevice) defaults))) <= 8)%nat
  /\ fst (MediaEnhanced.acquire (browserWith busyDevice) 1) <> Diverged
  /\ (length (requests (snd (MediaEnhanced.acquire
                               (browserWith busyDevice) 1))) <= 9)%nat.
Proof.
  apply (sibling_runs_settle (browserWith busyDevice) 1). lia.
Defined.

End SiblingRuns.

(** ** More on the JavaScript hook *)

Section JsHookFacts.
Import Session SessionState.

Ltac fold_heap :=
  cbn -[Nat.ltb newStream forEachTrack getAudioTracks getVideoTracks getTracks
        HookJS.localEntry HookJS.fakeParticipants map_to_list].

Lemma forEachTrack_stop_in ids hp t :
  t ∈ ids ->
  ended <$> tracks (forEachTrack stop ids hp) !! t
  = (fun _ => true) <$> tracks hp !! t.
Proof. intros Ht. now apply (foldr_alter_in ended true). Qed.

Lemma forEachTrack_present f ids hp t :
  (fun _ : Track => true) <$> tracks (forEachTrack f ids hp) !! t
  = (fun _ => true) <$> tracks hp !! t.
Proof. now apply (foldr_alter_field (fun _ : Track => true)). Qed.

Lemma video_apart_audio s s' hp t :
  t ∈ getVideoTracks s hp -> t ∉ getAudioTracks s' hp.
Proof.
  intros (_ & tr & Htr & Hk)%video_track_exists
         (_ & tr' & Htr' & Hk')%audio_track_exists.
  congruence.
Qed.

(** X14.  In every state the JavaScript hook reaches from its first render,
    whatever the events, the microphone state is the same in the three
    places that hold it: the [enabled] flag of every audio track of the
    local stream, [isMicOn], and the [audioEnabled] of the local entry. *)
Theorem mic_state_agrees_everywhere (props : Props) (es : list HookJS.Event) :
  micConsistent (HookJS.play es (mount props)).
Proof.
  assert (H : forall h, wfHook h -> micConsistent h ->
            micConsistent (HookJS.play es h)).
  { induction es as [|e es IH]; intros h Hwf Hmc; [assumption|].
    simpl. apply IH.
    - now apply js_react_wfHook.
    - now apply js_react_micConsistent. }
  apply H.
  - split.
    + split; simpl.
      * intros t [x Hx]. now rewrite lookup_empty in Hx.
      * intros s ids Hs. now rewrite lookup_empty in Hs.
    + intros s Hs. discriminate Hs.
  - split.
    + intros s t Hs. discriminate Hs.
    + intros p Hp. now apply elem_of_nil in Hp.
Qed.

(** X15.  [toggleCamera] on a local stream with video tracks writes the new
    state in all three places (the [enabled] flag of every video track,
    [isCameraOn], the [videoEnabled] of the local entries), tells the room
    about it, and leaves the microphone alone. *)
Theorem toggleCamera_writes_everywhere (seen : bool) (props : Props)
    (h : Hook) (s : nat) :
  localStreamRef h = Some s ->
  getVideoTracks s (heap h) <> [] ->
  let h' := HookJS.toggleCamera_of seen props h in
  isCameraOn h' = negb seen
  /\ getVideoTracks s (heap h') = getVideoTracks s (heap h)
  /\ (forall t, t ∈ getVideoTracks s (heap h) ->
        enabled <$> tracks (heap h') !! t = Some (negb seen))
  /\ localVideo (negb seen) (participants h')
  /\ signalled h'
     = signalled h ++ [ {| type := "video-state"; senderId := Some (userId props);
                           receiverId := None;
                           payload := VideoEnabled (negb seen) |} ]
  /\ isMicOn h' = isMicOn h
  /\ sameAudio s (heap h) (heap h')
  /\ map Participant.audioEnabled (participants h')
     = map Participant.audioEnabled (participants h).
Proof.
  intros Hs Hne. unfold HookJS.toggleCamera_of. rewrite Hs.
  destruct (getVideoTracks s (heap h)) as [|a l] eqn:Ha; [contradiction|].
  change (0 <? length (a :: l))%nat with true. cbv iota. fold_heap.
  rewrite <- Ha.
  split; [reflexivity|].
  split; [apply getVideoTracks_forEachTrack; reflexivity|].
  split; [|split; [|split; [reflexivity|split; [reflexivity|split]]]].
  - intros t Ht.
    rewrite forEachTrack_enabled by assumption.
    apply video_track_exists in Ht as (_ & tr & -> & _). reflexivity.
  - intros p Hp Hlocal.
    apply list_elem_of_In, in_map_iff in Hp as (p0 & <- & Hp0).
    destruct (Participant.isCurrentUser p0) eqn:E; [reflexivity | congruence].
  - apply sameAudio_forEachTrack_apart; [reflexivity|].
    intros t Ht. now apply video_not_audio.
  - rewrite map_map. apply map_ext. intros p.
    now destruct (Participant.isCurrentUser p).
Qed.

Lemma toggleCamera_writes_everywhere_witness :
  let h := HookJS.initResolved me [AudioKind; VideoKind] (mount me) in
  let h' := HookJS.toggleCamera_of true me h in
  isCameraOn h' = negb true
  /\ getVideoTracks 0 (heap h') = getVideoTracks 0 (heap h)
  /\ (forall t, t ∈ getVideoTracks 0 (heap h) ->
        enabled <$> tracks (heap h') !! t = Some (negb true))
  /\ localVideo (negb true) (participants h')
  /\ signalled h'
     = signalled h ++ [ {| type := "video-state"; senderId := Some (userId me);
                           receiverId := None;
                           payload := VideoEnabled (negb true) |} ]
  /\ isMicOn h' = isMicOn h
  /\ sameAudio 0 (heap h) (heap h')
  /\ map Participant.audioEnabled (participants h')
     = map Participant.audioEnabled (participants h).
Proof.
  apply (toggleCamera_writes_everywhere true me
           (HookJS.initResolved me [AudioKind; VideoKind] (mount me)) 0%nat).
  - reflexivity.
  - vm_compute. discriminate.
Defined.

(** X16.  [toggleMic] never touches the camera: [isCameraOn], the screen
    sharing state, the stream references, the video tracks of every stream
    and their state, and the id, [videoEnabled] and stream of every entry
    are what they were. *)
Theorem toggleMic_leaves_video (seen : bool) (props : Props) (h : Hook) :
  let h' := HookJS.toggleMic_of seen props h in
  isCameraOn h' = isCameraOn h
  /\ isScreenSharing h' = isScreenSharing h
  /\ localStreamRef h' = localStreamRef h
  /\ screenStream h' = screenStream h
  /\ (forall s, getVideoTracks s (heap h') = getVideoTracks s (heap h))
  /\ (forall s t, t ∈ getVideoTracks s (heap h) ->
        tracks (heap h') !! t = tracks (heap h) !! t)
  /\ map Participant.id (participants h') = map Participant.id (participants h)
  /\ map Participant.videoEnabled (participants h')
     = map Participant.videoEnabled (participants h)
  /\ map Participant.stream (participants h')
     = map Participant.stream (participants h).
Proof.
  unfold HookJS.toggleMic_of.
  destruct (localStreamRef h) as [s0|] eqn:Hs; [|now repeat split].
  destruct (0 <? length (getAudioTracks s0 (heap h)))%nat; [|now repeat split].
  fold_heap.
  assert (Hmap : forall {B} (g : Participant.t -> B),
            (forall p, g (HookJS.muteEntry (negb seen) p) = g p) ->
            map g (map (fun p => if Participant.isCurrentUser p
                                 then HookJS.muteEntry (negb seen) p else p)
                     (participants h))
            = map g (participants h)).
  { intros B g Hg. rewrite map_map. apply map_ext. intros p.
    destruct (Participant.isCurrentUser p); [apply Hg | reflexivity]. }
  repeat split; try (apply Hmap; reflexivity).
  - assumption.
  - intros s. apply getVideoTracks_forEachTrack. reflexivity.
  - intros s t Ht. apply forEachTrack_out.
    now apply (video_apart_audio s s0).
Qed.

(** What the cleanup does to the tracks. *)
Lemma cleanup_tracks (h : Hook) :
  (forall s t, owned h s -> t ∈ getTracks s (heap h) ->
     ended <$> tracks (heap (HookJS.cleanup h)) !! t
     = (fun _ => true) <$> tracks (heap h) !! t)
  /\ (forall t, (forall s, owned h s -> t ∉ getTracks s (heap h)) ->
        tracks (heap (HookJS.cleanup h)) !! t = tracks (heap h) !! t).
Proof.
  unfold HookJS.cleanup, cleanupStream, destroyAll, owned. fold_heap.
  destruct (localStreamRef h) as [a|] eqn:Ha; fold_heap;
    destruct (screenStream h) as [b|] eqn:Hb; fold_heap; rewrite ?Ha, ?Hb;
    fold_heap; split.
  - intros s t [[= <-]|[= <-]] Ht.
    + destruct (decide (t ∈ getTracks b (heap h))) as [Hin|Hout].
      * rewrite forEachTrack_stop_in by assumption. apply forEachTrack_present.
      * rewrite forEachTrack_out by exact Hout.
        now apply forEachTrack_stop_in.
    + rewrite forEachTrack_stop_in by assumption. apply forEachTrack_present.
  - intros t Hout. rewrite !forEachTrack_out; [reflexivity| |]; apply Hout; auto.
  - intros s t [[= <-]|[=]] Ht. now apply forEachTrack_stop_in.
  - intros t Hout. apply forEachTrack_out. apply Hout. auto.
  - intros s t [[=]|[= <-]] Ht. now apply forEachTrack_stop_in.
  - intros t Hout. apply forEachTrack_out. apply Hout. auto.
  - intros s t [[=]|[=]].
  - reflexivity.
Qed.

(** What it does to the rest of the state. *)
Lemma cleanup_fields (h : Hook) :
  mounted (HookJS.cleanup h) = false
  /\ localStreamRef (HookJS.cleanup h) = None
  /\ screenStream (HookJS.cleanup h) = None
  /\ participants (HookJS.cleanup h) = participants h
  /\ peerConnections (HookJS.cleanup h) = peerConnections h
  /\ isMicOn (HookJS.cleanup h) = isMicOn h
  /\ isCameraOn (HookJS.cleanup h) = isCameraOn h
  /\ streamInitAttempts (HookJS.cleanup h) = streamInitAttempts h
  /\ nextStream (heap (HookJS.cleanup h)) = nextStream (heap h)
  /\ peerCalls (HookJS.cleanup h)
     = peerCalls h
       ++ map (fun kv => Destroy (peer (snd kv)))
            (map_to_list (peerConnections h)).
Proof.
  unfold HookJS.cleanup, cleanupStream, destroyAll. fold_heap.
  destruct (localStreamRef h) as [a|] eqn:Ha; fold_heap;
    destruct (screenStream h) as [b|] eqn:Hb; fold_heap; rewrite ?Ha, ?Hb;
    now repeat split.
Qed.

(** X17.  The cleanup of the initialisation effect stops every track of the
    local stream and of the screen stream and forgets both streams; it
    touches no other track (the stream of the simulated participants, a
    stream that was replaced), asks every connected peer to shut down, and
    leaves the connection map and the participants array as they are. *)
Theorem cleanup_stops_owned_media (h : Hook) :
  let h' := HookJS.cleanup h in
  mounted h' = false
  /\ localStreamRef h' = None
  /\ screenStream h' = None
  /\ (forall s t, owned h s -> t ∈ getTracks s (heap h) ->
        ended <$> tracks (heap h') !! t
        = (fun _ => true) <$> tracks (heap h) !! t)
  /\ (forall t, (forall s, owned h s -> t ∉ getTracks s (heap h)) ->
        tracks (heap h') !! t = tracks (heap h) !! t)
  /\ peerCalls h'
     = peerCalls h
       ++ map (fun kv => Destroy (peer (snd kv))) (map_to_list (peerConnections h))
  /\ peerConnections h' = peerConnections h
  /\ participants h' = participants h.
Proof.
  intros h'. subst h'.
  destruct (cleanup_fields h)
    as (Hm & Hl & Hs & Hp & Hc & _ & _ & _ & _ & Hcalls).
  destruct (cleanup_tracks h) as [Hin Hout].
  repeat split; assumption.
Qed.

(** X18.  Removing the same participant twice is the same as removing it
    once: the second call finds neither an entry nor a connection and does
    nothing, in particular it does not destroy the peer a second time. *)
Theorem removeParticipant_idempotent (participantId : string) (h : Hook) :
  HookJS.removeParticipant participantId
    (HookJS.removeParticipant participantId h)
  = HookJS.removeParticipant participantId h.
Proof.
  set (h1 := HookJS.removeParticipant participantId h).
  assert (Hp : forall p, p ∈ participants h1 ->
            Participant.id p <> participantId).
  { intros p Hin.
    assert (Hin' : p ∈ participants (dropId participantId h)).
    { subst h1. unfold HookJS.removeParticipant in Hin.
      destruct (peerConnections (dropId participantId h) !! participantId);
        exact Hin. }
    now apply dropId_participants in Hin'. }
  assert (Hc : peerConnections h1 !! participantId = None).
  { subst h1. unfold HookJS.removeParticipant.
    destruct (peerConnections (dropId participantId h) !! participantId)
      eqn:E; [apply lookup_delete_eq | exact E]. }
  unfold HookJS.removeParticipant at 1.
  rewrite dropId_absent by assumption. fold h1. now rewrite Hc.
Qed.

(** X19.  A capture that resolves after the cleanup is dropped: the hook
    state is not updated (no local stream, no entry, flags as they were),
    and the tracks of the capture are left running, since nothing stops
    them. *)
Theorem late_capture_is_dropped (props : Props) (capture : Capture) (h : Hook) :
  let h0 := HookJS.cleanup h in
  let h' := HookJS.initResolved props capture h0 in
  h' = set_heap (snd (newStream capture (heap h0))) h0
  /\ localStreamRef h' = None
  /\ participants h' = participants h
  /\ length (getTracks (nextStream (heap h0)) (heap h')) = length capture
  /\ (forall t, t ∈ getTracks (nextStream (heap h0)) (heap h') ->
        ended <$> tracks (heap h') !! t = Some false).
Proof.
  intros h0 h'.
  destruct (cleanup_fields h) as (Hm & Href & _ & Hpart & _).
  fold h0 in Hm, Href, Hpart. clearbody h0.
  assert (Hh' : h' = set_heap (snd (newStream capture (heap h0))) h0).
  { subst h'. unfold HookJS.initResolved.
    rewrite (surjective_pairing (newStream capture (heap h0))).
    cbn -[newStream]. now rewrite Hm. }
  split; [assumption|]. rewrite Hh'. cbn -[newStream].
  split; [assumption|]. split; [assumption|].
  rewrite newStream_tracks. split; [apply length_seq|].
  intros t Ht. unfold newStream.
  destruct (allocTracks capture (nextTrack (heap h0)) (tracks (heap h0)))
    as [ids ts] eqn:E.
  destruct (allocTracks_spec _ _ _ _ _ E) as (Hids & _ & _ & Hnew).
  simpl. rewrite <- Hids in Ht. destruct (Hnew t Ht) as [k ->]. reflexivity.
Qed.

End JsHookFacts.

(** ** More on the enhanced hook *)

Section EnhancedFacts.
Import Session SessionState.

Ltac every_branch :=
  repeat (cbn;
          match goal with
          | |- context [match ?x with _ => _ end] => destruct x eqn:?
          end);
  cbn.

Lemma wfConnections_delete i pc ps :
  wfConnections pc ps -> wfConnections (delete i pc) ps.
Proof.
  intros H j c Hj. destruct (decide (j = i)) as [->|Hne].
  - now rewrite lookup_delete_eq in Hj.
  - rewrite lookup_delete_ne in Hj by congruence. now apply H.
Qed.

Lemma wfConnections_empty ps : wfConnections ∅ ps.
Proof. intros j c Hj. now rewrite lookup_empty in Hj. Qed.

Lemma wfConnections_create i b out sd ad pc ps :
  wfConnections pc ps ->
  wfConnections (<[i := {| peerId := i; peer := length ps |}]> pc)
    (ps ++ [ {| remote := i; initiator := b; outgoing := out;
                _senders := sd; hasAddTrack := ad |} ]).
Proof.
  intros H j c Hj. destruct (decide (j = i)) as [->|Hne].
  - rewrite lookup_insert_eq in Hj. injection Hj as <-. simpl.
    split; [reflexivity|]. eexists. split.
    + rewrite lookup_app_r by lia. rewrite Nat.sub_diag. reflexivity.
    + reflexivity.
  - rewrite lookup_insert_ne in Hj by congruence.
    destruct (H j c Hj) as [Hid (o & Ho & Hr)]. split; [assumption|].
    exists o. split; [|assumption]. rewrite lookup_app_l; [assumption|].
    now apply lookup_lt_Some in Ho.
Qed.

Lemma enhanced_react_wfPeers (props : Props) (e : Enhanced.Event) (h : Hook) :
  wfConnections (peerConnections h) (peers h) ->
  wfConnections (peerConnections (Enhanced.react props e h))
    (peers (Enhanced.react props e h)).
Proof.
  intros Hwf.
  destruct e; cbn [Enhanced.react];
    unfold Enhanced.initResolved, Enhanced.initRejected, Enhanced.healthCheck_of,
      Enhanced.cleanup, Enhanced.toggleMic, Enhanced.toggleMic_of,
      Enhanced.micAcquired, Enhanced.toggleCamera, Enhanced.toggleCamera_of,
      Enhanced.cameraAcquired, Enhanced.toggleScreenShare_of,
      Enhanced.removeParticipant, Enhanced.signalCallback, Enhanced.createPeer,
      Enhanced.handleSignals, Enhanced.onStream, Enhanced.onClose,
      Enhanced.onError, Enhanced.disconnect, cleanupStream, newStream;
    every_branch;
    first [ assumption
          | apply wfConnections_empty
          | apply wfConnections_delete; assumption
          | apply wfConnections_create; assumption ].
Qed.

(** X20.  In every state the enhanced hook reaches from its first render,
    each connection is filed under the id of the peer it was made for and
    refers to a peer object built for that id; so two ids never share a peer
    object. *)
Theorem connections_well_formed (props : Props) (es : list Enhanced.Event) :
  let h := Enhanced.play props es (mount props) in
  wfPeers h
  /\ forall i j c d,
       peerConnections h !! i = Some c -> peerConnections h !! j = Some d ->
       peer c = peer d -> i = j.
Proof.
  intros h.
  assert (Hwf : wfPeers h).
  { subst h.
    assert (H : forall h0, wfConnections (peerConnections h0) (peers h0) ->
              wfPeers (Enhanced.play props es h0)).
    { induction es as [|e es IH]; intros h0 H0; [exact H0|].
      simpl. apply IH. now apply enhanced_react_wfPeers. }
    apply H. apply wfConnections_empty. }
  split; [assumption|].
  intros i j c d Hc Hd Heq.
  destruct (Hwf i c Hc) as [_ (o & Ho & <-)].
  destruct (Hwf j d Hd) as [_ (o' & Ho' & <-)].
  congruence.
Qed.


Lemma Forall2_map_same {A} (P : A -> A -> Prop) (f : A -> A) (l : list A) :
  (forall x, x ∈ l -> P x (f x)) -> Forall2 P l (map f l).
Proof.
  induction l as [|a l IH]; intros H; simpl; constructor.
  - apply H. now left.
  - apply IH. intros x Hx. apply H. now right.
Qed.

(** X21.  A message handed to [handleSignals] never adds, removes or
    reorders a participant and never changes an entry's id, its
    [isCurrentUser] or its stream; an entry whose id is not the sender's is
    left exactly as it was; and the local media state (tracks, stream
    reference, microphone, camera and sharing flags) is not touched. *)
Theorem handleSignals_keeps_membership (props : Props) (now : Z)
    (m : Message) (h : Hook) :
  let h' := Enhanced.handleSignals props now m h in
  Forall2 (fun p p' =>
             Participant.id p' = Participant.id p
             /\ Participant.isCurrentUser p' = Participant.isCurrentUser p
             /\ Participant.stream p' = Participant.stream p
             /\ (Some (Participant.id p) <> senderId m -> p' = p))
    (participants h) (participants h')
  /\ heap h' = heap h
  /\ localStreamRef h' = localStreamRef h
  /\ isMicOn h' = isMicOn h
  /\ isCameraOn h' = isCameraOn h
  /\ isScreenSharing h' = isScreenSharing h.
Proof.
  assert (Hsame : Forall2 (fun p p' =>
             Participant.id p' = Participant.id p
             /\ Participant.isCurrentUser p' = Participant.isCurrentUser p
             /\ Participant.stream p' = Participant.stream p
             /\ (Some (Participant.id p) <> senderId m -> p' = p))
            (participants h) (participants h)).
  { rewrite <- (map_id (participants h)) at 2.
    apply Forall2_map_same. now intros. }
  assert (Hmap : forall change : Participant.t -> Participant.t,
            (forall p, Participant.id (change p) = Participant.id p) ->
            (forall p, Participant.isCurrentUser (change p)
                       = Participant.isCurrentUser p) ->
            (forall p, Participant.stream (change p) = Participant.stream p) ->
            Forall2 (fun p p' =>
               Participant.id p' = Participant.id p
               /\ Participant.isCurrentUser p' = Participant.isCurrentUser p
               /\ Participant.stream p' = Participant.stream p
               /\ (Some (Participant.id p) <> senderId m -> p' = p))
              (participants h)
              (map (fun p => if Enhanced.senderIs m p then change p else p)
                 (participants h))).
  { intros change H1 H2 H3. apply Forall2_map_same. intros p _.
    unfold Enhanced.senderIs. case_bool_decide; [|now repeat split].
    repeat split; auto. intros Hne. contradiction. }
  unfold Enhanced.handleSignals, mapWhere, destroyAll, signal.
  repeat match goal with
         | |- context [if ?b then _ else _] => destruct b
         end; cbn;
    (split; [first [exact Hsame | apply Hmap; reflexivity] | now repeat split]).
Qed.

Lemma entriesOf_map (i : string) (f : Participant.t -> Participant.t)
    (l : list Participant.t) :
  (forall p, Participant.id (f p) = Participant.id p) ->
  entriesOf i (map f l) = entriesOf i l.
Proof.
  intros Hf. unfold entriesOf. induction l as [|a l IH]; [reflexivity|].
  simpl. rewrite Hf. destruct (String.eqb (Participant.id a) i); simpl;
    now rewrite IH.
Qed.

Lemma entriesOf_exists (i : string) (l : list Participant.t) :
  existsb (Enhanced.hasId i) l = negb (entriesOf i l =? 0)%nat.
Proof.
  unfold entriesOf, Enhanced.hasId. induction l as [|a l IH]; [reflexivity|].
  simpl. destruct (String.eqb (Participant.id a) i); simpl; [reflexivity|].
  exact IH.
Qed.

Lemma filter_map_fixed {A} (g : A -> bool) (f : A -> A) (l : list A) :
  (forall x, g (f x) = g x) -> (forall x, g x = true -> f x = x) ->
  List.filter g (map f l) = List.filter g l.
Proof.
  intros H1 H2. induction l as [|a l IH]; [reflexivity|]. simpl.
  rewrite H1. destruct (g a) eqn:E; [|exact IH]. now rewrite H2, IH.
Qed.

(** X22.  A remote stream for a peer never creates a second entry for it:
    afterwards the array has one entry with its id, or as many as it had;
    every entry of another id is still there; and closing the connection
    after the stream leaves exactly the entries of the other ids, in
    order. *)
Theorem stream_then_close (peerId : string) (capture : Capture) (h : Hook) :
  let h' := Enhanced.onStream peerId capture h in
  entriesOf peerId (participants h')
  = Nat.max 1 (entriesOf peerId (participants h))
  /\ (forall i, i <> peerId ->
        entriesOf i (participants h') = entriesOf i (participants h))
  /\ participants (Enhanced.onClose peerId h')
     = List.filter (fun p => negb (String.eqb (Participant.id p) peerId))
         (participants h).
Proof.
  intros h'. subst h'. unfold Enhanced.onStream, Enhanced.onClose, dropId.
  rewrite (surjective_pairing (newStream capture (heap h))).
  cbn -[newStream]. rewrite entriesOf_exists.
  destruct (entriesOf peerId (participants h) =? 0)%nat eqn:Hn; cbn -[newStream].
  - apply Nat.eqb_eq in Hn. split; [|split].
    + unfold entriesOf in *. rewrite List.filter_app, length_app, Hn. simpl.
      now rewrite String.eqb_refl.
    + intros i Hi. unfold entriesOf. rewrite List.filter_app, length_app. simpl.
      apply String.eqb_neq in Hi. rewrite String.eqb_sym, Hi. simpl. lia.
    + rewrite List.filter_app. simpl. rewrite String.eqb_refl. simpl.
      apply app_nil_r.
  - apply Nat.eqb_neq in Hn. split; [|split].
    + fold (entriesOf peerId
              (map (fun p => if Enhanced.hasId peerId p
                             then Enhanced.withAudio true
                                    (Enhanced.withVideo true
                                       (Enhanced.withStream
                                          (Some (fst (newStream capture (heap h))))
                                          p))
                             else p)
                 (participants h))).
      rewrite entriesOf_map.
      * lia.
      * intros p. now destruct (Enhanced.hasId peerId p).
    + intros i Hi. apply entriesOf_map.
      intros p. now destruct (Enhanced.hasId peerId p).
    + apply filter_map_fixed.
      * intros p. now destruct (Enhanced.hasId peerId p).
      * intros p Hp. unfold Enhanced.hasId.
        apply negb_true_iff in Hp. now rewrite Hp.
Qed.

Ltac fold_media :=
  cbn -[Nat.ltb newStream forEachTrack getAudioTracks getVideoTracks getTracks
        Enhanced.swapVideo Enhanced.offerTrack Enhanced.connections
        map_to_list concat].

(** An older stream has the same video tracks after an allocation. *)
Lemma getVideoTracks_newStream capture hp s :
  wfHeap hp -> (s < nextStream hp)%nat ->
  getVideoTracks s (snd (newStream capture hp)) = getVideoTracks s hp.
Proof.
  intros Hwf Hlt.
  destruct (newStream_old_view capture hp s Hwf Hlt) as [Hsame Hold].
  unfold getVideoTracks. rewrite Hsame. apply filter_ext_on.
  intros t Ht. unfold hasKind. now rewrite Hold.
Qed.

Lemma swapVideo_peers track needTrack (h h' : Hook) (c : PeerConnection) :
  peers h' = peers h ->
  Enhanced.swapVideo track needTrack h' c
  = Enhanced.swapVideo track needTrack h c.
Proof.
  intros Hp. unfold Enhanced.swapVideo, Enhanced.senderOf. now rewrite Hp.
Qed.

(** References are in range after a first initialisation, and stay so when
    neither the heap nor the local stream changes. *)
Lemma enhanced_init_wfHook (props : Props) (capture : Capture) :
  wfHook (Enhanced.initResolved props capture (mount props)).
Proof.
  assert (Hwf : wfHeap noMedia).
  { split; simpl.
    - intros t [x Hx]. now rewrite lookup_empty in Hx.
    - intros s ids Hs. now rewrite lookup_empty in Hs. }
  unfold Enhanced.initResolved.
  rewrite (surjective_pairing (newStream capture (heap (mount props)))).
  rewrite newStream_fst. cbn -[newStream]. split; cbn -[newStream].
  - now apply wfHeap_newStream.
  - intros s [= <-]. rewrite newStream_next. simpl. lia.
Qed.

Lemma wfHook_same (h h' : Hook) :
  heap h' = heap h -> localStreamRef h' = localStreamRef h ->
  wfHook h -> wfHook h'.
Proof. intros Hh Hr [Hwf Href]. split; rewrite ?Hh, ?Hr; assumption. Qed.

(** What starting a share leaves behind. *)
Lemma enhanced_share_started (props : Props) (h : Hook) (cam v : nat)
    (rest : list nat) (capture : Capture) :
  wfHook h ->
  localStreamRef h = Some cam ->
  getVideoTracks (nextStream (heap h)) (snd (newStream capture (heap h)))
  = v :: rest ->
  let started := Enhanced.toggleScreenShare_of false props (Shared capture) h in
  isScreenSharing started = true
  /\ screenStream started = Some (nextStream (heap h))
  /\ localStreamRef started = Some cam
  /\ peers started = peers h
  /\ peerConnections started = peerConnections h
  /\ peerCalls started
     = peerCalls h
       ++ concat (map (Enhanced.swapVideo (Some v) false h)
                    (Enhanced.connections h))
  /\ signalled started
     = signalled h
       ++ [ {| type := "screen-share-state"; senderId := Some (userId props);
               receiverId := None; payload := ScreenSharing true |} ]
  /\ getVideoTracks cam (heap started) = getVideoTracks cam (heap h)
  /\ (forall t, t ∈ getTracks (nextStream (heap h)) (heap started) ->
        is_Some (tracks (heap started) !! t)).
Proof.
  intros [Hwf Href] Hcam Hv started. subst started.
  unfold Enhanced.toggleScreenShare_of. cbn [negb].
  rewrite (surjective_pairing (newStream capture (heap h))), newStream_fst.
  fold_media.
  rewrite getVideoTracks_forEachTrack by reflexivity.
  rewrite Hv. fold_media.
  split; [reflexivity|]. split; [reflexivity|]. split; [assumption|].
  split; [reflexivity|]. split; [reflexivity|].
  split.
  { apply (f_equal (app (peerCalls h))). apply (f_equal (@concat PeerCall)).
    unfold Enhanced.connections.
    cbn [peerConnections set_heap set_screenStream].
    apply map_ext. intros c. now apply swapVideo_peers. }
  split; [reflexivity|].
  split.
  { rewrite !getVideoTracks_forEachTrack by reflexivity.
    apply getVideoTracks_newStream; auto. }
  intros t Ht. rewrite !getTracks_forEachTrack in Ht.
  rewrite newStream_tracks in Ht.
  unfold forEachTrack at 1. cbn [tracks].
  rewrite foldr_alter_is_Some. unfold forEachTrack. cbn [tracks].
  rewrite foldr_alter_is_Some. unfold newStream.
  destruct (allocTracks capture (nextTrack (heap h)) (tracks (heap h)))
    as [ids ts] eqn:E.
  destruct (allocTracks_spec _ _ _ _ _ E) as (Hids & _ & _ & Hnew).
  simpl. rewrite <- Hids in Ht. destruct (Hnew t Ht) as [k ->]. eauto.
Qed.

(** The round trip with the calls in the order in which the model lists the
    connections. *)
Lemma enhanced_share_calls (props : Props) (h : Hook) (cam v : nat)
    (rest : list nat) (capture : Capture) (next : DisplayOutcome) :
  wfHook h ->
  localStreamRef h = Some cam ->
  getVideoTracks (nextStream (heap h)) (snd (newStream capture (heap h)))
  = v :: rest ->
  let started := Enhanced.toggleScreenShare_of false props (Shared capture) h in
  let stopped := Enhanced.toggleScreenShare_of true props next started in
  isScreenSharing stopped = false
  /\ screenStream stopped = None
  /\ localStreamRef stopped = Some cam
  /\ peerCalls stopped
     = peerCalls h
       ++ concat (map (Enhanced.swapVideo (Some v) false h)
                    (Enhanced.connections h))
       ++ concat (map (Enhanced.swapVideo
                         (head (getVideoTracks cam (heap h))) true h)
                    (Enhanced.connections h))
  /\ signalled stopped
     = signalled h
       ++ [ {| type := "screen-share-state"; senderId := Some (userId props);
               receiverId := None; payload := ScreenSharing true |};
            {| type := "screen-share-state"; senderId := Some (userId props);
               receiverId := None; payload := ScreenSharing false |} ]
  /\ (forall p, p ∈ participants stopped ->
        Participant.isCurrentUser p = true ->
        Participant.isScreenSharing p = false /\ Participant.stream p = Some cam)
  /\ (forall t, t ∈ getTracks (nextStream (heap h)) (heap started) ->
        ended <$> tracks (heap stopped) !! t = Some true).
Proof.
  intros Hwf Hcam Hv started stopped.
  destruct (enhanced_share_started props h cam v rest capture Hwf Hcam Hv)
    as (Hon & Hscr & Href & Hpeers & Hconn & Hcalls & Hsig & Hvid & Hlive).
  fold started in Hon, Hscr, Href, Hpeers, Hconn, Hcalls, Hsig, Hvid, Hlive.
  subst stopped. clearbody started.
  unfold Enhanced.toggleScreenShare_of. cbn [negb]. rewrite Hscr.
  fold_media. rewrite Href. fold_media.
  split; [reflexivity|]. split; [reflexivity|]. split; [assumption|].
  split.
  { rewrite Hcalls, <- app_assoc.
    apply (f_equal (app (peerCalls h))). apply (f_equal (app _)).
    apply (f_equal (@concat PeerCall)).
    rewrite getVideoTracks_forEachTrack by reflexivity. rewrite Hvid.
    unfold Enhanced.connections.
    cbn [peerConnections set_heap set_screenStream]. rewrite Hconn.
    apply map_ext. intros c. apply swapVideo_peers. exact Hpeers. }
  split; [rewrite Hsig, <- app_assoc; reflexivity|].
  split.
  - intros p Hp Hlocal.
    apply list_elem_of_In, in_map_iff in Hp as (p0 & Hp0 & _).
    destruct (Participant.isCurrentUser p0) eqn:Hp0'.
    + subst p. split; reflexivity.
    + subst p. congruence.
  - intros t Ht.
    rewrite forEachTrack_stop_in by assumption.
    destruct (Hlive t Ht) as [tr ->]. reflexivity.
Qed.

(** X23.  In the enhanced hook, a share started by the [toggleScreenShare]
    of a render that saw no share and stopped by the [toggleScreenShare] of
    a render that saw it (the share button, after the re-render) visits the
    connections twice, in the same order: every peer that has a video sender
    is handed the screen track at the start and the camera track back at
    the stop.  The room is told about the start and about the stop, no
    share is left running, the local entry is on the camera stream, and
    every track of the display stream is ended.  The callback that started
    the share does not stop it: called again, as the [onended] handler of
    the screen track does, with the capture refused, it leaves the share as
    it is. *)
Theorem enhanced_share_round_trip (props : Props) (h : Hook) (cam v : nat)
    (rest : list nat) (capture : Capture) (next : DisplayOutcome) :
  wfHook h ->
  localStreamRef h = Some cam ->
  getVideoTracks (nextStream (heap h)) (snd (newStream capture (heap h)))
  = v :: rest ->
  let started := Enhanced.toggleScreenShare_of false props (Shared capture) h in
  let stopped := Enhanced.toggleScreenShare_of true props next started in
  isScreenSharing stopped = false
  /\ screenStream stopped = None
  /\ localStreamRef stopped = Some cam
  /\ (exists visited,
        visited ≡ₚ Enhanced.connections h
        /\ peerCalls stopped
           = peerCalls h
             ++ concat (map (Enhanced.swapVideo (Some v) false h) visited)
             ++ concat (map (Enhanced.swapVideo
                               (head (getVideoTracks cam (heap h))) true h)
                          visited))
  /\ signalled stopped
     = signalled h
       ++ [ {| type := "screen-share-state"; senderId := Some (userId props);
               receiverId := None; payload := ScreenSharing true |};
            {| type := "screen-share-state"; senderId := Some (userId props);
               receiverId := None; payload := ScreenSharing false |} ]
  /\ (forall p, p ∈ participants stopped ->
        Participant.isCurrentUser p = true ->
        Participant.isScreenSharing p = false /\ Participant.stream p = Some cam)
  /\ (forall t, t ∈ getTracks (nextStream (heap h)) (heap started) ->
        ended <$> tracks (heap stopped) !! t = Some true)
  /\ (forall err,
        let again :=
          Enhanced.toggleScreenShare_of false props (Refused err) started in
        isScreenSharing again = true
        /\ screenStream again = Some (nextStream (heap h))
        /\ heap again = heap started
        /\ participants again = participants started).
Proof.
  intros Hwf Hcam Hv started stopped.
  destruct (enhanced_share_calls props h cam v rest capture next Hwf Hcam Hv)
    as (H1 & H2 & H3 & H4 & H5 & H6 & H7).
  destruct (enhanced_share_started props h cam v rest capture Hwf Hcam Hv)
    as (Hon & Hscr & _).
  split; [exact H1|]. split; [exact H2|]. split; [exact H3|].
  split; [exists (Enhanced.connections h); split; [reflexivity | exact H4]|].
  split; [exact H5|]. split; [exact H6|]. split; [exact H7|].
  intros err again. subst again. fold started in Hon, Hscr.
  unfold Enhanced.toggleScreenShare_of at 1. cbn [negb].
  repeat split; assumption.
Qed.

Lemma enhanced_share_round_trip_witness :
  let h := Enhanced.createPeer
             {| Enhanced.shape_senders := Some [Some AudioKind; Some VideoKind];
                Enhanced.shape_addTrack := true |}
             "bob" true (Some 0%nat) None
             (Enhanced.initResolved me [AudioKind; VideoKind] (mount me)) in
  let started := Enhanced.toggleScreenShare_of false me (Shared [VideoKind]) h in
  let stopped :=
    Enhanced.toggleScreenShare_of true me (Shared [VideoKind]) started in
  isScreenSharing stopped = false
  /\ screenStream stopped = None
  /\ localStreamRef stopped = Some 0%nat
  /\ signalled stopped
     = signalled h
       ++ [ {| type := "screen-share-state"; senderId := Some (userId me);
               receiverId := None; payload := ScreenSharing true |};
            {| type := "screen-share-state"; senderId := Some (userId me);
               receiverId := None; payload := ScreenSharing false |} ].
Proof.
  destruct (enhanced_share_round_trip me
              (Enhanced.createPeer
                 {| Enhanced.shape_senders :=
                      Some [Some AudioKind; Some VideoKind];
                    Enhanced.shape_addTrack := true |}
                 "bob" true (Some 0%nat) None
                 (Enhanced.initResolved me [AudioKind; VideoKind] (mount me)))
              0%nat 2%nat [] [VideoKind] (Shared [VideoKind]))
    as (H1 & H2 & H3 & _ & H5 & _).
  - apply (wfHook_same
             (Enhanced.initResolved me [AudioKind; VideoKind] (mount me)));
      [reflexivity | reflexivity | apply enhanced_init_wfHook].
  - reflexivity.
  - reflexivity.
  - repeat split; assumption.
Defined.

Lemma offerTrack_state k track (h h' : Hook) (c : PeerConnection) :
  peers h' = peers h -> localStreamRef h' = localStreamRef h ->
  Enhanced.offerTrack k track h' c = Enhanced.offerTrack k track h c.
Proof.
  intros Hp Hr. unfold Enhanced.offerTrack, Enhanced.senderOf.
  now rewrite Hp, Hr.
Qed.

(** The continuation of the acquisition, with the calls in the order in
    which the model lists the connections. *)
Lemma enhanced_micAcquired_calls (props : Props) (capture : Capture)
    (h : Hook) (s a : nat) (rest : list nat) :
  wfHook h -> localStreamRef h = Some s -> is_Some (streams (heap h) !! s) ->
  getAudioTracks (nextStream (heap h)) (snd (newStream capture (heap h)))
  = a :: rest ->
  let h' := Enhanced.micAcquired props capture Enhanced.NoFault h in
  getTracks s (heap h') = getTracks s (heap h) ++ [a]
  /\ (forall t, t ∈ getTracks s (heap h) ->
        tracks (heap h') !! t = tracks (heap h) !! t)
  /\ localStreamRef h' = Some s
  /\ isMicOn h' = true
  /\ peerCalls h'
     = peerCalls h
       ++ concat (map (Enhanced.offerTrack AudioKind a h)
                    (Enhanced.connections h))
  /\ signalled h'
     = signalled h
       ++ [ {| type := "audio-state"; senderId := Some (userId props);
               receiverId := None; payload := AudioEnabled true |} ]
  /\ localAudio true (participants h').
Proof.
  intros [Hwf Href] Hs [ids Hids] Ha.
  unfold Enhanced.micAcquired.
  rewrite (surjective_pairing (newStream capture (heap h))), newStream_fst.
  cbn -[newStream getAudioTracks]. rewrite Hs, Ha.
  cbn -[newStream Enhanced.offerTrack Enhanced.connections concat].
  destruct (newStream_old_view capture (heap h) s Hwf (Href s Hs)) as [Hview Hold].
  assert (Hnew : a ∉ ids).
  { intros Hin. destruct Hwf as [_ Hstreams].
    destruct (Hstreams s ids Hids) as [_ Hlt]. specialize (Hlt a Hin).
    assert (Hin' : a ∈ getAudioTracks (nextStream (heap h))
                      (snd (newStream capture (heap h))))
      by (rewrite Ha; left).
    apply audio_track_exists in Hin' as [Hin' _].
    rewrite newStream_tracks in Hin'.
    apply list_elem_of_In, in_seq in Hin'. lia. }
  split.
  { unfold getTracks in *. cbn -[newStream].
    rewrite lookup_alter_eq.
    rewrite newStream_old_stream by (specialize (Href s Hs); lia).
    rewrite Hids. simpl. now rewrite bool_decide_eq_false_2. }
  split; [exact Hold|]. split; [exact Hs|]. split; [reflexivity|].
  split.
  { apply (f_equal (app (peerCalls h))). apply (f_equal (@concat PeerCall)).
    unfold Enhanced.connections. cbn [peerConnections set_heap].
    apply map_ext. intros c. now apply offerTrack_state. }
  split; [reflexivity|].
  intros p Hp Hlocal.
  apply list_elem_of_In, in_map_iff in Hp as (p0 & <- & Hp0).
  destruct (Participant.isCurrentUser p0) eqn:E; [reflexivity | congruence].
Qed.

(** X24.  When the audio-only acquisition started by [toggleMic] resolves
    and nothing throws, the new audio track is appended to the local stream,
    whose other tracks are neither removed nor changed; the connections are
    visited once each and every peer is offered the track (on its audio
    sender, else through [addTrack]); [isMicOn] and the local entry say the
    microphone is on, and the room is told. *)
Theorem enhanced_micAcquired_adds_track (props : Props) (capture : Capture)
    (h : Hook) (s a : nat) (rest : list nat) :
  wfHook h -> localStreamRef h = Some s -> is_Some (streams (heap h) !! s) ->
  getAudioTracks (nextStream (heap h)) (snd (newStream capture (heap h)))
  = a :: rest ->
  let h' := Enhanced.micAcquired props capture Enhanced.NoFault h in
  getTracks s (heap h') = getTracks s (heap h) ++ [a]
  /\ (forall t, t ∈ getTracks s (heap h) ->
        tracks (heap h') !! t = tracks (heap h) !! t)
  /\ localStreamRef h' = Some s
  /\ isMicOn h' = true
  /\ (exists visited,
        visited ≡ₚ Enhanced.connections h
        /\ peerCalls h'
           = peerCalls h
             ++ concat (map (Enhanced.offerTrack AudioKind a h) visited))
  /\ signalled h'
     = signalled h
       ++ [ {| type := "audio-state"; senderId := Some (userId props);
               receiverId := None; payload := AudioEnabled true |} ]
  /\ localAudio true (participants h').
Proof.
  intros Hwf Hs Hstream Ha h'.
  destruct (enhanced_micAcquired_calls props capture h s a rest Hwf Hs Hstream Ha)
    as (H1 & H2 & H3 & H4 & H5 & H6 & H7).
  split; [exact H1|]. split; [exact H2|]. split; [exact H3|].
  split; [exact H4|].
  split; [exists (Enhanced.connections h); split; [reflexivity | exact H5]|].
  split; [exact H6 | exact H7].
Qed.

(** A video-only stream, a peer for Bob with a video sender and [addTrack];
    the microphone is acquired: Bob's peer is handed the new track through
    [addTrack]. *)
Lemma enhanced_micAcquired_adds_track_witness :
  let h := Enhanced.createPeer
             {| Enhanced.shape_senders := Some [Some VideoKind];
                Enhanced.shape_addTrack := true |}
             "bob" true (Some 0%nat) None
             (Enhanced.initResolved me [VideoKind] (mount me)) in
  let h' := Enhanced.micAcquired me [AudioKind] Enhanced.NoFault h in
  getTracks 0 (heap h') = getTracks 0 (heap h) ++ [1%nat]
  /\ isMicOn h' = true
  /\ peerCalls h' = peerCalls h ++ [AddTrack 0 1 (Some 0%nat)].
Proof.
  destruct (enhanced_micAcquired_adds_track me [AudioKind]
              (Enhanced.createPeer
                 {| Enhanced.shape_senders := Some [Some VideoKind];
                    Enhanced.shape_addTrack := true |}
                 "bob" true (Some 0%nat) None
                 (Enhanced.initResolved me [VideoKind] (mount me)))
              0%nat 1%nat [])
    as (H1 & _ & _ & H4 & _).
  - apply (wfHook_same (Enhanced.initResolved me [VideoKind] (mount me)));
      [reflexivity | reflexivity | apply enhanced_init_wfHook].
  - reflexivity.
  - eexists. reflexivity.
  - reflexivity.
  - split; [exact H1|]. split; [exact H4|]. vm_compute. reflexivity.
Defined.

Lemma existsb_ended (hp : Heap) (l : list nat) :
  existsb (Enhanced.isEnded hp) l = true ->
  exists t, t ∈ l /\ ended <$> tracks hp !! t = Some true.
Proof.
  intros H. apply existsb_exists in H as (t & Hin & Ht).
  exists t. split; [now apply list_elem_of_In|].
  now apply bool_decide_eq_true in Ht.
Qed.

Lemma existsb_live (hp : Heap) (l : list nat) :
  (forall t, t ∈ l -> ended <$> tracks hp !! t <> Some true) ->
  existsb (Enhanced.isEnded hp) l = false.
Proof.
  intros H. destruct (existsb (Enhanced.isEnded hp) l) eqn:E; [|reflexivity].
  apply existsb_ended in E as (t & Hin & Ht). now destruct (H t Hin).
Qed.

(** X25.  A tick of the health check leaves the hook alone unless a track of
    the local stream has ended; when it acts, it stops every track of that
    stream and drops the reference to it.  Either way it updates nothing
    else: the participants array, [localStream], [isMicOn] and
    [isCameraOn] keep describing the stream as it was. *)
Theorem healthCheck_acts_on_ended_tracks (seenCamera seenMic : bool) (h : Hook) :
  let h' := Enhanced.healthCheck_of seenCamera seenMic h in
  (h' = h
   \/ exists s,
        localStreamRef h = Some s
        /\ localStreamRef h' = None
        /\ (exists t, t ∈ getTracks s (heap h)
                      /\ ended <$> tracks (heap h) !! t = Some true)
        /\ (forall t, t ∈ getTracks s (heap h) ->
              ended <$> tracks (heap h') !! t
              = (fun _ => true) <$> tracks (heap h) !! t))
  /\ (forall s, localStreamRef h = Some s ->
        (forall t, t ∈ getTracks s (heap h) ->
           ended <$> tracks (heap h) !! t <> Some true) ->
        h' = h)
  /\ participants h' = participants h
  /\ localStream h' = localStream h
  /\ isMicOn h' = isMicOn h
  /\ isCameraOn h' = isCameraOn h.
Proof.
  unfold Enhanced.healthCheck_of, cleanupStream.
  destruct (localStreamRef h) as [s|] eqn:Hs.
  2:{ split; [now left|]. split; [discriminate|]. now repeat split. }
  destruct (existsb (Enhanced.isEnded (heap h)) (getVideoTracks s (heap h))
            && seenCamera
            || existsb (Enhanced.isEnded (heap h)) (getAudioTracks s (heap h))
               && seenMic) eqn:Hneeds.
  - split; [|split; [|now repeat split]].
    + right. exists s. split; [reflexivity|]. split; [reflexivity|]. split.
      * apply orb_true_iff in Hneeds as [H|H];
          apply andb_true_iff in H as [H _];
          apply existsb_ended in H as (t & Hin & Ht); exists t;
          (split; [|assumption]).
        -- now apply video_track_exists in Hin as [Hin _].
        -- now apply audio_track_exists in Hin as [Hin _].
      * intros t Ht. cbn -[forEachTrack getTracks].
        now apply forEachTrack_stop_in.
    + intros s0 [= <-] Hlive. exfalso.
      rewrite !existsb_live in Hneeds; [discriminate| |];
        intros t Ht; apply Hlive.
      * now apply audio_track_exists in Ht as [Ht _].
      * now apply video_track_exists in Ht as [Ht _].
  - split; [now left|]. now repeat split.
Qed.

End EnhancedFacts.
(** ** The TypeScript hook and the components that call the hooks *)

Section Callers.
Import Session SessionState.

Lemma ts_init_wfHook (props : Props) (capture : Capture) :
  wfHook (HookTSRoom.initResolved props capture (HookTSRoom.mount props)).
Proof.
  assert (Hwf : wfHeap noMedia).
  { split; simpl.
    - intros t [x Hx]. now rewrite lookup_empty in Hx.
    - intros s ids Hs. now rewrite lookup_empty in Hs. }
  unfold HookTSRoom.initResolved.
  rewrite (surjective_pairing
             (newStream capture (heap (HookTSRoom.mount props)))).
  rewrite newStream_fst. cbn -[newStream]. split; cbn -[newStream].
  - now apply wfHeap_newStream.
  - intros s [= <-]. rewrite newStream_next. simpl. lia.
Qed.

(** X26.  In the TypeScript hook, [toggleMic] on a local stream without
    audio track, the microphone being off, changes nothing and starts an
    audio-only [getMediaStream]; when that resolves with an audio track, the
    track is appended to the local stream, whose other tracks are neither
    removed nor changed, [isMicOn] and the local entry say the microphone
    is on, and (unlike the enhanced hook) the room is not told. *)
Theorem ts_toggleMic_acquires_and_adds (capture : Capture) (h : Hook)
    (s a : nat) (rest : list nat) :
  wfHook h -> localStreamRef h = Some s -> is_Some (streams (heap h) !! s) ->
  getAudioTracks s (heap h) = [] -> isMicOn h = false ->
  getAudioTracks (nextStream (heap h)) (snd (newStream capture (heap h)))
  = a :: rest ->
  let h' := HookTS.micAcquired capture h in
  HookTS.toggleMic h = (h, Some Media.audioOnly)
  /\ getTracks s (heap h') = getTracks s (heap h) ++ [a]
  /\ (forall t, t ∈ getTracks s (heap h) ->
        tracks (heap h') !! t = tracks (heap h) !! t)
  /\ localStreamRef h' = Some s
  /\ isMicOn h' = true
  /\ localAudio true (participants h')
  /\ signalled h' = signalled h.
Proof.
  intros Hwf Hs Hstream Hnone Hoff Ha h'.
  destruct (ts_micAcquired_adds capture h s a rest Hwf Hs Hstream Ha)
    as (Htracks & Hold & Href & Hmic).
  split.
  { unfold HookTS.toggleMic, HookTS.toggleMic_of. now rewrite Hs, Hnone, Hoff. }
  split; [assumption|]. split; [assumption|]. split; [assumption|].
  split; [assumption|].
  subst h'. unfold HookTS.micAcquired.
  rewrite (surjective_pairing (newStream capture (heap h))), newStream_fst.
  cbn -[newStream getAudioTracks]. rewrite Hs, Ha. cbn -[newStream].
  split; [|reflexivity].
  intros p Hp Hlocal.
  apply list_elem_of_In, in_map_iff in Hp as (p0 & <- & Hp0).
  destruct (Participant.isCurrentUser p0) eqn:E; [reflexivity | congruence].
Qed.

Lemma ts_toggleMic_acquires_and_adds_witness :
  let h := set_isMicOn false
             (HookTSRoom.initResolved me [VideoKind] (HookTSRoom.mount me)) in
  let h' := HookTS.micAcquired [AudioKind] h in
  HookTS.toggleMic h = (h, Some Media.audioOnly)
  /\ getTracks 0 (heap h') = getTracks 0 (heap h) ++ [1%nat]
  /\ (forall t, t ∈ getTracks 0 (heap h) ->
        tracks (heap h') !! t = tracks (heap h) !! t)
  /\ localStreamRef h' = Some 0%nat
  /\ isMicOn h' = true
  /\ localAudio true (participants h')
  /\ signalled h' = signalled h.
Proof.
  apply (ts_toggleMic_acquires_and_adds [AudioKind]
           (set_isMicOn false
              (HookTSRoom.initResolved me [VideoKind] (HookTSRoom.mount me)))
           0%nat 1%nat []).
  - apply (ts_init_wfHook me [VideoKind]).
  - reflexivity.
  - eexists. reflexivity.
  - reflexivity.
  - reflexivity.
  - reflexivity.
Defined.

Lemma filter_filter_all {A} (f g : A -> bool) (l : list A) :
  (forall x, x ∈ l -> f x = true -> g x = true) ->
  List.filter f (List.filter g l) = List.filter f l.
Proof.
  induction l as [|a l IH]; intros H; [reflexivity|]. simpl.
  assert (IH' : List.filter f (List.filter g l) = List.filter f l).
  { apply IH. intros x Hx. apply H. now right. }
  destruct (g a) eqn:Hg; simpl.
  - destruct (f a); now rewrite IH'.
  - destruct (f a) eqn:Hf; [|exact IH'].
    rewrite (H a) in Hg by (left || assumption). discriminate.
Qed.

Lemma idsApart_check (l : list Participant.t) :
  forallb (fun p =>
    forallb (fun q =>
      implb (Participant.isCurrentUser p && negb (Participant.isCurrentUser q))
            (negb (String.eqb (Participant.id q) (Participant.id p)))) l) l
  = true ->
  idsApart l.
Proof.
  intros H p q Hp Hq Hlocal Hremote.
  rewrite forallb_forall in H. apply list_elem_of_In in Hp, Hq.
  specialize (H p Hp). rewrite forallb_forall in H. specialize (H q Hq).
  rewrite Hlocal, Hremote in H. cbn in H.
  now apply negb_true_iff, String.eqb_neq in H.
Qed.

Lemma soleLocal_check (uid : string) (l : list Participant.t) :
  Nat.eqb (length (List.filter Participant.isCurrentUser l)) 1
  && forallb (fun p =>
       implb (Participant.isCurrentUser p) (String.eqb (Participant.id p) uid)) l
  = true ->
  soleLocal uid l.
Proof.
  intros H. apply andb_true_iff in H as [Hone Hids].
  split; [now apply Nat.eqb_eq in Hone|].
  intros p Hp Hlocal. rewrite forallb_forall in Hids.
  apply list_elem_of_In in Hp. specialize (Hids p Hp).
  rewrite Hlocal in Hids. now apply String.eqb_eq in Hids.
Qed.

Lemma participantToRemove_remote (l : list Participant.t) (rows : list Row.t)
    (id : string) (p : Participant.t) :
  Dashboard.participantToRemove l rows id = Some p ->
  p ∈ l /\ Participant.isCurrentUser p = false.
Proof.
  unfold Dashboard.participantToRemove.
  destruct (List.find _ l) as [p0|] eqn:E1.
  - intros [= <-]. apply List.find_some in E1 as [Hin Hp].
    apply andb_true_iff in Hp as [Hp _]. apply negb_true_iff in Hp.
    split; [now apply list_elem_of_In | assumption].
  - destruct (_ && _); [|discriminate].
    intros E2. apply List.find_some in E2 as [Hin Hp].
    apply negb_true_iff in Hp.
    split; [now apply list_elem_of_In | assumption].
Qed.

Lemma entriesOf_dropped (i : string) (l : list Participant.t) :
  entriesOf i
    (List.filter (fun p => negb (String.eqb (Participant.id p) i)) l) = 0%nat.
Proof.
  unfold entriesOf. induction l as [|q l IH]; [reflexivity|].
  cbn [List.filter].
  destruct (String.eqb (Participant.id q) i) eqn:Hq; cbn [negb];
    [exact IH|].
  cbn [List.filter]. now rewrite Hq.
Qed.

Lemma ts_removeParticipant_participants (props : Props) (i : string) (h : Hook) :
  participants (HookTSRoom.removeParticipant props i h)
  = List.filter (fun p => negb (String.eqb (Participant.id p) i))
      (participants h).
Proof.
  unfold HookTSRoom.removeParticipant. cbn.
  now destruct (peerConnections h !! i).
Qed.

(** X27.  Whatever id the participants panel of the dashboard hands to its
    removal handler, the entry the handler settles on is a listed entry that
    is not the local user's, and after the removal no entry with its id is
    left; as long as no remote entry carries the id of the local one, the
    local entries are all still there. *)
Theorem dashboard_removal_spares_local (props : Props) (id : string) (h : Hook) :
  idsApart (participants h) ->
  let h' := Dashboard.onRemoveParticipant props id h in
  currentUsers h' = currentUsers h
  /\ forall p,
       Dashboard.participantToRemove (participants h)
         (Dashboard.participantsList (participants h) (isMicOn h) (isCameraOn h))
         id = Some p ->
       p ∈ participants h
       /\ Participant.isCurrentUser p = false
       /\ entriesOf (Participant.id p) (participants h') = 0%nat.
Proof.
  intros Hapart h'. subst h'. unfold Dashboard.onRemoveParticipant.
  destruct (Dashboard.participantToRemove _ _ id) as [p|] eqn:E.
  2:{ split; [reflexivity | discriminate]. }
  destruct (participantToRemove_remote _ _ _ _ E) as [Hin Hremote].
  split.
  - unfold currentUsers. rewrite ts_removeParticipant_participants.
    apply filter_filter_all. intros q Hq Hlocal.
    apply negb_true_iff, String.eqb_neq. intros Heq.
    now apply (Hapart q p Hq Hin Hlocal Hremote).
  - intros p' [= <-]. split; [assumption|]. split; [assumption|].
    rewrite ts_removeParticipant_participants. apply entriesOf_dropped.
Qed.

Lemma dashboard_removal_spares_local_witness :
  let h := Enhanced.onStream "bob" [AudioKind; VideoKind]
             (HookTSRoom.initResolved me [AudioKind; VideoKind]
                (HookTSRoom.mount me)) in
  let h' := Dashboard.onRemoveParticipant me "bob" h in
  currentUsers h' = currentUsers h
  /\ forall p,
       Dashboard.participantToRemove (participants h)
         (Dashboard.participantsList (participants h) (isMicOn h) (isCameraOn h))
         "bob" = Some p ->
       p ∈ participants h
       /\ Participant.isCurrentUser p = false
       /\ entriesOf (Participant.id p) (participants h') = 0%nat.
Proof.
  apply (dashboard_removal_spares_local me "bob"
           (Enhanced.onStream "bob" [AudioKind; VideoKind]
              (HookTSRoom.initResolved me [AudioKind; VideoKind]
                 (HookTSRoom.mount me)))).
  apply idsApart_check. vm_compute. reflexivity.
Defined.

Lemma find_map_format (l : list Participant.t) :
  List.find Formatted.isHost (map MeetingRoom.format l)
  = option_map MeetingRoom.format (List.find Participant.isCurrentUser l).
Proof.
  induction l as [|a l IH]; [reflexivity|]. simpl.
  destruct (Participant.isCurrentUser a); [reflexivity | exact IH].
Qed.

(** X28.  In the meeting room every client takes its own entry for the
    host: with one local entry in the array, the participant list renders
    the menu with [Remove from meeting] for every entry of another id and
    for no entry of the local id; so a removal made through the menu leaves
    the local entry in place. *)
Theorem meetingRoom_menu_for_everyone_else (uid : string)
    (st : MeetingRoom.State) :
  soleLocal uid (participants (MeetingRoom.hook st)) ->
  forall p, p ∈ participants (MeetingRoom.hook st) ->
    ParticipantList.menuShown uid (MeetingRoom.formattedParticipants st)
      (MeetingRoom.format p)
    = negb (String.eqb (Participant.id p) uid)
    /\ (ParticipantList.menuShown uid (MeetingRoom.formattedParticipants st)
          (MeetingRoom.format p) = true ->
        length (currentUsers
                  (MeetingRoom.hook
                     (MeetingRoom.onRemoveParticipant (Participant.id p) st)))
        = 1%nat).
Proof.
  intros Hsole p Hp.
  assert (Hshown : ParticipantList.menuShown uid
                     (MeetingRoom.formattedParticipants st)
                     (MeetingRoom.format p)
                   = negb (String.eqb (Participant.id p) uid)).
  { unfold ParticipantList.menuShown, MeetingRoom.formattedParticipants.
    destruct (participants (MeetingRoom.hook st)) as [|a l] eqn:El;
      [now apply elem_of_nil in Hp|].
    rewrite <- El in *. rewrite El at 1. cbn [length map Nat.eqb].
    rewrite find_map_format.
    destruct Hsole as [Hone Hids].
    destruct (List.find Participant.isCurrentUser
                (participants (MeetingRoom.hook st))) as [cu|] eqn:Hfind.
    - apply List.find_some in Hfind as [Hin Hcu]. simpl.
      rewrite (Hids cu) by (now apply list_elem_of_In || assumption).
      now rewrite String.eqb_refl.
    - exfalso. clear -Hone Hfind.
      induction (participants (MeetingRoom.hook st)) as [|b l' IH];
        [discriminate|].
      simpl in *. destruct (Participant.isCurrentUser b); [discriminate | auto]. }
  split; [assumption|].
  rewrite Hshown. intros Hne. apply negb_true_iff, String.eqb_neq in Hne.
  unfold MeetingRoom.onRemoveParticipant, HookJS.removeParticipant.
  cbn [MeetingRoom.hook].
  assert (Hdrop : soleLocal uid
            (participants (dropId (Participant.id p) (MeetingRoom.hook st)))).
  { unfold dropId. cbn [participants set_participants].
    now apply soleLocal_drop. }
  destruct (peerConnections (dropId (Participant.id p) (MeetingRoom.hook st))
              !! Participant.id p); exact (proj1 Hdrop).
Qed.

Lemma meetingRoom_menu_for_everyone_else_witness :
  let st := {| MeetingRoom.isMicOn := true; MeetingRoom.isCameraOn := true;
               MeetingRoom.userName := "Me";
               MeetingRoom.hook :=
                 HookJS.simulateOtherParticipants None
                   (HookJS.initResolved me [AudioKind; VideoKind] (mount me)) |} in
  soleLocal "me" (participants (MeetingRoom.hook st))
  /\ forall p, p ∈ participants (MeetingRoom.hook st) ->
       ParticipantList.menuShown "me" (MeetingRoom.formattedParticipants st)
         (MeetingRoom.format p)
       = negb (String.eqb (Participant.id p) "me")
       /\ (ParticipantList.menuShown "me" (MeetingRoom.formattedParticipants st)
             (MeetingRoom.format p) = true ->
           length (currentUsers
                     (MeetingRoom.hook
                        (MeetingRoom.onRemoveParticipant (Participant.id p) st)))
           = 1%nat).
Proof.
  intros st. split.
  - apply soleLocal_check. vm_compute. reflexivity.
  - apply (meetingRoom_menu_for_everyone_else "me" st).
    apply soleLocal_check. vm_compute. reflexivity.
Defined.

End Callers.

(** ** The meeting room restarts the capture; recovery of a stalled video *)

Section Restart.
Import Session SessionState.





Lemma recoveries_idle (rs : list VideoStream.Replay) (st : VideoStream.State) :
  VideoStream.recoveryTimer st = None -> VideoStream.recoveries rs st = st.
Proof.
  intros H. induction rs as [|r rs IH]; [reflexivity|]. simpl.
  unfold VideoStream.recover. now rewrite H.
Qed.

Lemma recover_failed (r : VideoStream.Replay) (st : VideoStream.State) (d : Z) :
  VideoStream.failed r = true -> VideoStream.recoveryTimer st = Some d ->
  VideoStream.recover true r st
  = VideoStream.attemptRecovery
      {| VideoStream.videoError := VideoStream.videoError st;
         VideoStream.isPlaying := VideoStream.isPlaying st;
         VideoStream.recoveryAttempt := VideoStream.recoveryAttempt st + 1;
         VideoStream.recoveryTimer := None;
         VideoStream.timers := VideoStream.timers st |}.
Proof.
  intros Hr Hd. unfold VideoStream.recover. rewrite Hd.
  now destruct r.
Qed.

Ltac fields :=
  cbn [VideoStream.videoError VideoStream.isPlaying VideoStream.recoveryAttempt
       VideoStream.recoveryTimer VideoStream.timers].

Ltac numerals :=
  repeat match goal with
  | |- context [?a + 1] =>
      let v := eval vm_compute in (a + 1) in progress change (a + 1) with v
  | |- context [3 <=? ?a] =>
      let v := eval vm_compute in (3 <=? a) in progress change (3 <=? a) with v
  | |- context [2 ^ ?a * 1000] =>
      let v := eval vm_compute in (2 ^ a * 1000) in
      progress change (2 ^ a * 1000) with v
  end.

Ltac retry :=
  unfold VideoStream.attemptRecovery; fields; numerals; cbv beta iota.

Ltac fire H :=
  cbn [VideoStream.recoveries];
  erewrite (recover_failed _ _ _ H); [|reflexivity]; fields; retry.

Ltac settle :=
  cbn [VideoStream.recoveries]; unfold VideoStream.recover; fields;
  cbv beta iota zeta; fields; rewrite <- ?app_assoc;
  repeat split; try reflexivity; try (cbn; lia); try discriminate;
  try (exfalso; cbn [length] in *; lia).

(** X30.  When a playing video stalls with no recovery counted so far,
    [onStalled] sets a timer of one second; as long as the re-attachment
    fails, each firing sets the next timer with the delay doubled, and the
    third failure sets none: the timers set are 1000, 2000 and 4000 ms, at
    most, whatever happens later.  A re-attachment that plays resets the
    count and leaves no timer set. *)
Theorem stalled_recovery_backs_off (rs : list VideoStream.Replay)
    (st : VideoStream.State) :
  VideoStream.isPlaying st = true -> VideoStream.recoveryAttempt st = 0 ->
  Forall (fun r => VideoStream.failed r = true) (take 3 rs) ->
  let st' := VideoStream.recoveries rs (VideoStream.onStalled st) in
  VideoStream.timers st'
  = VideoStream.timers st ++ take (S (length rs)) [1000; 2000; 4000]
  /\ VideoStream.recoveryAttempt st' = Z.of_nat (min (length rs) 3)
  /\ (VideoStream.recoveryTimer st' = None <-> (3 <= length rs)%nat)
  /\ (let played := VideoStream.recover true VideoStream.Played st' in
      VideoStream.timers played = VideoStream.timers st'
      /\ VideoStream.recoveryTimer played = None
      /\ ((length rs < 3)%nat ->
          VideoStream.recoveryAttempt played = 0
          /\ VideoStream.isPlaying played = true)).
Proof.
  intros Hplay Hzero Hfail st'. subst st'.
  destruct st as [ve ip ra rt ts]. cbn in Hplay, Hzero. subst ip ra.
  unfold VideoStream.onStalled. fields. retry.
  destruct rs as [|r1 rs]; [settle|].
  apply Forall_cons in Hfail as [H1 Hfail]. fire H1.
  destruct rs as [|r2 rs]; [settle|].
  apply Forall_cons in Hfail as [H2 Hfail]. fire H2.
  destruct rs as [|r3 rs]; [settle|].
  apply Forall_cons in Hfail as [H3 _]. fire H3.
  rewrite recoveries_idle by reflexivity. settle.
Qed.

Lemma stalled_recovery_backs_off_witness :
  let st := {| VideoStream.videoError := false; VideoStream.isPlaying := true;
               VideoStream.recoveryAttempt := 0;
               VideoStream.recoveryTimer := None;
               VideoStream.timers := [] |} in
  VideoStream.timers
    (VideoStream.recoveries
       [VideoStream.PlayRejected; VideoStream.AttachThrew]
       (VideoStream.onStalled st))
  = [1000; 2000; 4000].
Proof.
  exact (proj1 (stalled_recovery_backs_off
                  [VideoStream.PlayRejected; VideoStream.AttachThrew]
                  {| VideoStream.videoError := false;
                     VideoStream.isPlaying := true;
                     VideoStream.recoveryAttempt := 0;
                     VideoStream.recoveryTimer := None;
                     VideoStream.timers := [] |}
                  eq_refl eq_refl
                  ltac:(repeat constructor))).
Defined.

End Restart.

